(** * Locomotion and scripted-movement controller of webdev-finals-achroma

    A shallow embedding of the first-person controller component
    ([FPSControls]: its two window-event handlers and its per-frame
    callback) and of the door portal of the basement scene
    ([useBasementDoor]: [tryDoorEndTeleport], [openStartDoor]).

    Numbers.  The source computes with JavaScript numbers.  They are
    modelled as real numbers with exact arithmetic: rounding, NaN and the
    infinities are outside the model.  [Math.PI] is [PI].

    Library code.  three.js vectors and matrices are written out
    ([Vector3], [Matrix4.applyMatrix4], [Matrix4.invert], the rotation
    about Y that the [rotation] prop of a collider stands for).  The two
    operations of three.js that go through the camera quaternion
    ([Object3D.getWorldDirection] and the [lookAt] / [slerp] chain) are
    parameters of the controller. *)

From Stdlib Require Import Reals Lra Lia List Bool ZArith.
Import ListNotations.
Open Scope R_scope.

(** * Part I: the embedding *)

(** ** JavaScript numeric primitives *)

(** Comparisons as booleans, so that conditions read as in the source. *)
Definition js_lt (a b : R) : bool := if Rlt_dec a b then true else false.
Definition js_le (a b : R) : bool := if Rle_dec a b then true else false.
Definition js_gt (a b : R) : bool := js_lt b a.
Definition js_ge (a b : R) : bool := js_le b a.
Definition js_eq (a b : R) : bool := if Req_dec_T a b then true else false.

(** [Math.sign]. *)
Definition Math_sign (x : R) : R :=
  if js_gt x 0 then 1 else if js_lt x 0 then -1 else 0.

(** [Math.hypot] of two arguments. *)
Definition Math_hypot (a b : R) : R := sqrt (a * a + b * b).

(** [Math.atan2 y x], the angle of the point [(x, y)]; [atan2 0 0] is [0]. *)
Definition Math_atan2 (y x : R) : R :=
  if js_gt x 0 then atan (y / x)
  else if js_lt x 0 then
    (if js_ge y 0 then atan (y / x) + PI else atan (y / x) - PI)
  else if js_gt y 0 then PI / 2
  else if js_lt y 0 then - (PI / 2)
  else 0.

(** Truncation toward zero and the remainder operator [a % b], whose result
    has the sign of the dividend. *)
Definition js_trunc (x : R) : Z :=
  if js_ge x 0 then Int_part x else (- Int_part (- x))%Z.

Definition js_rem (a b : R) : R := a - b * IZR (js_trunc (a / b)).

(** [v ?? d] on an optional value, and [detail?.field]. *)
Definition nullish {A : Type} (v : option A) (d : A) : A :=
  match v with Some a => a | None => d end.

Definition optChain {D A : Type} (detail : option D) (field : D -> option A)
  : option A :=
  match detail with Some d => field d | None => None end.

(** Truthiness of an optional boolean ([detail?.keepY ? .. : ..]). *)
Definition truthy (v : option bool) : bool :=
  match v with Some true => true | _ => false end.

(** ** three.js [Vector3] *)

Record Vector3 : Type := vec3 { vx : R; vy : R; vz : R }.

Definition v_zero : Vector3 := vec3 0 0 0.
Definition upVec : Vector3 := vec3 0 1 0.

Definition v_add (a b : Vector3) : Vector3 :=
  vec3 (vx a + vx b) (vy a + vy b) (vz a + vz b).

Definition v_sub (a b : Vector3) : Vector3 :=
  vec3 (vx a - vx b) (vy a - vy b) (vz a - vz b).

Definition v_multiplyScalar (a : Vector3) (s : R) : Vector3 :=
  vec3 (vx a * s) (vy a * s) (vz a * s).

Definition v_addScaledVector (a v : Vector3) (s : R) : Vector3 :=
  vec3 (vx a + vx v * s) (vy a + vy v * s) (vz a + vz v * s).

Definition v_lengthSq (a : Vector3) : R :=
  vx a * vx a + vy a * vy a + vz a * vz a.

Definition v_length (a : Vector3) : R := sqrt (v_lengthSq a).

(** [normalize] is [divideScalar(length() || 1)]: the zero vector is left
    as it is. *)
Definition v_normalize (a : Vector3) : Vector3 :=
  let len := v_length a in
  v_multiplyScalar a (1 / (if js_eq len 0 then 1 else len)).

Definition v_crossVectors (a b : Vector3) : Vector3 :=
  vec3 (vy a * vz b - vz a * vy b)
       (vz a * vx b - vx a * vz b)
       (vx a * vy b - vy a * vx b).

Definition v_distanceTo (a b : Vector3) : R := v_length (v_sub a b).

(** [v.y = 0]. *)
Definition v_flatten (a : Vector3) : Vector3 := vec3 (vx a) 0 (vz a).

(** ** three.js [Matrix4], column-major [elements] *)

Record Matrix4 : Type := mat4 {
  e0 : R; e1 : R; e2 : R; e3 : R;
  e4 : R; e5 : R; e6 : R; e7 : R;
  e8 : R; e9 : R; e10 : R; e11 : R;
  e12 : R; e13 : R; e14 : R; e15 : R }.

Definition m_zero : Matrix4 := mat4 0 0 0 0 0 0 0 0 0 0 0 0 0 0 0 0.

Definition m_translation (x y z : R) : Matrix4 :=
  mat4 1 0 0 0 0 1 0 0 0 0 1 0 x y z 1.

(** [Vector3.applyMatrix4], with its perspective divide. *)
Definition v_applyMatrix4 (v : Vector3) (m : Matrix4) : Vector3 :=
  let x := vx v in let y := vy v in let z := vz v in
  let w := 1 / (e3 m * x + e7 m * y + e11 m * z + e15 m) in
  vec3 ((e0 m * x + e4 m * y + e8 m * z + e12 m) * w)
       ((e1 m * x + e5 m * y + e9 m * z + e13 m) * w)
       ((e2 m * x + e6 m * y + e10 m * z + e14 m) * w).

(** [Vector3.setFromMatrixPosition], which [Object3D.getWorldPosition]
    applies to [matrixWorld]. *)
Definition v_setFromMatrixPosition (m : Matrix4) : Vector3 :=
  vec3 (e12 m) (e13 m) (e14 m).

Definition det3 (a b c d e f g h i : R) : R :=
  a * (e * i - f * h) - b * (d * i - f * g) + c * (d * h - e * g).

(** [Matrix4.invert]: the adjugate over the determinant, and the zero
    matrix when the determinant is [0]. *)
Definition m_determinant (m : Matrix4) : R :=
  e0 m * det3 (e5 m) (e9 m) (e13 m) (e6 m) (e10 m) (e14 m) (e7 m) (e11 m) (e15 m)
  - e4 m * det3 (e1 m) (e9 m) (e13 m) (e2 m) (e10 m) (e14 m) (e3 m) (e11 m) (e15 m)
  + e8 m * det3 (e1 m) (e5 m) (e13 m) (e2 m) (e6 m) (e14 m) (e3 m) (e7 m) (e15 m)
  - e12 m * det3 (e1 m) (e5 m) (e9 m) (e2 m) (e6 m) (e10 m) (e3 m) (e7 m) (e11 m).

Definition m_invert (m : Matrix4) : Matrix4 :=
  let det := m_determinant m in
  if js_eq det 0 then m_zero
  else
    let detInv := 1 / det in
    mat4
      (det3 (e5 m) (e9 m) (e13 m) (e6 m) (e10 m) (e14 m) (e7 m) (e11 m) (e15 m) * detInv)
      (- det3 (e1 m) (e9 m) (e13 m) (e2 m) (e10 m) (e14 m) (e3 m) (e11 m) (e15 m) * detInv)
      (det3 (e1 m) (e5 m) (e13 m) (e2 m) (e6 m) (e14 m) (e3 m) (e7 m) (e15 m) * detInv)
      (- det3 (e1 m) (e5 m) (e9 m) (e2 m) (e6 m) (e10 m) (e3 m) (e7 m) (e11 m) * detInv)
      (- det3 (e4 m) (e8 m) (e12 m) (e6 m) (e10 m) (e14 m) (e7 m) (e11 m) (e15 m) * detInv)
      (det3 (e0 m) (e8 m) (e12 m) (e2 m) (e10 m) (e14 m) (e3 m) (e11 m) (e15 m) * detInv)
      (- det3 (e0 m) (e4 m) (e12 m) (e2 m) (e6 m) (e14 m) (e3 m) (e7 m) (e15 m) * detInv)
      (det3 (e0 m) (e4 m) (e8 m) (e2 m) (e6 m) (e10 m) (e3 m) (e7 m) (e11 m) * detInv)
      (det3 (e4 m) (e8 m) (e12 m) (e5 m) (e9 m) (e13 m) (e7 m) (e11 m) (e15 m) * detInv)
      (- det3 (e0 m) (e8 m) (e12 m) (e1 m) (e9 m) (e13 m) (e3 m) (e11 m) (e15 m) * detInv)
      (det3 (e0 m) (e4 m) (e12 m) (e1 m) (e5 m) (e13 m) (e3 m) (e7 m) (e15 m) * detInv)
      (- det3 (e0 m) (e4 m) (e8 m) (e1 m) (e5 m) (e9 m) (e3 m) (e7 m) (e11 m) * detInv)
      (- det3 (e4 m) (e8 m) (e12 m) (e5 m) (e9 m) (e13 m) (e6 m) (e10 m) (e14 m) * detInv)
      (det3 (e0 m) (e8 m) (e12 m) (e1 m) (e9 m) (e13 m) (e2 m) (e10 m) (e14 m) * detInv)
      (- det3 (e0 m) (e4 m) (e12 m) (e1 m) (e5 m) (e13 m) (e2 m) (e6 m) (e14 m) * detInv)
      (det3 (e0 m) (e4 m) (e8 m) (e1 m) (e5 m) (e9 m) (e2 m) (e6 m) (e10 m) * detInv).

(** Product of two matrices ([a] applied after [b]); used to check
    [m_invert]. *)
Definition m_multiply (a b : Matrix4) : Matrix4 :=
  mat4
    (e0 a * e0 b + e4 a * e1 b + e8 a * e2 b + e12 a * e3 b)
    (e1 a * e0 b + e5 a * e1 b + e9 a * e2 b + e13 a * e3 b)
    (e2 a * e0 b + e6 a * e1 b + e10 a * e2 b + e14 a * e3 b)
    (e3 a * e0 b + e7 a * e1 b + e11 a * e2 b + e15 a * e3 b)
    (e0 a * e4 b + e4 a * e5 b + e8 a * e6 b + e12 a * e7 b)
    (e1 a * e4 b + e5 a * e5 b + e9 a * e6 b + e13 a * e7 b)
    (e2 a * e4 b + e6 a * e5 b + e10 a * e6 b + e14 a * e7 b)
    (e3 a * e4 b + e7 a * e5 b + e11 a * e6 b + e15 a * e7 b)
    (e0 a * e8 b + e4 a * e9 b + e8 a * e10 b + e12 a * e11 b)
    (e1 a * e8 b + e5 a * e9 b + e9 a * e10 b + e13 a * e11 b)
    (e2 a * e8 b + e6 a * e9 b + e10 a * e10 b + e14 a * e11 b)
    (e3 a * e8 b + e7 a * e9 b + e11 a * e10 b + e15 a * e11 b)
    (e0 a * e12 b + e4 a * e13 b + e8 a * e14 b + e12 a * e15 b)
    (e1 a * e12 b + e5 a * e13 b + e9 a * e14 b + e13 a * e15 b)
    (e2 a * e12 b + e6 a * e13 b + e10 a * e14 b + e14 a * e15 b)
    (e3 a * e12 b + e7 a * e13 b + e11 a * e14 b + e15 a * e15 b).


(** ** Controller data *)

(** The rigid body as the controller sees it through its handle:
    [translation()], [linvel()], [setTranslation], [setLinvel]. *)
Record RigidBody : Type := mkBody { translation : Vector3; linvel : Vector3 }.

Inductive EulerOrder : Type := XYZ | YXZ | ZXY | ZYX | YZX | XZY.

(** [camera.rotation]: three.js keeps the quaternion of an object in step
    with this Euler triple, so the triple and its order stand for the
    orientation. *)
Record Euler : Type := mkEuler {
  rot_x : R; rot_y : R; rot_z : R; order : EulerOrder }.

Record Camera : Type := mkCamera { position : Vector3; rotation : Euler }.

(** The three.js operations of the camera the controller calls and that go
    through the quaternion.  [slerpLookAt eye rot target up k] stands for
    [lookMat.lookAt(eye, target, up)], [targetQuat.setFromRotationMatrix]
    and [camera.quaternion.slerp(targetQuat, k)]. *)
Class ThreeCamera : Type := {
  getWorldDirection : Euler -> Vector3;
  slerpLookAt : Vector3 -> Euler -> Vector3 -> Vector3 -> R -> Euler }.

(** [overrideRef.current]. *)
Record Override : Type := mkOverride {
  timeLeft : R;
  duration : R;
  ov_speed : R;
  dir : Vector3;
  lockLook : bool;
  lookAt : option Vector3;
  lookSlerp : option R;
  moveDelayLeft : R }.

(** [bobRef.current]. *)
Record Bob : Type := mkBob {
  phase : R;
  intensity : R;
  smoothedHz : R;
  smoothedVertical : R;
  smoothedLateral : R }.

(** Modelled from the spec: the module [inputStore] ([getMoveAxes],
    [setMoveAxes], [consumeLookDelta], [isTouchMode]) is not among the
    sources.  Movement axes are a stored pair; the look delta is a one-shot
    pair, cleared when it is consumed. *)
Record InputStore : Type := mkInput {
  axes_x : R; axes_y : R; look_dx : R; look_dy : R; touchMode : bool }.

Definition getMoveAxes (i : InputStore) : R * R := (axes_x i, axes_y i).

Definition setMoveAxes (x y : R) (i : InputStore) : InputStore :=
  mkInput x y (look_dx i) (look_dy i) (touchMode i).

Definition isTouchMode (i : InputStore) : bool := touchMode i.

Definition consumeLookDelta (i : InputStore) : (R * R) * InputStore :=
  ((look_dx i, look_dy i), mkInput (axes_x i) (axes_y i) 0 0 (touchMode i)).

(** The props of [FPSControls] that the handlers and the frame callback
    read; [onFootstep] records whether a callback was passed. *)
Record Props : Type := mkProps {
  speed : R;
  eyeHeight : R;
  capsuleRadius : R;
  capsuleHeight : R;
  bobEnabled : bool;
  minStepFrequency : R;
  maxStepFrequency : R;
  verticalBobAmplitude : R;
  lateralBobAmplitude : R;
  bobSmoothing : R;
  speedAmplitudeInfluence : R;
  onFootstep : bool;
  acceleration : R;
  deceleration : R;
  stepSmoothing : R;
  verticalHarmonic : R;
  strafeLateralFactor : R;
  bobFollowSmoothing : R;
  idleReturnSmoothing : R }.

Definition defaultProps : Props :=
  mkProps 2 1.6 0.3 1.0 true 0.1 0.8 0.015 0.01 8 1 false 18 22 6 0.15 0.9 18 6.

(** The props [SceneCanvas] mounts the controller with. *)
Definition sceneProps : Props :=
  mkProps 1.0 3.75 0.25 1.85 true 0.1 0.8 0.015 0.01 8 1 true 18 22 6 0.15 0.9 18 6.

(** The mutable state of one mounted controller. *)
Record State : Type := mkState {
  bodyRef : option RigidBody;
  overrideRef : option Override;
  bobRef : Bob;
  camera : Camera;
  plcEnabled : bool;
  input : InputStore }.

Inductive Foot : Type := FootLeft | FootRight.

(** [detail] of the window events. *)
Record ScriptedMoveDetail : Type := mkScripted {
  durationSec : option R;
  distance : option R;
  d_lockLook : option bool;
  d_lookAt : option Vector3;
  d_lookSlerp : option R;
  moveDelaySec : option R }.

Record TeleportDetail : Type := mkTeleport {
  d_x : option R;
  d_y : option R;
  d_z : option R;
  keepY : option bool;
  yaw : option R }.

(** ** The [__scripted_move__] handler *)

(** The direction the handler captures: the flattened view direction,
    [(0, 0, -1)] when that is degenerate, normalised. *)
Definition captureForward `{ThreeCamera} (c : Camera) : Vector3 :=
  let dir0 := v_flatten (getWorldDirection (rotation c)) in
  let dir1 := if js_lt (v_lengthSq dir0) 1e-6 then vec3 0 0 (-1) else dir0 in
  v_normalize dir1.

Definition scriptedMoveHandler `{ThreeCamera}
    (s : State) (detail : option ScriptedMoveDetail) : State :=
  let durationSec := Rmax 0.05 (nullish (optChain detail durationSec) 1.2) in
  let distance := Rmax 0.05 (nullish (optChain detail distance) 1.5) in
  let lockLook := nullish (optChain detail d_lockLook) true in
  let dir := captureForward (camera s) in
  mkState
    (bodyRef s)
    (Some (mkOverride
             durationSec
             durationSec
             (distance / durationSec)
             dir
             lockLook
             (optChain detail d_lookAt)
             (Some (nullish (optChain detail d_lookSlerp) 6))
             (Rmax 0 (nullish (optChain detail moveDelaySec) 0.35))))
    (bobRef s)
    (camera s)
    (if lockLook then false else plcEnabled s)
    (setMoveAxes 0 0 (input s)).

(** ** The [__teleport_to__] handler *)

Definition teleportHandler
    (s : State) (detail : option TeleportDetail) : State :=
  match bodyRef s with
  | None => s
  | Some body =>
    let t := translation body in
    let nx := nullish (optChain detail d_x) (vx t) in
    let ny := if truthy (optChain detail keepY) then vy t
              else nullish (optChain detail d_y) (vy t) in
    let nz := nullish (optChain detail d_z) (vz t) in
    let rot := rotation (camera s) in
    let rot' := match optChain detail yaw with
                | Some w => mkEuler (rot_x rot) w (rot_z rot) YXZ
                | None => rot
                end in
    mkState
      (Some (mkBody (vec3 nx ny nz) (vec3 0 0 0)))
      None
      (bobRef s)
      (mkCamera (position (camera s)) rot')
      true
      (setMoveAxes 0 0 (input s))
  end.

(** ** The frame callback ([useFrame]) *)

(** [canMove]: no override, or an override whose start delay has run out. *)
Definition canMove (override : option Override) : bool :=
  match override with
  | Some o => js_le (moveDelayLeft o) 0
  | None => true
  end.

Definition hasAxesMove (i : InputStore) : bool :=
  let axes := getMoveAxes i in
  js_gt (Rabs (fst axes)) 0.001 || js_gt (Rabs (snd axes)) 0.001.

Definition isMoving (override : option Override) (i : InputStore) : bool :=
  match override with
  | Some _ => canMove override
  | None => hasAxesMove i
  end.

(** Forward direction of the camera, flattened, and the right vector. *)
Definition worldDirOf `{ThreeCamera} (c : Camera) : Vector3 :=
  v_normalize (v_flatten (getWorldDirection (rotation c))).

Definition rightOf (worldDir : Vector3) : Vector3 :=
  v_normalize (v_crossVectors worldDir upVec).

(** The movement direction [dir], before it is normalised. *)
Definition moveDir (override : option Override) (i : InputStore)
    (worldDir right : Vector3) : Vector3 :=
  match override with
  | Some o => if canMove override then v_add v_zero (dir o) else v_zero
  | None =>
    if hasAxesMove i then
      let axes := getMoveAxes i in
      v_add (v_add v_zero (v_multiplyScalar worldDir (snd axes)))
            (v_multiplyScalar right (fst axes))
    else v_zero
  end.

(** The rotation of the camera after the look-at step: slerped only under
    an override that locks the look, has a target and is still delaying. *)
Definition lookAtStep `{ThreeCamera} (override : option Override)
    (c : Camera) (delta : R) : Euler :=
  match override with
  | Some o =>
    match lookAt o with
    | Some target =>
      if lockLook o && negb (canMove override) then
        let k := Rmin 1 (Rmax 0 (nullish (lookSlerp o) 6 * delta)) in
        slerpLookAt (position c) (rotation c) target upVec k
      else rotation c
    | None => rotation c
    end
  | None => rotation c
  end.

(** Desired horizontal velocity [(desiredX, desiredZ)]. *)
Definition desiredVelocity (p : Props) (override : option Override)
    (i : InputStore) (worldDir right : Vector3) : R * R :=
  let d := moveDir override i worldDir right in
  if isMoving override i && js_gt (v_lengthSq d) 0 then
    let d' := v_normalize d in
    let baseSpeed :=
      match override with Some o => ov_speed o | None => speed p end in
    (vx d' * baseSpeed, vz d' * baseSpeed)
  else (0, 0).

Definition moveTowards (acceleration deceleration delta : R)
    (current target : R) : R :=
  let increasing := js_gt (Rabs target) (Rabs current) in
  let rate := if increasing then acceleration else deceleration in
  let maxDelta := rate * delta in
  let deltaV := target - current in
  if js_le (Rabs deltaV) maxDelta then target
  else current + Math_sign deltaV * maxDelta.

(** The velocity handed to [body.setLinvel]. *)
Definition commandedLinvel (override : option Override) (lin : Vector3)
    (newVX newVZ : R) : Vector3 :=
  match override with
  | Some _ =>
    if canMove override then vec3 newVX (vy lin) newVZ
    else vec3 0 (vy lin) 0
  | None => vec3 newVX (vy lin) newVZ
  end.

(** Advancing the timers of an override; [None] when it has run out. *)
Definition advanceOverride (delta : R) (o : Override) : option Override :=
  let moveDelayLeft' :=
    if js_gt (moveDelayLeft o) 0 then Rmax 0 (moveDelayLeft o - delta)
    else moveDelayLeft o in
  let timeLeft' := timeLeft o - delta in
  if js_le timeLeft' 0 then None
  else Some (mkOverride timeLeft' (duration o) (ov_speed o) (dir o)
               (lockLook o) (lookAt o) (lookSlerp o) moveDelayLeft').

(** *** Head bob *)

Definition normalizedSpeedOf (p : Props) (newVX newVZ : R) : R :=
  Rmin 1 (Math_hypot newVX newVZ / Rmax 0.001 (speed p)).

Definition nextIntensity (p : Props) (delta normalizedSpeed : R) (b : Bob) : R :=
  intensity b + (normalizedSpeed - intensity b) * Rmin 1 (bobSmoothing p * delta).

Definition nextHz (p : Props) (delta normalizedSpeed : R) (b : Bob) : R :=
  let targetHz :=
    minStepFrequency p
    + (maxStepFrequency p - minStepFrequency p) * normalizedSpeed in
  smoothedHz b + (targetHz - smoothedHz b) * Rmin 1 (stepSmoothing p * delta).

(** The guard of the phase update. *)
Definition phaseAdvances (intensity' stepHz : R) : bool :=
  js_gt intensity' 0.001 && js_gt stepHz 0.0001.

Definition nextPhase (delta stepHz prevPhase : R) : R :=
  js_rem (prevPhase + stepHz * 2 * PI * delta) (PI * 2).

(** [crossed(thr)] of the footstep detection, for [from] and [to]. *)
Definition crossed (from to thr : R) : bool :=
  (js_lt from thr && js_ge to thr)
  || (js_gt from to && (js_lt from thr || js_ge to thr)).

(** The calls of [onFootstep], in order. *)
Definition footsteps (from to : R) : list Foot :=
  (if crossed from to 0 then [FootRight] else [])
  ++ (if crossed from to PI then [FootLeft] else []).

(** The whole bob update of one frame: the new [bobRef.current] and the
    footsteps reported. *)
Definition bobStep (p : Props) (delta : R) (moving : bool)
    (newVX newVZ : R) (worldDir : Vector3) (b : Bob) : Bob * list Foot :=
  let '(b1, steps, vertical, lateral) :=
    if bobEnabled p then
      let speed2D := Math_hypot newVX newVZ in
      let normalizedSpeed := normalizedSpeedOf p newVX newVZ in
      let intensity' := nextIntensity p delta normalizedSpeed b in
      let stepHz := nextHz p delta normalizedSpeed b in
      let advances := phaseAdvances intensity' stepHz in
      let prevPhase := phase b in
      let phase' :=
        if advances then nextPhase delta stepHz prevPhase else prevPhase in
      let steps :=
        if advances && onFootstep p then footsteps prevPhase phase' else [] in
      let ampScale :=
        1 - speedAmplitudeInfluence p
        + speedAmplitudeInfluence p * normalizedSpeed in
      let phi := phase' in
      let sin2 := sin (phi * 2) in
      let shapedVertical := sin2 + verticalHarmonic p * sin (phi * 4) in
      let vertical :=
        shapedVertical * verticalBobAmplitude p * intensity' * ampScale in
      let forwardAlign :=
        if js_gt speed2D 0.0001 then
          let velDirX := newVX / speed2D in
          let velDirZ := newVZ / speed2D in
          Rabs (velDirX * vx worldDir + velDirZ * vz worldDir)
        else 0 in
      let lateralWeight :=
        strafeLateralFactor p + (1 - strafeLateralFactor p) * forwardAlign in
      let lateral :=
        sin phi * lateralBobAmplitude p * lateralWeight * intensity'
        * ampScale in
      (mkBob phase' intensity' stepHz (smoothedVertical b) (smoothedLateral b),
       steps, vertical, lateral)
    else (b, [], 0, 0) in
  let targetVertical := if moving then vertical else 0 in
  let targetLateral := if moving then lateral else 0 in
  let follow :=
    if moving then bobFollowSmoothing p else idleReturnSmoothing p in
  let k := Rmin 1 (Rmax 0 (follow * delta)) in
  (mkBob (phase b1) (intensity b1) (smoothedHz b1)
     (smoothedVertical b1 + (targetVertical - smoothedVertical b1) * k)
     (smoothedLateral b1 + (targetLateral - smoothedLateral b1) * k),
   steps).

(** *** Touch look and camera placement *)

Definition touchLook (usingTouch : bool) (override : option Override)
    (rot : Euler) (i : InputStore) : Euler * InputStore :=
  match override with
  | None =>
    if usingTouch then
      let '((dx, dy), i') := consumeLookDelta i in
      if negb (js_eq dx 0) || negb (js_eq dy 0) then
        let sens := 0.0025 in
        let lim := PI / 2 - 0.01 in
        (mkEuler (Rmax (- lim) (Rmin lim (rot_x rot - dy * sens)))
                 (rot_y rot - dx * sens) (rot_z rot) YXZ, i')
      else (rot, i')
    else (rot, i)
  | Some _ => (rot, i)
  end.

Definition placeCamera (p : Props) (t right : Vector3) (b : Bob) : Vector3 :=
  let halfHeight := capsuleHeight p / 2 in
  let baseOffset := halfHeight + capsuleRadius p in
  let pos :=
    vec3 (vx t)
         (vy t - baseOffset + eyeHeight p
          + (if bobEnabled p then smoothedVertical b else 0))
         (vz t) in
  if bobEnabled p then v_addScaledVector pos right (smoothedLateral b)
  else pos.

(** *** One frame.  Nothing happens while the body handle is absent. *)

Definition tick `{ThreeCamera} (p : Props) (delta : R) (s : State)
  : State * list Foot :=
  match bodyRef s with
  | None => (s, [])
  | Some body =>
    let usingTouch := isTouchMode (input s) in
    let override := overrideRef s in
    let moving := isMoving override (input s) in
    let worldDir := worldDirOf (camera s) in
    let right := rightOf worldDir in
    let rot1 := lookAtStep override (camera s) delta in
    let desired := desiredVelocity p override (input s) worldDir right in
    let lin := linvel body in
    let newVX :=
      moveTowards (acceleration p) (deceleration p) delta (vx lin) (fst desired) in
    let newVZ :=
      moveTowards (acceleration p) (deceleration p) delta (vz lin) (snd desired) in
    let body' :=
      mkBody (translation body) (commandedLinvel override lin newVX newVZ) in
    let override' :=
      match override with
      | Some o => advanceOverride delta o
      | None => None
      end in
    let plc' :=
      match override, override' with
      | Some _, None => true
      | _, _ => plcEnabled s
      end in
    let '(bob', steps) :=
      bobStep p delta moving newVX newVZ worldDir (bobRef s) in
    let '(rot2, input') := touchLook usingTouch override' rot1 (input s) in
    let pos := placeCamera p (translation body') right bob' in
    (mkState (Some body') override' bob' (mkCamera pos rot2) plc' input',
     steps)
  end.

(** ** Window events and runs of the controller *)

Inductive WindowEvent : Type :=
| ScriptedMoveEvent (detail : option ScriptedMoveDetail)
| TeleportEvent (detail : option TeleportDetail).

(** [window.dispatchEvent] runs the listener at once. *)
Definition handleEvent `{ThreeCamera} (s : State) (e : WindowEvent) : State :=
  match e with
  | ScriptedMoveEvent detail => scriptedMoveHandler s detail
  | TeleportEvent detail => teleportHandler s detail
  end.

(** What can happen to a mounted controller: a frame of [delta] seconds, a
    step of the physics engine that leaves the body in a new state, a
    window event, writes of the input devices to the input store, and a
    mouse look of [PointerLockControls], which turns the camera while the
    controls are enabled. *)
Inductive Input : Type :=
| Frame (delta : R)
| Physics (b : RigidBody)
| Request (e : WindowEvent)
| MoveAxes (x y : R)
| LookDelta (dx dy : R)
| PointerLook (rot : Euler).

Definition withBody (s : State) (b : option RigidBody) : State :=
  mkState b (overrideRef s) (bobRef s) (camera s) (plcEnabled s) (input s).

Definition withInput (s : State) (i : InputStore) : State :=
  mkState (bodyRef s) (overrideRef s) (bobRef s) (camera s) (plcEnabled s) i.

Definition step `{ThreeCamera} (p : Props) (s : State) (i : Input) : State :=
  match i with
  | Frame delta => fst (tick p delta s)
  | Physics b =>
    match bodyRef s with
    | Some _ => withBody s (Some b)
    | None => s
    end
  | Request e => handleEvent s e
  | MoveAxes x y => withInput s (setMoveAxes x y (input s))
  | LookDelta dx dy =>
    withInput s (mkInput (axes_x (input s)) (axes_y (input s)) dx dy
                   (touchMode (input s)))
  | PointerLook rot =>
    if plcEnabled s then
      mkState (bodyRef s) (overrideRef s) (bobRef s)
        (mkCamera (position (camera s)) rot) (plcEnabled s) (input s)
    else s
  end.

Definition run `{ThreeCamera} (p : Props) (s : State) (l : list Input) : State :=
  fold_left (step p) l s.

(** Seconds of frame time in a run. *)
Fixpoint elapsed (l : list Input) : R :=
  match l with
  | [] => 0
  | Frame delta :: l' => delta + elapsed l'
  | _ :: l' => elapsed l'
  end.

(** Frames with a non-negative [delta]; any other input. *)
Definition forwardInTime (i : Input) : Prop :=
  match i with Frame delta => 0 <= delta | _ => True end.

(** ** The door portal of the basement ([useBasementDoor]) *)

Record Object3D : Type := mkObject { matrixWorld : Matrix4 }.

Definition getWorldPosition (o : Object3D) : Vector3 :=
  v_setFromMatrixPosition (matrixWorld o).

Record DoorRefs : Type := mkDoors {
  doorStartRef : option Object3D;
  doorEndRef : option Object3D;
  openingRef : bool;
  openedRef : bool;
  targetYRef : R;
  initialYRef : R }.

Inductive TimerCallback : Type := CloseDoor | RetryDoorEndTeleport.

(** Effects of the door code outside its own refs, in program order. *)
Inductive Effect : Type :=
| DispatchEvent (e : WindowEvent)
| PlayDoorOpen
| SetTimeout (cb : TimerCallback) (ms : R).

Definition openStartDoor (withScriptedMove : bool) (d : DoorRefs)
  : DoorRefs * list Effect :=
  match doorStartRef d with
  | None => (d, [])
  | Some door =>
    let d' :=
      mkDoors (doorStartRef d) (doorEndRef d) true (openedRef d)
        (initialYRef d - PI / 2) (initialYRef d) in
    let doorPos := getWorldPosition door in
    let lookAt := vec3 (vx doorPos - 10) (vy doorPos) (vz doorPos) in
    (d',
     [PlayDoorOpen]
     ++ (if withScriptedMove then
           [DispatchEvent
              (ScriptedMoveEvent
                 (Some (mkScripted (Some 2.2) (Some 2.4) (Some true)
                          (Some lookAt) (Some 2.5) (Some 0.35))))]
         else [])
     ++ [SetTimeout CloseDoor 3200])
  end.

(** The planar position of the player in the frame of [DoorEnd], carried
    into the frame of [DoorStart]. *)
Definition portalTargetWorld (doorEnd doorStart : Object3D)
    (playerWorld : Vector3) : Vector3 :=
  let endMatrix := matrixWorld doorEnd in
  let invEndMatrix := m_invert endMatrix in
  let startMatrix := matrixWorld doorStart in
  let playerLocalToEnd := v_applyMatrix4 playerWorld invEndMatrix in
  let localXZ := vec3 (vx playerLocalToEnd) 0 (vz playerLocalToEnd) in
  v_applyMatrix4 localXZ startMatrix.

Definition distanceOfPlayerFromDoorEnd (doorEnd : Object3D)
    (playerWorld : Vector3) : R :=
  let playerLocalToEnd := v_applyMatrix4 playerWorld (m_invert (matrixWorld doorEnd)) in
  Math_hypot (vx playerLocalToEnd) (vz playerLocalToEnd).

(** [lookDir] after [lookDir.y = 0; lookDir.normalize()]. *)
Definition portalLookDir (doorEnd doorStart : Object3D)
    (playerWorld : Vector3) : Vector3 :=
  let startPos := getWorldPosition doorStart in
  let startTeleportPos :=
    v_sub (getWorldPosition doorStart)
          (vec3 (distanceOfPlayerFromDoorEnd doorEnd playerWorld) 0 0) in
  v_normalize (v_flatten (v_sub startPos startTeleportPos)).

Definition portalYaw (doorEnd doorStart : Object3D)
    (playerWorld : Vector3) : R :=
  let lookDir := portalLookDir doorEnd doorStart playerWorld in
  Math_atan2 (vx lookDir) (vz lookDir).

(** [detail] of the teleport event the portal dispatches. *)
Definition portalTeleportDetail (doorEnd doorStart : Object3D)
    (playerWorld : Vector3) : TeleportDetail :=
  let targetWorld := portalTargetWorld doorEnd doorStart playerWorld in
  mkTeleport (Some (vx targetWorld + 0.8)) None (Some (vz targetWorld))
    (Some true) (Some (portalYaw doorEnd doorStart playerWorld)).

(** [tryDoorEndTeleport], called with [camera.position]. *)
Definition tryDoorEndTeleport (d : DoorRefs) (cameraPosition : Vector3)
  : DoorRefs * list Effect * bool :=
  match doorEndRef d, doorStartRef d with
  | Some doorEnd, Some doorStart =>
    let endPos := getWorldPosition doorEnd in
    let dist := v_distanceTo endPos cameraPosition in
    let threshold := 1.0 in
    if js_gt dist threshold then (d, [], false)
    else
      let doorPos := getWorldPosition doorEnd in
      let distToDoorEnd := v_distanceTo doorPos cameraPosition in
      let approachThreshold := 1 in
      let approach :=
        if js_gt distToDoorEnd approachThreshold then
          [DispatchEvent
             (ScriptedMoveEvent
                (Some (mkScripted (Some 1) (Some distToDoorEnd) None None
                         None None)));
           SetTimeout RetryDoorEndTeleport 1000]
        else [] in
      let teleport :=
        [DispatchEvent
           (TeleportEvent
              (Some (portalTeleportDetail doorEnd doorStart cameraPosition)))] in
      let '(d', opened) := openStartDoor true d in
      (d', approach ++ teleport ++ opened, true)
  | _, _ => (d, [], false)
  end.

(** The controller's view of a list of effects: the window events, handled
    in order. *)
Definition deliver `{ThreeCamera} (s : State) (effects : list Effect) : State :=
  fold_left
    (fun s eff =>
       match eff with DispatchEvent e => handleEvent s e | _ => s end)
    effects s.

(** The interact key at a frame where the player is served by the portal:
    [tryDoorEndTeleport] runs on the camera position of the controller. *)
Definition interactAtDoorEnd `{ThreeCamera} (s : State) (d : DoorRefs)
  : State * DoorRefs * bool :=
  let '(d', effects, done) := tryDoorEndTeleport d (position (camera s)) in
  (deliver s effects, d', done).

(** ** The Coordinate Frame Mapper as the specification words it *)

(** The world point expressed in the local frame of the origin anchor, its
    vertical axis zeroed, re-expressed in the world frame of the
    destination anchor. *)
Definition spec_mapThroughAnchors (originTransform destinationTransform : Matrix4)
    (worldPoint : Vector3) : Vector3 :=
  let local := v_applyMatrix4 worldPoint (m_invert originTransform) in
  v_applyMatrix4 (vec3 (vx local) 0 (vz local)) destinationTransform.

(** The yaw of the direction from the point [distance] behind the
    destination toward the destination, as [atan2(dx, dz)]. *)
Definition spec_facingYaw (destination : Vector3) (distance : R) : R :=
  let behind := v_sub destination (vec3 distance 0 0) in
  let dx := vx destination - vx behind in
  let dz := vz destination - vz behind in
  Math_atan2 dx dz.

(** ** A camera for worked examples

    A camera without a parent whose Euler order is YXZ looks along
    [(- cos x * sin y, sin x, - cos x * cos y)].  Its look-at step turns
    yaw and pitch linearly toward the yaw and pitch of the direction to the
    target: a stand-in for the quaternion slerp, used only to run the model
    on concrete inputs. *)
Definition exampleDirection (e : Euler) : Vector3 :=
  vec3 (- (cos (rot_x e) * sin (rot_y e)))
       (sin (rot_x e))
       (- (cos (rot_x e) * cos (rot_y e))).

Definition exampleLookAt (eye : Vector3) (e : Euler) (target up : Vector3)
    (k : R) : Euler :=
  let d := v_sub target eye in
  let targetYaw := Math_atan2 (- vx d) (- vz d) in
  let targetPitch := Math_atan2 (vy d) (Math_hypot (vx d) (vz d)) in
  mkEuler (rot_x e + (targetPitch - rot_x e) * k)
          (rot_y e + (targetYaw - rot_y e) * k)
          (rot_z e) (order e).

Definition exampleCamera : ThreeCamera :=
  Build_ThreeCamera exampleDirection exampleLookAt.

(** A mounted controller at its spawn point, looking along [-Z]. *)
Definition spawnState : State :=
  mkState (Some (mkBody (vec3 8 0 1.5) v_zero)) None (mkBob 0 0 0 0 0)
    (mkCamera (vec3 8 0.8 1.5) (mkEuler 0 0 0 YXZ)) true
    (mkInput 0 0 0 0 false).

(** The same controller before its rigid body exists. *)
Definition unmountedState : State := withBody spawnState None.

(** ** Notions used to state the properties *)

(** The rate [moveTowards] picks. *)
Definition blendRate (acceleration deceleration current target : R) : R :=
  if js_gt (Rabs target) (Rabs current) then acceleration else deceleration.

(** The rate-limited move of one axis, as a relation between the current
    value, the target and the result. *)
Definition rateLimited (rate delta current target result : R) : Prop :=
  Rabs (result - current) <= rate * delta
  /\ (result = target
      \/ (rate * delta < Rabs (target - current)
          /\ result = current + Math_sign (target - current) * (rate * delta))).

(** The desired velocity and the blended velocity [(newVX, newVZ)] that a
    frame computes in state [s] for a body [body]. *)
Definition desiredOf `{ThreeCamera} (p : Props) (s : State) : R * R :=
  desiredVelocity p (overrideRef s) (input s) (worldDirOf (camera s))
    (rightOf (worldDirOf (camera s))).

Definition blendedOf `{ThreeCamera} (p : Props) (delta : R) (s : State)
    (body : RigidBody) : R * R :=
  (moveTowards (acceleration p) (deceleration p) delta
     (vx (linvel body)) (fst (desiredOf p s)),
   moveTowards (acceleration p) (deceleration p) delta
     (vz (linvel body)) (snd (desiredOf p s))).

(** The intensity and the cadence [stepHz] that the bob update of a frame
    arrives at, before it decides whether the phase advances. *)
Definition frameIntensity `{ThreeCamera} (p : Props) (delta : R) (s : State)
    (body : RigidBody) : R :=
  let v := blendedOf p delta s body in
  nextIntensity p delta (normalizedSpeedOf p (fst v) (snd v)) (bobRef s).

Definition frameCadence `{ThreeCamera} (p : Props) (delta : R) (s : State)
    (body : RigidBody) : R :=
  let v := blendedOf p delta s body in
  nextHz p delta (normalizedSpeedOf p (fst v) (snd v)) (bobRef s).

(** The states of the controller in the words of the specification. *)
Inductive Mode : Type := FREE | OVERRIDE_DELAY | OVERRIDE_MOVING.

Definition modeOf (s : State) : Mode :=
  match overrideRef s with
  | None => FREE
  | Some _ => if canMove (overrideRef s) then OVERRIDE_MOVING else OVERRIDE_DELAY
  end.

(** [x] lies between [a] and [b], whichever is larger. *)
Definition between (a b x : R) : Prop :=
  (a <= x <= b) \/ (b <= x <= a).

(** Inputs of a run in which no request arrives and time does not run
    backwards. *)
Definition quietInput (i : Input) : Prop :=
  match i with
  | Frame delta => 0 <= delta
  | Request _ => False
  | _ => True
  end.

(** [o1] is the override [o] after [e] seconds of frames. *)
Definition progressed (o : Override) (e : R) (o1 : Override) : Prop :=
  timeLeft o1 = timeLeft o - e
  /\ moveDelayLeft o1 = Rmax 0 (moveDelayLeft o - e)
  /\ duration o1 = duration o
  /\ ov_speed o1 = ov_speed o
  /\ dir o1 = dir o
  /\ lockLook o1 = lockLook o
  /\ lookAt o1 = lookAt o
  /\ lookSlerp o1 = lookSlerp o.

(** The request of the door-opening walk. *)
Definition doorWalkDetail : ScriptedMoveDetail :=
  mkScripted (Some 2.2) (Some 2.4) (Some true) (Some (vec3 5 0 0))
    (Some 2.5) (Some 0.35).

(** The spawned controller, turned to a yaw of one radian. *)
Definition turnedState : State :=
  mkState (bodyRef spawnState) None (bobRef spawnState)
    (mkCamera (vec3 8 0.8 1.5) (mkEuler 0 1 0 YXZ)) true (input spawnState).

(** A pair of doors: [DoorEnd] where the camera of the spawned controller
    is, [DoorStart] at the origin of the world. *)
Definition exampleDoors : DoorRefs :=
  mkDoors (Some (mkObject (m_translation 0 0 0)))
          (Some (mkObject (m_translation 8 0.8 1.5)))
          false false 0 0.

(** A controller in mid-walk under the props of the scene: forward input,
    the body at full speed along [-Z], the bob intensity and cadence
    settled at [1] and [0.8] Hz, and the bob phase at [ph]. *)
Definition walkingState (ph : R) : State :=
  mkState (Some (mkBody (vec3 8 0 1.5) (vec3 0 0 (-1)))) None
    (mkBob ph 1 0.8 0 0) (camera spawnState) true (mkInput 0 1 0 0 false).

(** A controller that starts to walk forward while its body still drifts
    sideways at [0.5] m/s. *)
Definition startingState : State :=
  mkState (Some (mkBody (vec3 8 0 1.5) (vec3 0.5 0 0))) None
    (bobRef spawnState) (camera spawnState) true (mkInput 0 1 0 0 false).

(** ** Further parts of the controller and of the basement scene *)

(** The mount effect of [FPSControls] that applies [initialYaw] and
    [initialPitch]. *)
Definition applyInitialView (initialYaw initialPitch : option R)
    (c : Camera) : Camera :=
  match initialYaw, initialPitch with
  | None, None => c
  | _, _ =>
    let rot := rotation c in
    let y := match initialYaw with Some w => w | None => rot_y rot end in
    let x :=
      match initialPitch with
      | Some q =>
        let lim := PI / 2 - 0.01 in
        Rmax (- lim) (Rmin lim q)
      | None => rot_x rot
      end in
    mkCamera (position c) (mkEuler x y (rot_z rot) YXZ)
  end.

(** Repeated blending of one axis toward a fixed target: [n] frames of
    [delta] seconds in which nothing else writes the velocity. *)
Fixpoint blendFrames (acceleration deceleration delta : R) (n : nat)
    (current target : R) : R :=
  match n with
  | O => current
  | S n' =>
    blendFrames acceleration deceleration delta n'
      (moveTowards acceleration deceleration delta current target) target
  end.

(** The door animation of the frame callback of [useBasementDoor], after
    the interact poll: [y] is [door.rotation.y]. *)
Definition doorAnimationFrame (delta : R) (y : R) (d : DoorRefs)
  : R * DoorRefs :=
  match doorStartRef d with
  | None => (y, d)
  | Some _ =>
    if openingRef d then
      let speed := 1.2 in
      let target := targetYRef d in
      let step := Math_sign (target - y) * speed * delta in
      let next := y + step in
      if (js_gt step 0 && js_ge next target)
         || (js_lt step 0 && js_le next target)
      then
        (target,
         mkDoors (doorStartRef d) (doorEndRef d) false (negb (openedRef d))
           (targetYRef d) (initialYRef d))
      else (next, d)
    else (y, d)
  end.

Fixpoint doorAnimationFrames (delta : R) (n : nat) (y : R) (d : DoorRefs)
  : R * DoorRefs :=
  match n with
  | O => (y, d)
  | S n' =>
    let '(y', d') := doorAnimationFrame delta y d in
    doorAnimationFrames delta n' y' d'
  end.

(** [closeDoor]; the flag tells whether [sound.playDoorClose()] ran. *)
Definition closeDoor (d : DoorRefs) : DoorRefs * bool :=
  match doorStartRef d with
  | None => (d, false)
  | Some _ =>
    (mkDoors (doorStartRef d) (doorEndRef d) true false
       (initialYRef d) (initialYRef d), true)
  end.

(** [tryOpenStart], called with [camera.position]. *)
Definition tryOpenStart (withScriptedMove : bool) (d : DoorRefs)
    (cameraPosition : Vector3) : DoorRefs * list Effect :=
  match doorStartRef d with
  | None => (d, [])
  | Some door =>
    let doorPos := getWorldPosition door in
    let dist := v_distanceTo doorPos cameraPosition in
    let threshold := 1.0 in
    if js_le dist threshold then openStartDoor withScriptedMove d
    else (d, [])
  end.

(** The interact poll of the frame callback, once [consumeInteract()] has
    returned true. *)
Definition onInteract (d : DoorRefs) (cameraPosition : Vector3)
  : DoorRefs * list Effect :=
  let '(d', effects, done) := tryDoorEndTeleport d cameraPosition in
  if done then (d', effects) else tryOpenStart true d cameraPosition.

(** [Wall] of [BasementWalls]: the cuboid collider built from two end
    points: half extents, position and rotation about Y. *)
Record WallCollider : Type := mkWall {
  halfExtents : Vector3;
  colliderPosition : Vector3;
  colliderRotationY : R }.

Definition wallDirection (startPos endPos : Vector3) : Vector3 :=
  v_normalize (v_sub endPos startPos).

Definition wallLength (startPos endPos : Vector3) : R :=
  v_length (v_sub endPos startPos).

Definition wallMidpoint (startPos endPos : Vector3) : Vector3 :=
  v_multiplyScalar (v_add startPos endPos) 0.5.

Definition Wall (startPos endPos : Vector3) (height depth : R)
  : WallCollider :=
  let direction := wallDirection startPos endPos in
  let length := wallLength startPos endPos in
  let rotationY := Math_atan2 (vz direction) (vx direction) in
  let position := wallMidpoint startPos endPos in
  mkWall (vec3 (length / 2) (height / 2) (depth / 2))
         (vec3 (vx position) (vy position + height / 2) (vz position))
         rotationY.

(** What the [rotation] prop [[0, rotationY, 0]] does to the box: the
    collider is a three.js object, and its Euler rotation about Y by [r]
    ([Matrix4.makeRotationY]) takes [(x, y, z)] to
    [(x cos r + z sin r, y, z cos r - x sin r)]. *)
Definition v_applyRotationY (v : Vector3) (r : R) : Vector3 :=
  vec3 (vx v * cos r + vz v * sin r) (vy v) (vz v * cos r - vx v * sin r).

(** The long axis of the box (its local X axis, along which it extends by
    the first half extent) in the world, and the two ends of the box on
    that axis: [side] is [1] or [-1]. *)
Definition colliderAxis (w : WallCollider) : Vector3 :=
  v_applyRotationY (vec3 1 0 0) (colliderRotationY w).

Definition colliderEnd (w : WallCollider) (side : R) : Vector3 :=
  v_addScaledVector (colliderPosition w) (colliderAxis w)
    (side * vx (halfExtents w)).

(** The box of a wall lies along the wall: its two ends on the long axis
    are the end points of the wall, lifted to the middle of its height, in
    either order. *)
Definition coversWall (startPos endPos : Vector3) (height depth : R) : Prop :=
  let w := Wall startPos endPos height depth in
  let lift (v : Vector3) := vec3 (vx v) (vy v + height / 2) (vz v) in
  (colliderEnd w 1 = lift endPos /\ colliderEnd w (-1) = lift startPos)
  \/ (colliderEnd w 1 = lift startPos /\ colliderEnd w (-1) = lift endPos).

(** [ProximityTrigger] of the loop triggers: its two refs, and one frame
    for a camera position.  [TriggerEnter] and [TriggerExit] stand for the
    calls [onEnter?.()] and [onExit?.()]. *)
Record TriggerRefs : Type := mkTrigger { inRef : bool; doneRef : bool }.

Inductive TriggerCall : Type := TriggerEnter | TriggerExit.

Definition proximityFrame (center : Vector3) (radius : R) (once : bool)
    (t : TriggerRefs) (cameraPosition : Vector3)
  : TriggerRefs * list TriggerCall :=
  if once && doneRef t then (t, [])
  else
    let d := v_distanceTo center cameraPosition in
    let inside := js_le d radius in
    if inside && negb (inRef t) then
      (mkTrigger true (if once then true else doneRef t), [TriggerEnter])
    else if negb inside && inRef t then
      (mkTrigger false (doneRef t), [TriggerExit])
    else (t, []).

(** The calls along a path of camera positions, one per frame. *)
Fixpoint proximityRun (center : Vector3) (radius : R) (once : bool)
    (t : TriggerRefs) (path : list Vector3) : TriggerRefs * list TriggerCall :=
  match path with
  | [] => (t, [])
  | cam :: rest =>
    let '(t', calls) := proximityFrame center radius once t cam in
    let '(t'', calls') := proximityRun center radius once t' rest in
    (t'', calls ++ calls')
  end.

(** Calls that alternate, starting with an enter when [inside] is false
    and with an exit when it is true. *)
Fixpoint alternating (inside : bool) (calls : list TriggerCall) : Prop :=
  match calls with
  | [] => True
  | TriggerEnter :: rest => inside = false /\ alternating true rest
  | TriggerExit :: rest => inside = true /\ alternating false rest
  end.

(** Inputs that do not write the body: anything but a physics step and a
    teleport request. *)
Definition leavesBody (i : Input) : Prop :=
  match i with
  | Physics _ => False
  | Request (TeleportEvent _) => False
  | _ => True
  end.

(** The bounds the bob state keeps. *)
Definition bobInRange (p : Props) (b : Bob) : Prop :=
  0 <= intensity b <= 1
  /\ 0 <= smoothedHz b <= maxStepFrequency p
  /\ Rabs (smoothedVertical b)
     <= (1 + Rabs (verticalHarmonic p)) * Rabs (verticalBobAmplitude p).

(** Props for which those bounds hold. *)
Definition bobConfigured (p : Props) : Prop :=
  0 <= bobSmoothing p /\ 0 <= stepSmoothing p
  /\ 0 <= minStepFrequency p <= maxStepFrequency p
  /\ 0 <= speedAmplitudeInfluence p <= 1.

(** A matrix without projective part, as the world matrix of an object of
    the scene is. *)
Definition m_affine (m : Matrix4) : Prop :=
  e3 m = 0 /\ e7 m = 0 /\ e11 m = 0 /\ e15 m = 1.

(** * Part II: properties *)

(** ** Comparisons *)

Lemma js_lt_true a b : js_lt a b = true <-> a < b.
Proof. unfold js_lt; destruct (Rlt_dec a b); split; intros; (easy || lra). Qed.

Lemma js_lt_false a b : js_lt a b = false <-> b <= a.
Proof. unfold js_lt; destruct (Rlt_dec a b); split; intros; (easy || lra). Qed.

Lemma js_le_true a b : js_le a b = true <-> a <= b.
Proof. unfold js_le; destruct (Rle_dec a b); split; intros; (easy || lra). Qed.

Lemma js_le_false a b : js_le a b = false <-> b < a.
Proof. unfold js_le; destruct (Rle_dec a b); split; intros; (easy || lra). Qed.

Lemma js_gt_true a b : js_gt a b = true <-> b < a.
Proof. apply js_lt_true. Qed.

Lemma js_gt_false a b : js_gt a b = false <-> a <= b.
Proof. apply js_lt_false. Qed.

Lemma js_ge_true a b : js_ge a b = true <-> b <= a.
Proof. apply js_le_true. Qed.

Lemma js_ge_false a b : js_ge a b = false <-> a < b.
Proof. apply js_le_false. Qed.

Lemma js_eq_true a b : js_eq a b = true <-> a = b.
Proof. unfold js_eq; destruct (Req_dec_T a b); split; intros; (easy || lra). Qed.

Lemma js_eq_false a b : js_eq a b = false <-> a <> b.
Proof. unfold js_eq; destruct (Req_dec_T a b); split; intros; (easy || lra). Qed.

(** Turns boolean comparisons among the hypotheses into their meaning. *)
Ltac js_reflect :=
  repeat match goal with
  | H : js_lt _ _ = true |- _ => apply js_lt_true in H
  | H : js_lt _ _ = false |- _ => apply js_lt_false in H
  | H : js_le _ _ = true |- _ => apply js_le_true in H
  | H : js_le _ _ = false |- _ => apply js_le_false in H
  | H : js_gt _ _ = true |- _ => apply js_gt_true in H
  | H : js_gt _ _ = false |- _ => apply js_gt_false in H
  | H : js_ge _ _ = true |- _ => apply js_ge_true in H
  | H : js_ge _ _ = false |- _ => apply js_ge_false in H
  | H : js_eq _ _ = true |- _ => apply js_eq_true in H
  | H : js_eq _ _ = false |- _ => apply js_eq_false in H
  end.

(** Case analysis on the first comparison of the goal. *)
Ltac js_case :=
  match goal with
  | |- context [js_lt ?a ?b] => destruct (js_lt a b) eqn:?
  | |- context [js_le ?a ?b] => destruct (js_le a b) eqn:?
  | |- context [js_gt ?a ?b] => destruct (js_gt a b) eqn:?
  | |- context [js_ge ?a ?b] => destruct (js_ge a b) eqn:?
  | |- context [js_eq ?a ?b] => destruct (js_eq a b) eqn:?
  end; js_reflect.

Lemma Math_sign_pos x : 0 < x -> Math_sign x = 1.
Proof. intros; unfold Math_sign; repeat js_case; lra. Qed.

Lemma Math_sign_neg x : x < 0 -> Math_sign x = -1.
Proof. intros; unfold Math_sign; repeat js_case; lra. Qed.

(** ** Velocity blending *)

Lemma blendRate_nonneg acc dec current target :
  0 <= acc -> 0 <= dec -> 0 <= blendRate acc dec current target.
Proof. intros; unfold blendRate; destruct (js_gt _ _); assumption. Qed.

Lemma moveTowards_cases acc dec delta current target :
  let rate := blendRate acc dec current target in
  (Rabs (target - current) <= rate * delta
   /\ moveTowards acc dec delta current target = target)
  \/ (rate * delta < Rabs (target - current)
      /\ moveTowards acc dec delta current target
         = current + Math_sign (target - current) * (rate * delta)).
Proof.
  unfold moveTowards, blendRate; cbv zeta.
  destruct (js_le _ _) eqn:E; js_reflect; [left | right]; split; auto.
Qed.

Lemma moveTowards_rateLimited acc dec delta current target :
  0 <= delta -> 0 <= acc -> 0 <= dec ->
  rateLimited (blendRate acc dec current target) delta current target
    (moveTowards acc dec delta current target).
Proof.
  intros Hd Ha Hc.
  pose proof (blendRate_nonneg acc dec current target Ha Hc) as Hr.
  assert (0 <= blendRate acc dec current target * delta) as Hm
    by (apply Rmult_le_pos; assumption).
  destruct (moveTowards_cases acc dec delta current target) as [[Hle ->] | [Hlt ->]].
  - split; [exact Hle | left; reflexivity].
  - split; [| right; split; [exact Hlt | reflexivity]].
    set (m := blendRate acc dec current target * delta) in *.
    destruct (Rtotal_order (target - current) 0) as [Hn | [Hz | Hp]].
    + rewrite (Math_sign_neg _ Hn).
      replace (current + -1 * m - current) with (- m) by ring.
      rewrite Rabs_Ropp, Rabs_right; lra.
    + rewrite Hz, Rabs_R0 in Hlt. lra.
    + rewrite (Math_sign_pos _ Hp).
      replace (current + 1 * m - current) with m by ring.
      rewrite Rabs_right; lra.
Qed.

Lemma tick_body `{ThreeCamera} p delta s body :
  bodyRef s = Some body ->
  bodyRef (fst (tick p delta s))
  = Some (mkBody (translation body)
            (commandedLinvel (overrideRef s) (linvel body)
               (fst (blendedOf p delta s body))
               (snd (blendedOf p delta s body)))).
Proof.
  intros Hb. unfold tick. rewrite Hb.
  destruct (bobStep _ _ _ _ _ _ _) as [bob' steps].
  destruct (touchLook _ _ _ _) as [rot2 input']. reflexivity.
Qed.

(** C2. On every frame with the body present, both horizontal axes are
    blended toward the desired velocity by [moveTowards]: the rate is the
    acceleration when the target is larger in magnitude than the current
    value and the deceleration otherwise, the change of each axis is at
    most [rate * delta], and the blend is what the body is commanded to
    (outside the start delay of an override, which freezes it). *)
Theorem blend_is_asymmetric_rate_limited `{ThreeCamera}
    (p : Props) (delta : R) (s : State) (body : RigidBody) :
  bodyRef s = Some body ->
  0 <= delta -> 0 <= acceleration p -> 0 <= deceleration p ->
  let lin := linvel body in
  let desired := desiredOf p s in
  let rateOf current target :=
    blendRate (acceleration p) (deceleration p) current target in
  let newVX := fst (blendedOf p delta s body) in
  let newVZ := snd (blendedOf p delta s body) in
  (forall current target,
      (Rabs target > Rabs current -> rateOf current target = acceleration p)
      /\ (Rabs target <= Rabs current -> rateOf current target = deceleration p))
  /\ rateLimited (rateOf (vx lin) (fst desired)) delta (vx lin) (fst desired) newVX
  /\ rateLimited (rateOf (vz lin) (snd desired)) delta (vz lin) (snd desired) newVZ
  /\ bodyRef (fst (tick p delta s))
     = Some (mkBody (translation body)
               (commandedLinvel (overrideRef s) lin newVX newVZ))
  /\ (canMove (overrideRef s) = true ->
      commandedLinvel (overrideRef s) lin newVX newVZ
      = vec3 newVX (vy lin) newVZ).
Proof.
  intros Hb Hd Ha Hc; cbv zeta.
  split; [| split; [| split; [| split]]].
  - intros current target; unfold blendRate; split; intros Hcmp.
    + destruct (js_gt _ _) eqn:E; js_reflect; [reflexivity | lra].
    + destruct (js_gt _ _) eqn:E; js_reflect; [lra | reflexivity].
  - apply moveTowards_rateLimited; assumption.
  - apply moveTowards_rateLimited; assumption.
  - apply (tick_body p delta s body Hb).
  - intros Hcm. unfold commandedLinvel.
    destruct (overrideRef s); [rewrite Hcm |]; reflexivity.
Qed.

(** C3. For every [delta >= 0] one blending step does not overshoot: the
    new value lies between the old value and the target, its distance to
    the target is at most the old distance, and the target is reached
    exactly once the gap is within [rate * delta]. *)
Theorem moveTowards_never_overshoots
    (acc dec delta current target : R) :
  0 <= delta -> 0 <= acc -> 0 <= dec ->
  let result := moveTowards acc dec delta current target in
  between current target result
  /\ Rabs (target - result) <= Rabs (target - current)
  /\ (Rabs (target - current) <= blendRate acc dec current target * delta ->
      result = target).
Proof.
  intros Hd Ha Hc; cbv zeta.
  pose proof (blendRate_nonneg acc dec current target Ha Hc) as Hr.
  assert (0 <= blendRate acc dec current target * delta) as Hm
    by (apply Rmult_le_pos; assumption).
  set (m := blendRate acc dec current target * delta) in *.
  destruct (moveTowards_cases acc dec delta current target) as [[Hle ->] | [Hlt ->]];
    fold m; fold m in Hle || fold m in Hlt.
  - split; [| split; [| reflexivity]].
    + unfold between. destruct (Rle_dec current target); [left | right]; lra.
    + replace (target - target) with 0 by ring. rewrite Rabs_R0. apply Rabs_pos.
  - destruct (Rtotal_order (target - current) 0) as [Hn | [Hz | Hp]].
    + rewrite (Math_sign_neg _ Hn).
      rewrite Rabs_left in Hlt by lra.
      split; [| split].
      * right; lra.
      * rewrite !Rabs_left by lra. lra.
      * rewrite Rabs_left by lra. lra.
    + rewrite Hz, Rabs_R0 in Hlt. lra.
    + rewrite (Math_sign_pos _ Hp).
      rewrite Rabs_right in Hlt by lra.
      split; [| split].
      * left; lra.
      * rewrite !Rabs_right by lra. lra.
      * rewrite Rabs_right by lra. lra.
Qed.

(** A run of the blending step at the default rates. *)
Lemma moveTowards_never_overshoots_witness :
  between 0 2 (moveTowards 18 22 0.05 0 2)
  /\ Rabs (2 - moveTowards 18 22 0.05 0 2) <= Rabs (2 - 0)
  /\ (Rabs (2 - 0) <= blendRate 18 22 0 2 * 0.05 ->
      moveTowards 18 22 0.05 0 2 = 2).
Proof. apply (moveTowards_never_overshoots 18 22 0.05 0 2); lra. Defined.

(** ** The remainder operator on non-negative dividends *)

Lemma div_nonneg a b : 0 <= a -> 0 < b -> 0 <= a / b.
Proof.
  intros Ha Hb. unfold Rdiv. apply Rmult_le_pos; [assumption |].
  left. apply Rinv_0_lt_compat. assumption.
Qed.

Lemma js_trunc_nonneg x : 0 <= x -> js_trunc x = Int_part x.
Proof.
  intros Hx; unfold js_trunc.
  destruct (js_ge x 0) eqn:E; js_reflect; [reflexivity | lra].
Qed.

Lemma js_rem_range a b : 0 <= a -> 0 < b -> 0 <= js_rem a b < b.
Proof.
  intros Ha Hb. unfold js_rem.
  assert (Hq : 0 <= a / b) by (apply div_nonneg; assumption).
  rewrite (js_trunc_nonneg _ Hq).
  destruct (base_Int_part (a / b)) as [Hlo Hhi].
  assert (Ea : a = a / b * b) by (field; lra).
  set (q := a / b) in *. set (n := IZR (Int_part q)) in *.
  split; nra.
Qed.

Lemma js_rem_small a b : 0 <= a < b -> js_rem a b = a.
Proof.
  intros [Ha Hab]. unfold js_rem.
  assert (Hq : 0 <= a / b) by (apply div_nonneg; lra).
  rewrite (js_trunc_nonneg _ Hq).
  assert (Hq1 : a / b < 1).
  { apply (Rmult_lt_reg_r b); [lra |].
    replace (a / b * b) with a by (field; lra). lra. }
  rewrite <- (Int_part_spec (a / b) 0%Z); [simpl; ring | simpl; lra].
Qed.

Lemma js_rem_once a b : 0 < b -> b <= a < 2 * b -> js_rem a b = a - b.
Proof.
  intros Hb [Ha Hab]. unfold js_rem.
  assert (Hq : 0 <= a / b) by (apply div_nonneg; lra).
  rewrite (js_trunc_nonneg _ Hq).
  assert (Hq1 : 1 <= a / b < 2).
  { split.
    - apply (Rmult_le_reg_r b); [lra |].
      replace (a / b * b) with a by (field; lra). lra.
    - apply (Rmult_lt_reg_r b); [lra |].
      replace (a / b * b) with a by (field; lra). lra. }
  rewrite <- (Int_part_spec (a / b) 1%Z); [simpl; ring | simpl; lra].
Qed.

Lemma js_rem_shape a b :
  0 <= a -> 0 < b -> exists k : Z, (0 <= k)%Z /\ js_rem a b = a - b * IZR k.
Proof.
  intros Ha Hb. exists (js_trunc (a / b)); split; [| reflexivity].
  assert (Hq : 0 <= a / b) by (apply div_nonneg; assumption).
  rewrite (js_trunc_nonneg _ Hq).
  destruct (base_Int_part (a / b)) as [_ Hhi].
  assert (Hn : IZR (-1) < IZR (Int_part (a / b))) by lra.
  apply lt_IZR in Hn. lia.
Qed.

(** ** The bob phase *)

Lemma phaseAdvances_true i hz :
  phaseAdvances i hz = true <-> (0.001 < i /\ 0.0001 < hz).
Proof.
  unfold phaseAdvances. rewrite andb_true_iff, !js_gt_true. tauto.
Qed.

Lemma bobStep_phase p delta moving newVX newVZ worldDir b :
  let ns := normalizedSpeedOf p newVX newVZ in
  phase (fst (bobStep p delta moving newVX newVZ worldDir b))
  = if bobEnabled p
       && phaseAdvances (nextIntensity p delta ns b) (nextHz p delta ns b)
    then nextPhase delta (nextHz p delta ns b) (phase b)
    else phase b.
Proof.
  cbv zeta. unfold bobStep.
  destruct (bobEnabled p); [| reflexivity].
  destruct (phaseAdvances _ _); reflexivity.
Qed.

Lemma bobStep_steps p delta moving newVX newVZ worldDir b :
  let ns := normalizedSpeedOf p newVX newVZ in
  snd (bobStep p delta moving newVX newVZ worldDir b)
  = if bobEnabled p
       && (phaseAdvances (nextIntensity p delta ns b) (nextHz p delta ns b)
           && onFootstep p)
    then footsteps (phase b) (nextPhase delta (nextHz p delta ns b) (phase b))
    else [].
Proof.
  cbv zeta. unfold bobStep.
  destruct (bobEnabled p); [| reflexivity].
  destruct (phaseAdvances _ _); [| reflexivity].
  destruct (onFootstep p); reflexivity.
Qed.

Lemma two_pi_pos : 0 < PI * 2.
Proof. pose proof PI_RGT_0; lra. Qed.

Lemma advance_nonneg stepHz delta :
  0 <= stepHz -> 0 <= delta -> 0 <= stepHz * 2 * PI * delta.
Proof.
  intros Hs Hd. pose proof PI_RGT_0 as Hpi.
  assert (Hsd : 0 <= stepHz * delta) by (apply Rmult_le_pos; assumption).
  replace (stepHz * 2 * PI * delta) with (stepHz * delta * (2 * PI)) by ring.
  apply Rmult_le_pos; lra.
Qed.

Lemma nextPhase_range delta stepHz prevPhase :
  0 <= delta -> 0 <= stepHz -> 0 <= prevPhase ->
  0 <= nextPhase delta stepHz prevPhase < 2 * PI.
Proof.
  intros Hd Hs Hp. unfold nextPhase.
  replace (2 * PI) with (PI * 2) by ring.
  apply js_rem_range; [| apply two_pi_pos].
  pose proof (advance_nonneg stepHz delta Hs Hd). lra.
Qed.

Lemma tick_bob `{ThreeCamera} p delta s body :
  bodyRef s = Some body ->
  let moving := isMoving (overrideRef s) (input s) in
  let newVX := fst (blendedOf p delta s body) in
  let newVZ := snd (blendedOf p delta s body) in
  bobRef (fst (tick p delta s))
  = fst (bobStep p delta moving newVX newVZ (worldDirOf (camera s)) (bobRef s))
  /\ snd (tick p delta s)
     = snd (bobStep p delta moving newVX newVZ (worldDirOf (camera s)) (bobRef s)).
Proof.
  intros Hb; cbv zeta. unfold tick. rewrite Hb.
  unfold blendedOf, desiredOf; cbn [fst snd].
  destruct (bobStep _ _ _ _ _ _ _) as [bob' steps].
  destruct (touchLook _ _ _ _) as [rot2 input']. split; reflexivity.
Qed.

Lemma tick_phase_range `{ThreeCamera} p delta s :
  0 <= delta ->
  0 <= phase (bobRef s) < 2 * PI ->
  0 <= phase (bobRef (fst (tick p delta s))) < 2 * PI.
Proof.
  intros Hd Hp.
  destruct (bodyRef s) as [body |] eqn:Hb.
  - destruct (tick_bob p delta s body Hb) as [-> _].
    rewrite bobStep_phase.
    destruct (bobEnabled p); [| exact Hp].
    destruct (phaseAdvances _ _) eqn:E; [| exact Hp].
    apply phaseAdvances_true in E.
    apply nextPhase_range; lra.
  - unfold tick. rewrite Hb. exact Hp.
Qed.

Lemma step_phase_range `{ThreeCamera} p s i :
  forwardInTime i ->
  0 <= phase (bobRef s) < 2 * PI ->
  0 <= phase (bobRef (step p s i)) < 2 * PI.
Proof.
  intros Hi Hp. destruct i as [delta | b | e | x y | dx dy | rot]; cbn [step].
  - apply tick_phase_range; assumption.
  - destruct (bodyRef s); exact Hp.
  - destruct e as [d | d]; cbn [handleEvent].
    + exact Hp.
    + unfold teleportHandler. destruct (bodyRef s); exact Hp.
  - exact Hp.
  - exact Hp.
  - destruct (plcEnabled s); exact Hp.
Qed.

Lemma bobStep_phase_cases p delta moving newVX newVZ worldDir (b : Bob) :
  0 <= delta -> 0 <= phase b ->
  let ns := normalizedSpeedOf p newVX newVZ in
  let intensity' := nextIntensity p delta ns b in
  let stepHz := nextHz p delta ns b in
  let b' := fst (bobStep p delta moving newVX newVZ worldDir b) in
  (bobEnabled p = true /\ 0.001 < intensity' /\ 0.0001 < stepHz ->
   phase b' = js_rem (phase b + stepHz * 2 * PI * delta) (PI * 2)
   /\ exists k : Z,
       (0 <= k)%Z
       /\ phase b' = phase b + stepHz * 2 * PI * delta - 2 * PI * IZR k)
  /\ (~ (bobEnabled p = true /\ 0.001 < intensity' /\ 0.0001 < stepHz) ->
      phase b' = phase b).
Proof.
  intros Hd Hp; cbv zeta.
  rewrite bobStep_phase. split.
  - intros (He & Hi & Hz). rewrite He. cbn [andb].
    replace (phaseAdvances _ _) with true
      by (symmetry; apply phaseAdvances_true; split; assumption).
    unfold nextPhase. split; [reflexivity |].
    pose proof PI_RGT_0.
    destruct (js_rem_shape
                (phase b + nextHz p delta (normalizedSpeedOf p newVX newVZ) b
                           * 2 * PI * delta) (PI * 2)) as (k & Hk & Ek).
    + pose proof (advance_nonneg
                    (nextHz p delta (normalizedSpeedOf p newVX newVZ) b) delta).
      lra.
    + apply two_pi_pos.
    + exists k; split; [exact Hk |]. rewrite Ek. ring.
  - intros Hn.
    destruct (bobEnabled p) eqn:He; [| reflexivity]. cbn [andb].
    destruct (phaseAdvances _ _) eqn:E; [| reflexivity].
    apply phaseAdvances_true in E. exfalso; apply Hn. tauto.
Qed.

(** C4. With frames of non-negative [delta], the bob phase stays in
    [[0, 2 PI)] along every run, whatever else happens between frames.  A
    frame advances the phase by [stepHz * 2 PI * delta], wrapped by the
    remainder of [2 PI], exactly when bobbing is enabled and the intensity
    and the cadence of that frame are above [0.001] and [0.0001]; otherwise
    it leaves the phase as it is. *)
Theorem bob_phase_wrap_invariant `{ThreeCamera} (p : Props) :
  (forall (s : State) (l : list Input),
      Forall forwardInTime l ->
      0 <= phase (bobRef s) < 2 * PI ->
      0 <= phase (bobRef (run p s l)) < 2 * PI)
  /\ (forall (delta : R) (s : State) (body : RigidBody),
        bodyRef s = Some body ->
        0 <= delta -> 0 <= phase (bobRef s) ->
        let intensity' := frameIntensity p delta s body in
        let stepHz := frameCadence p delta s body in
        let phase' := phase (bobRef (fst (tick p delta s))) in
        (bobEnabled p = true /\ 0.001 < intensity' /\ 0.0001 < stepHz ->
         phase' = js_rem (phase (bobRef s) + stepHz * 2 * PI * delta) (PI * 2)
         /\ exists k : Z,
             (0 <= k)%Z
             /\ phase'
                = phase (bobRef s) + stepHz * 2 * PI * delta - 2 * PI * IZR k)
        /\ (~ (bobEnabled p = true /\ 0.001 < intensity' /\ 0.0001 < stepHz) ->
            phase' = phase (bobRef s))).
Proof.
  split.
  - intros s l. revert s. unfold run.
    induction l as [| i l IH]; intros s Hall Hp; cbn [fold_left].
    + exact Hp.
    + inversion Hall as [| ? ? Hi Hl]; subst.
      apply IH; [exact Hl |]. apply step_phase_range; assumption.
  - intros delta s body Hb Hd Hp; cbv zeta.
    destruct (tick_bob p delta s body Hb) as [-> _].
    apply bobStep_phase_cases; assumption.
Qed.

(** ** Footsteps *)

Lemma footsteps_right from to :
  In FootRight (footsteps from to) <-> crossed from to 0 = true.
Proof.
  unfold footsteps.
  destruct (crossed from to 0), (crossed from to PI); cbn; split; intros Hin;
    try reflexivity; try discriminate; auto;
    repeat (destruct Hin as [Hin | Hin]; try discriminate); destruct Hin.
Qed.

Lemma footsteps_left from to :
  In FootLeft (footsteps from to) <-> crossed from to PI = true.
Proof.
  unfold footsteps.
  destruct (crossed from to 0), (crossed from to PI); cbn; split; intros Hin;
    try reflexivity; try discriminate; auto;
    repeat (destruct Hin as [Hin | Hin]; try discriminate); destruct Hin.
Qed.

Lemma nextPhase_cases delta stepHz from :
  0 <= from < 2 * PI ->
  0 <= stepHz * 2 * PI * delta < PI ->
  let advance := stepHz * 2 * PI * delta in
  (from + advance < 2 * PI /\ nextPhase delta stepHz from = from + advance)
  \/ (2 * PI <= from + advance
      /\ nextPhase delta stepHz from = from + advance - 2 * PI).
Proof.
  intros Hf Ha; cbv zeta. unfold nextPhase.
  set (advance := stepHz * 2 * PI * delta) in *.
  pose proof PI_RGT_0 as Hpi.
  destruct (Rlt_dec (from + advance) (2 * PI)) as [Hlt | Hge].
  - left; split; [exact Hlt |]. apply js_rem_small. lra.
  - right; split; [lra |].
    rewrite js_rem_once; [ring | lra | lra].
Qed.

Lemma crossed_zero_iff from advance to :
  0 <= from < 2 * PI -> 0 <= advance < PI ->
  (from + advance < 2 * PI /\ to = from + advance)
  \/ (2 * PI <= from + advance /\ to = from + advance - 2 * PI) ->
  crossed from to 0 = true <-> 2 * PI <= from + advance.
Proof.
  intros Hf Ha Hto. pose proof PI_RGT_0 as Hpi. unfold crossed.
  destruct Hto as [[Hlt ->] | [Hge ->]]; repeat js_case; cbn;
    split; intros; try discriminate; try reflexivity; lra.
Qed.

Lemma crossed_pi_iff from advance to :
  0 <= from < 2 * PI -> 0 <= advance < PI ->
  (from + advance < 2 * PI /\ to = from + advance)
  \/ (2 * PI <= from + advance /\ to = from + advance - 2 * PI) ->
  crossed from to PI = true <-> from < PI <= from + advance.
Proof.
  intros Hf Ha Hto. pose proof PI_RGT_0 as Hpi. unfold crossed.
  destruct Hto as [[Hlt ->] | [Hge ->]]; repeat js_case; cbn;
    split; intros; try discriminate; try reflexivity; lra.
Qed.

Lemma bobStep_footsteps
    (p : Props) (delta : R) (moving : bool) (newVX newVZ : R)
    (worldDir : Vector3) (b : Bob) :
  0 <= phase b < 2 * PI -> 0 <= delta ->
  let ns := normalizedSpeedOf p newVX newVZ in
  let intensity' := nextIntensity p delta ns b in
  let stepHz := nextHz p delta ns b in
  let advance := stepHz * 2 * PI * delta in
  advance < PI ->
  let result := bobStep p delta moving newVX newVZ worldDir b in
  let steps := snd result in
  let reporting :=
    bobEnabled p = true /\ onFootstep p = true
    /\ 0.001 < intensity' /\ 0.0001 < stepHz in
  ~ (In FootLeft steps /\ In FootRight steps)
  /\ (In FootRight steps <-> reporting /\ 2 * PI <= phase b + advance)
  /\ (In FootLeft steps <-> reporting /\ phase b < PI <= phase b + advance)
  /\ (In FootRight steps -> phase (fst result) < phase b).
Proof.
  intros Hp Hd; cbv zeta; intros Hadv.
  rewrite bobStep_steps, bobStep_phase; cbv zeta.
  set (ns := normalizedSpeedOf p newVX newVZ) in *.
  set (stepHz := nextHz p delta ns b) in *.
  set (intensity' := nextIntensity p delta ns b) in *.
  pose proof PI_RGT_0 as Hpi.
  destruct (bobEnabled p); cbn [andb];
    [| repeat split; cbn; intros; try tauto; intuition discriminate].
  destruct (phaseAdvances intensity' stepHz) eqn:E; cbn [andb].
  2:{ assert (~ (0.001 < intensity' /\ 0.0001 < stepHz)) as Hn
        by (rewrite <- phaseAdvances_true, E; discriminate).
      repeat split; cbn; intros; tauto. }
  apply phaseAdvances_true in E. destruct E as [Hi Hz].
  destruct (onFootstep p);
    [| repeat split; cbn; intros; try tauto; intuition discriminate].
  assert (Ha : 0 <= stepHz * 2 * PI * delta < PI)
    by (split; [apply advance_nonneg; lra | exact Hadv]).
  pose proof (nextPhase_cases delta stepHz (phase b) Hp Ha) as Hto;
    cbv zeta in Hto.
  pose proof (crossed_zero_iff _ _ _ Hp Ha Hto) as Hzero.
  pose proof (crossed_pi_iff _ _ _ Hp Ha Hto) as Hhalf.
  rewrite footsteps_right, footsteps_left.
  rewrite Hzero, Hhalf.
  split; [lra |]. split; [tauto |]. split; [tauto |].
  intros Hwrap. destruct Hto as [[Hlt _] | [_ ->]]; lra.
Qed.

(** C5. At a normal cadence (the phase advances by less than half a cycle
    in the frame) a frame never reports both feet.  When steps are reported
    at all, the right foot is reported exactly when the phase passes the
    end of the cycle and wraps (so that the new phase is below the previous
    one), and the left foot exactly when it passes [PI]. *)
Theorem footsteps_one_foot_per_frame `{ThreeCamera}
    (p : Props) (delta : R) (s : State) (body : RigidBody) :
  bodyRef s = Some body ->
  0 <= phase (bobRef s) < 2 * PI -> 0 <= delta ->
  let intensity' := frameIntensity p delta s body in
  let stepHz := frameCadence p delta s body in
  let advance := stepHz * 2 * PI * delta in
  advance < PI ->
  let from := phase (bobRef s) in
  let to := phase (bobRef (fst (tick p delta s))) in
  let steps := snd (tick p delta s) in
  let reporting :=
    bobEnabled p = true /\ onFootstep p = true
    /\ 0.001 < intensity' /\ 0.0001 < stepHz in
  ~ (In FootLeft steps /\ In FootRight steps)
  /\ (In FootRight steps <-> reporting /\ 2 * PI <= from + advance)
  /\ (In FootLeft steps <-> reporting /\ from < PI <= from + advance)
  /\ (In FootRight steps -> to < from).
Proof.
  intros Hb Hp Hd; cbv zeta; intros Hadv.
  destruct (tick_bob p delta s body Hb) as [-> ->].
  apply bobStep_footsteps; assumption.
Qed.

(** ** The scripted-move request *)

Lemma Rmax_right_le a b : a <= b -> Rmax a b = b.
Proof. intros; unfold Rmax; destruct (Rle_dec a b); lra. Qed.

Lemma Rmax_left_le a b : b <= a -> Rmax a b = a.
Proof. intros; unfold Rmax; destruct (Rle_dec a b); lra. Qed.

Lemma Rmax_lower a b : a <= Rmax a b.
Proof. unfold Rmax; destruct (Rle_dec a b); lra. Qed.

(** C10. Whatever the request carries, the stored override has a duration
    and a distance of at least [0.05], a delay of at least [0], and a
    speed, the distance over the duration, that is strictly positive. *)
Theorem scripted_move_clamps_request `{ThreeCamera}
    (s : State) (detail : option ScriptedMoveDetail) :
  exists o : Override,
    overrideRef (scriptedMoveHandler s detail) = Some o
    /\ duration o = Rmax 0.05 (nullish (optChain detail durationSec) 1.2)
    /\ timeLeft o = duration o
    /\ 0.05 <= duration o
    /\ ov_speed o
       = Rmax 0.05 (nullish (optChain detail distance) 1.5) / duration o
    /\ 0.05 <= Rmax 0.05 (nullish (optChain detail distance) 1.5)
    /\ 0 < ov_speed o
    /\ moveDelayLeft o = Rmax 0 (nullish (optChain detail moveDelaySec) 0.35)
    /\ 0 <= moveDelayLeft o.
Proof.
  unfold scriptedMoveHandler; cbn [overrideRef].
  eexists; split; [reflexivity |].
  cbn [duration timeLeft ov_speed moveDelayLeft].
  pose proof (Rmax_lower 0.05 (nullish (optChain detail durationSec) 1.2)).
  pose proof (Rmax_lower 0.05 (nullish (optChain detail distance) 1.5)).
  pose proof (Rmax_lower 0 (nullish (optChain detail moveDelaySec) 0.35)).
  repeat split; try reflexivity; try assumption.
  apply Rdiv_lt_0_compat; lra.
Qed.

(** ** The teleport request *)

Lemma tick_free_rotation `{ThreeCamera} p delta s :
  overrideRef s = None ->
  (touchMode (input s) = false
   \/ (look_dx (input s) = 0 /\ look_dy (input s) = 0)) ->
  rotation (camera (fst (tick p delta s))) = rotation (camera s).
Proof.
  intros Ho Hl. unfold tick.
  destruct (bodyRef s) as [body |]; [| reflexivity].
  rewrite Ho. cbn [lookAtStep].
  destruct (bobStep _ _ _ _ _ _ _) as [bob' steps].
  unfold touchLook, isTouchMode, consumeLookDelta.
  destruct Hl as [-> | [-> ->]]; [reflexivity |].
  destruct (touchMode (input s)); [| reflexivity].
  replace (js_eq 0 0) with true by (symmetry; apply js_eq_true; reflexivity).
  reflexivity.
Qed.

Lemma tick_free_override `{ThreeCamera} p delta s :
  overrideRef s = None ->
  overrideRef (fst (tick p delta s)) = None
  /\ plcEnabled (fst (tick p delta s)) = plcEnabled s.
Proof.
  intros Ho. unfold tick.
  destruct (bodyRef s) as [body |]; [| split; [exact Ho | reflexivity]].
  rewrite Ho.
  destruct (bobStep _ _ _ _ _ _ _) as [bob' steps].
  destruct (touchLook _ _ _ _) as [rot2 input']. split; reflexivity.
Qed.

(** C1. A teleport request handled while the body handle is present leaves
    the body at rest at the requested coordinates (its own [y] under
    [keepY]) and no override, so that the next frame finds [canMove] true,
    whatever the state was before; a yaw in the request is the yaw of the
    camera, and still is after the next frame unless touch look input is
    pending. *)
Theorem teleport_resets_controller `{ThreeCamera}
    (s : State) (body : RigidBody) (detail : option TeleportDetail) :
  bodyRef s = Some body ->
  let s' := teleportHandler s detail in
  let t := translation body in
  bodyRef s'
  = Some (mkBody
            (vec3 (nullish (optChain detail d_x) (vx t))
                  (if truthy (optChain detail keepY) then vy t
                   else nullish (optChain detail d_y) (vy t))
                  (nullish (optChain detail d_z) (vz t)))
            (vec3 0 0 0))
  /\ overrideRef s' = None
  /\ modeOf s' = FREE
  /\ canMove (overrideRef s') = true
  /\ plcEnabled s' = true
  /\ (forall X Z : R,
        optChain detail d_x = Some X -> optChain detail d_z = Some Z ->
        optChain detail keepY = Some true ->
        bodyRef s' = Some (mkBody (vec3 X (vy t) Z) (vec3 0 0 0)))
  /\ (forall w : R,
        optChain detail yaw = Some w ->
        rot_y (rotation (camera s')) = w
        /\ forall (p : Props) (delta : R),
            (touchMode (input s) = false
             \/ (look_dx (input s) = 0 /\ look_dy (input s) = 0)) ->
            rot_y (rotation (camera (fst (tick p delta s')))) = w)
  /\ (forall (p : Props) (delta : R),
        overrideRef (fst (tick p delta s')) = None).
Proof.
  intros Hb; cbv zeta.
  assert (Es : teleportHandler s detail
               = mkState
                   (Some (mkBody
                            (vec3 (nullish (optChain detail d_x) (vx (translation body)))
                               (if truthy (optChain detail keepY)
                                then vy (translation body)
                                else nullish (optChain detail d_y) (vy (translation body)))
                               (nullish (optChain detail d_z) (vz (translation body))))
                            (vec3 0 0 0)))
                   None (bobRef s)
                   (mkCamera (position (camera s))
                      match optChain detail yaw with
                      | Some w => mkEuler (rot_x (rotation (camera s))) w
                                    (rot_z (rotation (camera s))) YXZ
                      | None => rotation (camera s)
                      end)
                   true (setMoveAxes 0 0 (input s)))
    by (unfold teleportHandler; rewrite Hb; reflexivity).
  rewrite Es; unfold modeOf;
    cbn [bodyRef overrideRef plcEnabled camera rotation canMove].
  split; [reflexivity |]. split; [reflexivity |]. split; [reflexivity |].
  split; [reflexivity |]. split; [reflexivity |]. split; [| split].
  - intros X Z -> -> ->. reflexivity.
  - intros w Hw. rewrite Hw. split; [reflexivity |].
    intros p delta Hl. rewrite tick_free_rotation.
    + reflexivity.
    + reflexivity.
    + exact Hl.
  - intros p delta. apply tick_free_override. reflexivity.
Qed.

(** C9, as the code has it. A teleport request handled while the body
    handle is absent changes nothing.  A scripted-move request does not
    look at the handle: it leaves body, bob and camera as they are, and
    stores its override, zeroes the movement axes and, when it locks the
    look, disables the pointer-lock controls.  Frames do nothing while the
    handle is absent. *)
Theorem requests_without_body `{ThreeCamera} (s : State) :
  bodyRef s = None ->
  (forall detail, teleportHandler s detail = s)
  /\ (forall detail,
        let s' := scriptedMoveHandler s detail in
        bodyRef s' = None
        /\ bobRef s' = bobRef s
        /\ camera s' = camera s
        /\ (exists o, overrideRef s' = Some o)
        /\ input s' = setMoveAxes 0 0 (input s)
        /\ plcEnabled s'
           = (if nullish (optChain detail d_lockLook) true then false
              else plcEnabled s))
  /\ (forall p delta, tick p delta s = (s, [])).
Proof.
  intros Hb. split; [| split].
  - intros detail. unfold teleportHandler. rewrite Hb. reflexivity.
  - intros detail; cbv zeta. unfold scriptedMoveHandler.
    cbn [bodyRef bobRef camera overrideRef input plcEnabled].
    repeat split; try assumption; try reflexivity. eexists; reflexivity.
  - intros p delta. unfold tick. rewrite Hb. reflexivity.
Qed.

(** C9, as the claim has it, fails: a scripted-move request handled while
    the body handle is absent stores an override. *)
Lemma scripted_move_without_body_is_not_ignored :
  bodyRef unmountedState = None
  /\ @handleEvent exampleCamera unmountedState (ScriptedMoveEvent None)
     <> unmountedState.
Proof.
  split; [reflexivity |].
  intros E. apply (f_equal overrideRef) in E.
  unfold handleEvent, scriptedMoveHandler in E. cbn [overrideRef] in E.
  discriminate E.
Qed.

(** ** The timers of an override along a run *)

Lemma tick_override `{ThreeCamera} p delta s body :
  bodyRef s = Some body ->
  let override' :=
    match overrideRef s with
    | Some o => advanceOverride delta o
    | None => None
    end in
  overrideRef (fst (tick p delta s)) = override'
  /\ plcEnabled (fst (tick p delta s))
     = match overrideRef s, override' with
       | Some _, None => true
       | _, _ => plcEnabled s
       end.
Proof.
  intros Hb; cbv zeta. unfold tick. rewrite Hb.
  destruct (bobStep _ _ _ _ _ _ _) as [bob' steps].
  destruct (touchLook _ _ _ _) as [rot2 input']. split; reflexivity.
Qed.

Lemma advanceOverride_cases delta o :
  0 <= delta -> 0 <= moveDelayLeft o ->
  (timeLeft o <= delta /\ advanceOverride delta o = None)
  \/ (delta < timeLeft o
      /\ exists o', advanceOverride delta o = Some o' /\ progressed o delta o').
Proof.
  intros Hd Hm. unfold advanceOverride.
  destruct (js_le (timeLeft o - delta) 0) eqn:E; js_reflect.
  - left; split; [lra | reflexivity].
  - right; split; [lra |]. eexists; split; [reflexivity |].
    unfold progressed; cbn. repeat split; try reflexivity.
    destruct (js_gt (moveDelayLeft o) 0) eqn:G; js_reflect; [reflexivity |].
    assert (moveDelayLeft o = 0) as -> by lra.
    unfold Rmax. destruct (Rle_dec 0 (0 - delta)); lra.
Qed.

Lemma progressed_nonneg_delay o e o1 :
  progressed o e o1 -> 0 <= moveDelayLeft o1.
Proof. intros (_ & -> & _). apply Rmax_lower. Qed.

Lemma progressed_trans o a o1 b o2 :
  0 <= a -> 0 <= b ->
  progressed o a o1 -> progressed o1 b o2 -> progressed o (a + b) o2.
Proof.
  intros Ha Hb (T1 & M1 & D1 & S1 & R1 & L1 & A1 & K1)
         (T2 & M2 & D2 & S2 & R2 & L2 & A2 & K2).
  unfold progressed. repeat split; try congruence.
  - rewrite T2, T1. ring.
  - rewrite M2, M1.
    destruct (Rle_dec 0 (moveDelayLeft o - a)) as [Hle | Hgt].
    + rewrite (Rmax_right_le 0 (moveDelayLeft o - a)) by exact Hle.
      f_equal. ring.
    + rewrite (Rmax_left_le 0 (moveDelayLeft o - a)) by lra.
      rewrite !Rmax_left_le by lra. reflexivity.
Qed.

Lemma elapsed_nonneg l : Forall quietInput l -> 0 <= elapsed l.
Proof.
  induction 1 as [| i l Hi _ IH]; cbn; [lra |].
  destruct i; cbn in *; lra.
Qed.

Lemma step_quiet_body `{ThreeCamera} p s i body :
  quietInput i -> bodyRef s = Some body ->
  exists body', bodyRef (step p s i) = Some body'.
Proof.
  intros Hi Hb. destruct i as [delta | b | e | x y | dx dy | rot]; cbn [step].
  - rewrite (tick_body p delta s body Hb). eexists; reflexivity.
  - rewrite Hb. eexists; reflexivity.
  - destruct Hi.
  - exists body; exact Hb.
  - exists body; exact Hb.
  - destruct (plcEnabled s); exists body; exact Hb.
Qed.

Lemma step_quiet_other `{ThreeCamera} p s i :
  quietInput i -> (forall delta, i <> Frame delta) ->
  overrideRef (step p s i) = overrideRef s
  /\ plcEnabled (step p s i) = plcEnabled s.
Proof.
  intros Hi Hn. destruct i as [delta | b | e | x y | dx dy | rot]; cbn [step].
  - exfalso; apply (Hn delta); reflexivity.
  - destruct (bodyRef s); split; reflexivity.
  - destruct Hi.
  - split; reflexivity.
  - split; reflexivity.
  - destruct (plcEnabled s) eqn:E; split; cbn; congruence.
Qed.

Lemma run_cons `{ThreeCamera} p s i l : run p s (i :: l) = run p (step p s i) l.
Proof. reflexivity. Qed.

Lemma run_free `{ThreeCamera} p l : forall s body,
  Forall quietInput l ->
  bodyRef s = Some body -> overrideRef s = None ->
  overrideRef (run p s l) = None
  /\ plcEnabled (run p s l) = plcEnabled s
  /\ exists body', bodyRef (run p s l) = Some body'.
Proof.
  induction l as [| i l IH]; intros s body Hall Hb Ho.
  - cbn. repeat split; try assumption. exists body; exact Hb.
  - inversion Hall as [| ? ? Hi Hl]; subst. rewrite run_cons.
    destruct (step_quiet_body p s i body Hi Hb) as [body' Hb'].
    assert (overrideRef (step p s i) = None
            /\ plcEnabled (step p s i) = plcEnabled s) as [Ho' Hp'].
    { destruct i as [delta | b | e | x y | dx dy | rot];
        try (destruct (step_quiet_other p s _ Hi) as (-> & ->);
             [discriminate | split; [exact Ho | reflexivity]]).
      cbn [step]. apply tick_free_override; exact Ho. }
    destruct (IH _ body' Hl Hb' Ho') as (E1 & E2 & E3).
    repeat split; [exact E1 | congruence | exact E3].
Qed.

Lemma run_override `{ThreeCamera} p l : forall s body o,
  Forall quietInput l ->
  bodyRef s = Some body -> overrideRef s = Some o ->
  0 < timeLeft o -> 0 <= moveDelayLeft o ->
  (exists body', bodyRef (run p s l) = Some body')
  /\ (elapsed l < timeLeft o ->
      exists o1, overrideRef (run p s l) = Some o1
                 /\ progressed o (elapsed l) o1
                 /\ plcEnabled (run p s l) = plcEnabled s)
  /\ (timeLeft o <= elapsed l ->
      overrideRef (run p s l) = None /\ plcEnabled (run p s l) = true).
Proof.
  induction l as [| i l IH]; intros s body o Hall Hb Ho Ht Hm.
  - cbn [run fold_left elapsed]. split; [exists body; exact Hb |]. split.
    + intros _. exists o. split; [exact Ho |]. split; [| reflexivity].
      unfold progressed. repeat split; try reflexivity; try ring.
      rewrite Rmax_right_le; lra.
    + intros Hle. lra.
  - inversion Hall as [| ? ? Hi Hl]; subst. rewrite run_cons.
    pose proof (elapsed_nonneg l Hl) as He.
    destruct (step_quiet_body p s i body Hi Hb) as [body' Hb'].
    destruct i as [delta | b | e | x y | dx dy | rot];
      try (destruct (step_quiet_other p s _ Hi) as (Eo & Ep);
           [discriminate |];
           rewrite Ho in Eo;
           destruct (IH _ body' o Hl Hb' Eo Ht Hm) as (I1 & I2 & I3);
           cbn [elapsed]; rewrite Ep in I2;
           split; [exact I1 | split; [exact I2 | exact I3]]).
    + cbn [quietInput] in Hi. cbn [elapsed].
      destruct (tick_override p delta s body Hb) as [Eo Ep]; cbv zeta in Eo, Ep.
      rewrite Ho in Eo, Ep. cbn [step] in *.
      destruct (advanceOverride_cases delta o Hi Hm)
        as [[Hle Hnone] | [Hlt (o' & Hsome & Hprog)]].
      * rewrite Hnone in Eo, Ep.
        destruct (run_free p l _ body' Hl Hb' Eo) as (F1 & F2 & F3).
        split; [exact F3 |]. split; [intros; lra |].
        intros _. split; [exact F1 | congruence].
      * rewrite Hsome in Eo, Ep.
        pose proof (progressed_nonneg_delay _ _ _ Hprog) as Hm'.
        assert (Ht' : 0 < timeLeft o') by (destruct Hprog as (-> & _); lra).
        destruct (IH _ body' o' Hl Hb' Eo Ht' Hm') as (I1 & I2 & I3).
        assert (Et : timeLeft o' = timeLeft o - delta) by (apply Hprog).
        split; [exact I1 |]. split.
        -- intros Hlt'. destruct I2 as (o1 & E1 & P1 & Q1); [lra |].
           exists o1. split; [exact E1 |]. split.
           ++ apply (progressed_trans o delta o' (elapsed l) o1); assumption.
           ++ congruence.
        -- intros Hle'. apply I3. lra.
Qed.

(** ** Unit vectors *)

Lemma vec3_ext a b c a' b' c' :
  a = a' -> b = b' -> c = c' -> vec3 a b c = vec3 a' b' c'.
Proof. intros; subst; reflexivity. Qed.

Lemma v_add_zero_l v : v_add v_zero v = v.
Proof. destruct v; unfold v_add, v_zero; cbn; f_equal; ring. Qed.

Lemma v_normalize_unit v :
  0 < v_lengthSq v ->
  v_lengthSq (v_normalize v) = 1 /\ (vy v = 0 -> vy (v_normalize v) = 0).
Proof.
  intros Hpos. unfold v_normalize, v_length.
  pose proof (sqrt_lt_R0 _ Hpos) as Hl.
  assert (Hl2 : sqrt (v_lengthSq v) * sqrt (v_lengthSq v) = v_lengthSq v)
    by (apply sqrt_sqrt; lra).
  set (len := sqrt (v_lengthSq v)) in *.
  destruct (js_eq len 0) eqn:E; js_reflect; [lra |].
  split.
  - unfold v_lengthSq, v_multiplyScalar in *; cbn [vx vy vz].
    replace (vx v * (1 / len) * (vx v * (1 / len))
             + vy v * (1 / len) * (vy v * (1 / len))
             + vz v * (1 / len) * (vz v * (1 / len)))
      with ((vx v * vx v + vy v * vy v + vz v * vz v) * (1 / len * (1 / len)))
      by ring.
    rewrite <- Hl2. field. exact E.
  - intros Hy. unfold v_multiplyScalar; cbn [vy]. rewrite Hy. ring.
Qed.

Lemma v_normalize_of_unit v : v_lengthSq v = 1 -> v_normalize v = v.
Proof.
  intros Hu. unfold v_normalize, v_length. rewrite Hu, sqrt_1.
  destruct (js_eq 1 0) eqn:E; js_reflect; [lra |].
  destruct v; unfold v_multiplyScalar; cbn; f_equal; field.
Qed.

Lemma captureForward_unit `{ThreeCamera} c :
  v_lengthSq (captureForward c) = 1 /\ vy (captureForward c) = 0.
Proof.
  unfold captureForward; cbv zeta.
  destruct (js_lt _ _) eqn:E; js_reflect.
  - assert (Hone : v_lengthSq (vec3 0 0 (-1)) = 1)
      by (unfold v_lengthSq; cbn; ring).
    rewrite (v_normalize_of_unit _ Hone). split; [exact Hone | reflexivity].
  - destruct (v_normalize_unit (v_flatten (getWorldDirection (rotation c))))
      as [Hu Hy]; [lra |].
    split; [exact Hu | apply Hy; reflexivity].
Qed.

Lemma captureForward_value `{ThreeCamera} c :
  let view := v_flatten (getWorldDirection (rotation c)) in
  (1e-6 <= v_lengthSq view ->
   captureForward c
   = vec3 (vx view / v_length view) 0 (vz view / v_length view))
  /\ (v_lengthSq view < 1e-6 -> captureForward c = vec3 0 0 (-1)).
Proof.
  cbv zeta. unfold captureForward; cbv zeta.
  set (view := v_flatten (getWorldDirection (rotation c))).
  split; intros Hv.
  - replace (js_lt (v_lengthSq view) 1e-6) with false
      by (symmetry; apply js_lt_false; exact Hv).
    assert (Hpos : 0 < v_lengthSq view) by lra.
    pose proof (sqrt_lt_R0 _ Hpos) as Hl.
    unfold v_normalize, v_length.
    set (len := sqrt (v_lengthSq view)) in *.
    destruct (js_eq len 0) eqn:E; js_reflect; [lra |].
    unfold v_multiplyScalar, view, v_flatten; cbn [vx vy vz].
    clearbody len. apply vec3_ext; field; exact E.
  - replace (js_lt (v_lengthSq view) 1e-6) with true
      by (symmetry; apply js_lt_true; exact Hv).
    apply v_normalize_of_unit. unfold v_lengthSq; cbn [vx vy vz]. ring.
Qed.

Lemma hypot_scaled_unit a b s :
  a * a + b * b = 1 -> 0 <= s -> Math_hypot (a * s) (b * s) = s.
Proof.
  intros Hu Hs. unfold Math_hypot.
  replace (a * s * (a * s) + b * s * (b * s)) with ((a * a + b * b) * (s * s))
    by ring.
  rewrite Hu, Rmult_1_l. apply sqrt_square. exact Hs.
Qed.

(** ** The two phases of an override *)

Lemma delay_phase `{ThreeCamera} p s o :
  overrideRef s = Some o -> 0 < moveDelayLeft o ->
  canMove (overrideRef s) = false /\ desiredOf p s = (0, 0).
Proof.
  intros Ho Hm.
  assert (Hc : canMove (overrideRef s) = false)
    by (rewrite Ho; cbn; apply js_le_false; exact Hm).
  split; [exact Hc |].
  unfold desiredOf, desiredVelocity, isMoving.
  rewrite Ho in *. rewrite Hc. reflexivity.
Qed.

Lemma delay_frame `{ThreeCamera} p delta s body o target :
  bodyRef s = Some body -> overrideRef s = Some o ->
  0 < moveDelayLeft o -> 0 <= delta ->
  let s' := fst (tick p delta s) in
  (exists body', bodyRef s' = Some body'
                 /\ vx (linvel body') = 0 /\ vz (linvel body') = 0)
  /\ (delta < timeLeft o -> lockLook o = true -> lookAt o = Some target ->
      rotation (camera s')
      = slerpLookAt (position (camera s)) (rotation (camera s)) target upVec
          (Rmin 1 (Rmax 0 (nullish (lookSlerp o) 6 * delta)))).
Proof.
  intros Hb Ho Hm Hd; cbv zeta.
  assert (Hc : canMove (Some o) = false)
    by (cbn; apply js_le_false; exact Hm).
  split.
  - rewrite (tick_body p delta s body Hb). eexists; split; [reflexivity |].
    rewrite Ho. unfold commandedLinvel. rewrite Hc. split; reflexivity.
  - intros Ht Hl Ha.
    destruct (advanceOverride_cases delta o Hd (Rlt_le _ _ Hm))
      as [[Hle _] | [_ (o' & Hsome & _)]]; [lra |].
    unfold tick. rewrite Hb, Ho, Hsome.
    destruct (bobStep _ _ _ _ _ _ _) as [bob' steps].
    cbn [touchLook fst camera rotation].
    unfold lookAtStep. rewrite Ha, Hl, Hc. reflexivity.
Qed.

Lemma moving_phase `{ThreeCamera} p s o :
  overrideRef s = Some o -> moveDelayLeft o <= 0 ->
  v_lengthSq (dir o) = 1 -> vy (dir o) = 0 -> 0 <= ov_speed o ->
  canMove (overrideRef s) = true
  /\ desiredOf p s = (vx (dir o) * ov_speed o, vz (dir o) * ov_speed o)
  /\ Math_hypot (fst (desiredOf p s)) (snd (desiredOf p s)) = ov_speed o
  /\ forall delta, lookAtStep (overrideRef s) (camera s) delta
                   = rotation (camera s).
Proof.
  intros Ho Hm Hu Hy Hs.
  assert (Hc : canMove (Some o) = true) by (cbn; apply js_le_true; exact Hm).
  assert (Hdes : desiredOf p s
                 = (vx (dir o) * ov_speed o, vz (dir o) * ov_speed o)).
  { unfold desiredOf, desiredVelocity, isMoving, moveDir.
    rewrite Ho, Hc, v_add_zero_l, Hu.
    replace (js_gt 1 0) with true by (symmetry; apply js_gt_true; lra).
    cbn [andb]. rewrite (v_normalize_of_unit _ Hu). reflexivity. }
  rewrite Ho, Hdes. cbn [fst snd]. repeat split.
  - exact Hc.
  - apply hypot_scaled_unit; [| exact Hs].
    unfold v_lengthSq in Hu. rewrite Hy in Hu. lra.
  - intros delta. unfold lookAtStep. rewrite Hc.
    destruct (lookAt o); [rewrite andb_false_r |]; reflexivity.
Qed.

Lemma doorWalk_override `{ThreeCamera} s :
  overrideRef (scriptedMoveHandler s (Some doorWalkDetail))
  = Some (mkOverride 2.2 2.2 (2.4 / 2.2) (captureForward (camera s)) true
            (Some (vec3 5 0 0)) (Some 2.5) 0.35).
Proof.
  unfold scriptedMoveHandler, doorWalkDetail; cbn.
  rewrite !Rmax_right_le by lra. reflexivity.
Qed.

(** C6. The door-opening walk.  After the request
    [durationSec = 2.2, distance = 2.4, lockLook, lookAt = (5, 0, 0),
    lookSlerp = 2.5, moveDelaySec = 0.35], along any run of frames with the
    body present and no further request, and with [e] the frame time
    elapsed:
    - while [e < 0.35], [canMove] is false, the desired velocity is zero,
      the next frame commands a zero horizontal velocity and slerps the
      camera toward [(5, 0, 0)] by [min(1, max(0, 2.5 * delta))];
    - while [0.35 <= e < 2.2], [canMove] is true, the desired velocity has
      the length [2.4 / 2.2] and points along the view direction the camera
      had when the request arrived, flattened and normalised (along [-Z]
      when that view was vertical, its flattened square length below
      [1e-6]), whatever the camera has turned to since, the camera is no
      longer slerped, and a frame commands the blend toward that velocity;
    - once [2.2 <= e], the override is gone and the pointer-lock controls,
      disabled until then, are enabled again. *)
Theorem door_walk_scenario `{ThreeCamera}
    (p : Props) (s : State) (body : RigidBody) (l : list Input) :
  bodyRef s = Some body ->
  Forall quietInput l ->
  let s0 := scriptedMoveHandler s (Some doorWalkDetail) in
  let s1 := run p s0 l in
  let e := elapsed l in
  let view := v_flatten (getWorldDirection (rotation (camera s))) in
  (e < 0.35 ->
   modeOf s1 = OVERRIDE_DELAY
   /\ plcEnabled s1 = false
   /\ canMove (overrideRef s1) = false
   /\ desiredOf p s1 = (0, 0)
   /\ forall delta, 0 <= delta ->
        let s2 := fst (tick p delta s1) in
        (exists body2, bodyRef s2 = Some body2
                       /\ vx (linvel body2) = 0 /\ vz (linvel body2) = 0)
        /\ (e + delta < 2.2 ->
            rotation (camera s2)
            = slerpLookAt (position (camera s1)) (rotation (camera s1))
                (vec3 5 0 0) upVec (Rmin 1 (Rmax 0 (2.5 * delta)))))
  /\ (0.35 <= e < 2.2 ->
      modeOf s1 = OVERRIDE_MOVING
      /\ plcEnabled s1 = false
      /\ canMove (overrideRef s1) = true
      /\ (1e-6 <= v_lengthSq view ->
          desiredOf p s1
          = (vx view / v_length view * (2.4 / 2.2),
             vz view / v_length view * (2.4 / 2.2)))
      /\ (v_lengthSq view < 1e-6 -> desiredOf p s1 = (0, - (2.4 / 2.2)))
      /\ Math_hypot (fst (desiredOf p s1)) (snd (desiredOf p s1)) = 2.4 / 2.2
      /\ (forall delta,
            lookAtStep (overrideRef s1) (camera s1) delta = rotation (camera s1))
      /\ forall body1 delta,
           bodyRef s1 = Some body1 ->
           bodyRef (fst (tick p delta s1))
           = Some (mkBody (translation body1)
                     (vec3 (fst (blendedOf p delta s1 body1))
                           (vy (linvel body1))
                           (snd (blendedOf p delta s1 body1)))))
  /\ (2.2 <= e ->
      modeOf s1 = FREE
      /\ overrideRef s1 = None
      /\ canMove (overrideRef s1) = true
      /\ plcEnabled s1 = true).
Proof.
  intros Hb Hall; cbv zeta.
  set (s0 := scriptedMoveHandler s (Some doorWalkDetail)).
  set (o0 := mkOverride 2.2 2.2 (2.4 / 2.2) (captureForward (camera s)) true
               (Some (vec3 5 0 0)) (Some 2.5) 0.35).
  assert (Ho0 : overrideRef s0 = Some o0) by apply doorWalk_override.
  assert (Hb0 : bodyRef s0 = Some body) by exact Hb.
  destruct (run_override p l s0 body o0 Hall Hb0 Ho0) as ([body1 Hb1] & Hin & Hout);
    [cbn; lra | cbn; lra |].
  cbn [timeLeft o0] in Hin, Hout.
  destruct (captureForward_unit (camera s)) as [Hu Hy].
  split; [| split].
  - intros He. destruct Hin as (o1 & Ho1 & Hp & Hplc); [lra |].
    destruct Hp as (T1 & M1 & _ & _ & _ & L1 & A1 & K1); cbn in T1, M1, L1, A1, K1.
    assert (Hm : 0 < moveDelayLeft o1)
      by (rewrite M1, Rmax_right_le; lra).
    destruct (delay_phase p _ o1 Ho1 Hm) as [Hc Hdes].
    split; [unfold modeOf; rewrite Hc, Ho1; reflexivity |].
    split; [exact Hplc |].
    split; [exact Hc |]. split; [exact Hdes |].
    intros delta Hd; cbv zeta.
    destruct (delay_frame p delta _ body1 o1 (vec3 5 0 0) Hb1 Ho1 Hm Hd)
      as [Hvel Hrot].
    split; [exact Hvel |].
    intros Hlt. rewrite Hrot; [rewrite K1; reflexivity | lra | exact L1 | exact A1].
  - intros [He1 He2]. destruct Hin as (o1 & Ho1 & Hp & Hplc); [lra |].
    destruct Hp as (_ & M1 & _ & S1 & R1 & _); cbn in M1, S1, R1.
    assert (Hm : moveDelayLeft o1 <= 0)
      by (rewrite M1, Rmax_left_le; lra).
    destruct (moving_phase p _ o1 Ho1 Hm) as (Hc & Hdes & Hlen & Hlook).
    + rewrite R1; exact Hu.
    + rewrite R1; exact Hy.
    + rewrite S1; lra.
    + rewrite S1, R1 in *.
      destruct (captureForward_value (camera s)) as [Hview Hvert];
        cbv zeta in Hview, Hvert.
      split; [unfold modeOf; rewrite Hc, Ho1; reflexivity |].
      split; [exact Hplc |].
      split; [exact Hc |].
      split; [intros Hv; rewrite Hdes, (Hview Hv); reflexivity |].
      split; [intros Hv; rewrite Hdes, (Hvert Hv); cbn [vx vz];
              f_equal; lra |].
      split; [exact Hlen |]. split; [exact Hlook |].
      intros body2 delta Hb2.
      rewrite (tick_body p delta _ body2 Hb2).
      unfold commandedLinvel. rewrite Ho1.
      replace (canMove (Some o1)) with true by (rewrite <- Ho1; congruence).
      reflexivity.
  - intros He. destruct Hout as [Hnone Hplc]; [lra |].
    unfold modeOf. rewrite Hnone. repeat split; assumption.
Qed.

(** ** Matrices *)

Lemma mat4_ext a0 a1 a2 a3 a4 a5 a6 a7 a8 a9 a10 a11 a12 a13 a14 a15
    b0 b1 b2 b3 b4 b5 b6 b7 b8 b9 b10 b11 b12 b13 b14 b15 :
  a0 = b0 -> a1 = b1 -> a2 = b2 -> a3 = b3 -> a4 = b4 -> a5 = b5 ->
  a6 = b6 -> a7 = b7 -> a8 = b8 -> a9 = b9 -> a10 = b10 -> a11 = b11 ->
  a12 = b12 -> a13 = b13 -> a14 = b14 -> a15 = b15 ->
  mat4 a0 a1 a2 a3 a4 a5 a6 a7 a8 a9 a10 a11 a12 a13 a14 a15 =
  mat4 b0 b1 b2 b3 b4 b5 b6 b7 b8 b9 b10 b11 b12 b13 b14 b15.
Proof. intros; subst; reflexivity. Qed.

(** [m_invert] is the inverse wherever the determinant is not [0]. *)
Lemma m_invert_left (m : Matrix4) :
  m_determinant m <> 0 -> m_multiply (m_invert m) m = m_translation 0 0 0.
Proof.
  intros Hd. unfold m_invert, js_eq.
  destruct (Req_dec_T (m_determinant m) 0) as [E | _]; [contradiction |].
  assert (Hinv : m_determinant m * (1 / m_determinant m) = 1)
    by (generalize dependent (m_determinant m); intros; field; assumption).
  revert Hinv. generalize (1 / m_determinant m). intros dI Hinv.
  destruct m as [a0 a1 a2 a3 a4 a5 a6 a7 a8 a9 a10 a11 a12 a13 a14 a15].
  unfold m_multiply, m_translation, m_determinant, det3 in *.
  cbn [e0 e1 e2 e3 e4 e5 e6 e7 e8 e9 e10 e11 e12 e13 e14 e15] in *.
  apply mat4_ext.
  all: try (rewrite <- Hinv; ring).
  all: try (replace 0 with (0 * dI) by ring; ring).
Qed.

Lemma m_invert_translation x y z :
  m_invert (m_translation x y z) = m_translation (- x) (- y) (- z).
Proof.
  unfold m_invert.
  assert (Hd : m_determinant (m_translation x y z) = 1)
    by (unfold m_determinant, det3, m_translation; cbn; ring).
  rewrite Hd.
  destruct (js_eq 1 0) eqn:E; js_reflect; [lra |].
  unfold m_translation, det3;
    cbn [e0 e1 e2 e3 e4 e5 e6 e7 e8 e9 e10 e11 e12 e13 e14 e15].
  apply mat4_ext; field.
Qed.

Lemma v_applyMatrix4_translation v x y z :
  v_applyMatrix4 v (m_translation x y z)
  = vec3 (vx v + x) (vy v + y) (vz v + z).
Proof.
  unfold v_applyMatrix4, m_translation;
    cbn [e0 e1 e2 e3 e4 e5 e6 e7 e8 e9 e10 e11 e12 e13 e14 e15].
  f_equal; field.
Qed.

(** ** The door portal *)

Lemma portalTargetWorld_spec doorEnd doorStart playerWorld :
  portalTargetWorld doorEnd doorStart playerWorld
  = spec_mapThroughAnchors (matrixWorld doorEnd) (matrixWorld doorStart)
      playerWorld.
Proof. reflexivity. Qed.

Lemma Math_hypot_nonneg a b : 0 <= Math_hypot a b.
Proof. unfold Math_hypot. apply sqrt_pos. Qed.

Lemma Math_atan2_zero : Math_atan2 0 0 = 0.
Proof.
  unfold Math_atan2. repeat js_case; lra || reflexivity.
Qed.

Lemma Math_atan2_on_x_axis y : 0 < y -> Math_atan2 y 0 = PI / 2.
Proof.
  intros Hy. unfold Math_atan2. repeat js_case; lra || reflexivity.
Qed.

Lemma v_normalize_along_x d :
  0 <= d ->
  v_normalize (vec3 d 0 0) = if js_gt d 0 then vec3 1 0 0 else vec3 0 0 0.
Proof.
  intros Hd. unfold v_normalize, v_length, v_lengthSq; cbn [vx vy vz].
  replace (d * d + 0 * 0 + 0 * 0) with (d * d) by ring.
  rewrite (sqrt_square d Hd).
  destruct (js_eq d 0) eqn:E, (js_gt d 0) eqn:G; js_reflect; try lra.
  - subst d. unfold v_multiplyScalar; cbn. f_equal; field.
  - unfold v_multiplyScalar; cbn [vx vy vz]. f_equal; field; exact E.
Qed.

Lemma portalLookDir_value doorEnd doorStart playerWorld :
  portalLookDir doorEnd doorStart playerWorld
  = if js_gt (distanceOfPlayerFromDoorEnd doorEnd playerWorld) 0
    then vec3 1 0 0 else vec3 0 0 0.
Proof.
  unfold portalLookDir; cbv zeta.
  set (d := distanceOfPlayerFromDoorEnd doorEnd playerWorld).
  assert (Hd : 0 <= d) by apply Math_hypot_nonneg.
  rewrite <- (v_normalize_along_x d Hd). f_equal.
  unfold v_flatten, v_sub; cbn [vx vy vz]. f_equal; ring.
Qed.

Lemma portalYaw_value doorEnd doorStart playerWorld :
  portalYaw doorEnd doorStart playerWorld
  = if js_gt (distanceOfPlayerFromDoorEnd doorEnd playerWorld) 0
    then PI / 2 else 0.
Proof.
  unfold portalYaw; cbv zeta. rewrite portalLookDir_value.
  destruct (js_gt _ _); cbn [vx vz].
  - apply Math_atan2_on_x_axis; lra.
  - apply Math_atan2_zero.
Qed.

Lemma spec_facingYaw_value destination d :
  0 <= d -> spec_facingYaw destination d = if js_gt d 0 then PI / 2 else 0.
Proof.
  intros Hd. unfold spec_facingYaw, v_sub; cbn [vx vy vz].
  replace (vx destination - (vx destination - d)) with d by ring.
  replace (vz destination - (vz destination - 0)) with 0 by ring.
  destruct (js_gt d 0) eqn:G; js_reflect.
  - apply Math_atan2_on_x_axis; exact G.
  - assert (d = 0) as -> by lra. apply Math_atan2_zero.
Qed.

(** What the interact key does at the portal, within reach of [DoorEnd]:
    the effects of the door code, and the controller after them. *)
Lemma interactAtDoorEnd_result `{ThreeCamera} s d body doorEnd doorStart :
  bodyRef s = Some body ->
  doorEndRef d = Some doorEnd -> doorStartRef d = Some doorStart ->
  v_distanceTo (getWorldPosition doorEnd) (position (camera s)) <= 1 ->
  let cam := position (camera s) in
  let detail := portalTeleportDetail doorEnd doorStart cam in
  let target := portalTargetWorld doorEnd doorStart cam in
  let r := interactAtDoorEnd s d in
  snd r = true
  /\ bodyRef (fst (fst r))
     = Some (mkBody (vec3 (vx target + 0.8) (vy (translation body)) (vz target))
               (vec3 0 0 0))
  /\ rotation (camera (fst (fst r)))
     = mkEuler (rot_x (rotation (camera s)))
         (portalYaw doorEnd doorStart cam)
         (rot_z (rotation (camera s))) YXZ.
Proof.
  intros Hb He Hs Hdist; cbv zeta.
  unfold interactAtDoorEnd, tryDoorEndTeleport. rewrite He, Hs.
  replace (js_gt (v_distanceTo (getWorldPosition doorEnd) (position (camera s))) 1.0)
    with false by (symmetry; apply js_gt_false; lra).
  replace (js_gt (v_distanceTo (getWorldPosition doorEnd) (position (camera s))) 1)
    with false by (symmetry; apply js_gt_false; lra).
  unfold openStartDoor. rewrite Hs.
  cbn [app deliver fold_left handleEvent fst snd].
  unfold scriptedMoveHandler; cbn [bodyRef camera rotation].
  unfold teleportHandler. rewrite Hb.
  cbn [bodyRef camera rotation optChain nullish truthy portalTeleportDetail
       d_x d_y d_z keepY yaw].
  repeat split.
Qed.

(** C7, as the code has it. Within reach of [DoorEnd] the interact key
    teleports.  The target is the camera position expressed in the frame
    of [DoorEnd], its vertical axis zeroed, re-expressed in the world frame
    of [DoorStart]; the body lands [0.8] further along X than that point,
    at the same Z, and keeps its own Y. *)
Theorem portal_lands_beside_mapped_point `{ThreeCamera}
    (s : State) (d : DoorRefs) (body : RigidBody)
    (doorEnd doorStart : Object3D) :
  bodyRef s = Some body ->
  doorEndRef d = Some doorEnd -> doorStartRef d = Some doorStart ->
  v_distanceTo (getWorldPosition doorEnd) (position (camera s)) <= 1 ->
  let cam := position (camera s) in
  let target :=
    spec_mapThroughAnchors (matrixWorld doorEnd) (matrixWorld doorStart) cam in
  let r := interactAtDoorEnd s d in
  snd r = true
  /\ portalTargetWorld doorEnd doorStart cam = target
  /\ bodyRef (fst (fst r))
     = Some (mkBody (vec3 (vx target + 0.8) (vy (translation body)) (vz target))
               (vec3 0 0 0)).
Proof.
  intros Hb He Hs Hdist; cbv zeta.
  destruct (interactAtDoorEnd_result s d body doorEnd doorStart Hb He Hs Hdist)
    as (Hdone & Hbody & _).
  split; [exact Hdone |]. split; [apply portalTargetWorld_spec |].
  rewrite <- portalTargetWorld_spec. exact Hbody.
Qed.

Lemma v_distanceTo_self v : v_distanceTo v v = 0.
Proof.
  unfold v_distanceTo, v_length, v_lengthSq, v_sub; cbn [vx vy vz].
  replace ((vx v - vx v) * (vx v - vx v) + (vy v - vy v) * (vy v - vy v)
           + (vz v - vz v) * (vz v - vz v)) with 0 by ring.
  apply sqrt_0.
Qed.

Lemma exampleDoors_in_reach :
  v_distanceTo (getWorldPosition (mkObject (m_translation 8 0.8 1.5)))
    (vec3 8 0.8 1.5) <= 1.
Proof.
  change (v_distanceTo (vec3 8 0.8 1.5) (vec3 8 0.8 1.5) <= 1).
  rewrite v_distanceTo_self. lra.
Qed.

(** C7, as the claim has it, fails: the body does not land on the mapped
    point. *)
Lemma portal_body_is_not_at_mapped_point :
  snd (@interactAtDoorEnd exampleCamera spawnState exampleDoors) = true
  /\ exists body',
      bodyRef (fst (fst (@interactAtDoorEnd exampleCamera spawnState exampleDoors)))
      = Some body'
      /\ translation body'
         <> spec_mapThroughAnchors (m_translation 8 0.8 1.5)
              (m_translation 0 0 0) (position (camera spawnState)).
Proof.
  destruct (@interactAtDoorEnd_result exampleCamera spawnState exampleDoors
              (mkBody (vec3 8 0 1.5) v_zero)
              (mkObject (m_translation 8 0.8 1.5))
              (mkObject (m_translation 0 0 0))
              eq_refl eq_refl eq_refl exampleDoors_in_reach)
    as (Hdone & Hbody & _).
  split; [exact Hdone |].
  eexists; split; [exact Hbody |].
  cbn [translation]. rewrite portalTargetWorld_spec.
  intros E. apply (f_equal vx) in E. cbn [vx matrixWorld] in E. lra.
Qed.

Lemma distance_at_doorEnd x y z y' :
  distanceOfPlayerFromDoorEnd (mkObject (m_translation x y z)) (vec3 x y' z) = 0.
Proof.
  unfold distanceOfPlayerFromDoorEnd; cbn [matrixWorld].
  rewrite m_invert_translation, v_applyMatrix4_translation; cbn [vx vy vz].
  unfold Math_hypot.
  replace ((x + - x) * (x + - x) + (z + - z) * (z + - z)) with 0 by ring.
  apply sqrt_0.
Qed.

(** C8, as the code has it. The yaw of a portal teleport is [atan2(dx, dz)]
    of the direction from the point behind [DoorStart], offset along X by
    the planar distance of the player from [DoorEnd], toward [DoorStart];
    the camera takes that yaw.  It is [PI / 2] for a positive distance.
    For the distance [0] the direction is the zero vector, which
    [normalize] leaves alone, and the yaw is [atan2(0, 0) = 0], which the
    camera takes as well: the yaw it had is not kept. *)
Theorem portal_yaw_faces_along_x `{ThreeCamera}
    (s : State) (d : DoorRefs) (body : RigidBody)
    (doorEnd doorStart : Object3D) :
  bodyRef s = Some body ->
  doorEndRef d = Some doorEnd -> doorStartRef d = Some doorStart ->
  v_distanceTo (getWorldPosition doorEnd) (position (camera s)) <= 1 ->
  let cam := position (camera s) in
  let dist := distanceOfPlayerFromDoorEnd doorEnd cam in
  let r := interactAtDoorEnd s d in
  portalYaw doorEnd doorStart cam
  = spec_facingYaw (getWorldPosition doorStart) dist
  /\ rot_y (rotation (camera (fst (fst r)))) = portalYaw doorEnd doorStart cam
  /\ (0 < dist -> portalYaw doorEnd doorStart cam = PI / 2)
  /\ (dist = 0 ->
      portalLookDir doorEnd doorStart cam = vec3 0 0 0
      /\ portalYaw doorEnd doorStart cam = 0
      /\ rot_y (rotation (camera (fst (fst r)))) = 0).
Proof.
  intros Hb He Hs Hdist; cbv zeta.
  destruct (interactAtDoorEnd_result s d body doorEnd doorStart Hb He Hs Hdist)
    as (_ & _ & Hrot).
  rewrite Hrot; cbn [rot_y].
  rewrite portalYaw_value, portalLookDir_value.
  rewrite spec_facingYaw_value by apply Math_hypot_nonneg.
  split; [reflexivity |]. split; [reflexivity |]. split.
  - intros Hpos.
    destruct (js_gt _ _) eqn:G; js_reflect; [reflexivity | lra].
  - intros Hz. rewrite Hz.
    destruct (js_gt 0 0) eqn:G; js_reflect; [lra |].
    repeat split.
Qed.

(** C8, as the claim has it, fails: with the player on [DoorEnd] the
    direction has zero length, and the camera, which had a yaw of [1], is
    given the yaw [0]. *)
Lemma portal_zero_direction_overwrites_yaw :
  portalLookDir (mkObject (m_translation 8 0.8 1.5))
    (mkObject (m_translation 0 0 0)) (position (camera turnedState))
  = vec3 0 0 0
  /\ rot_y (rotation (camera turnedState)) = 1
  /\ rot_y (rotation (camera
       (fst (fst (@interactAtDoorEnd exampleCamera turnedState exampleDoors)))))
     = 0.
Proof.
  destruct (@interactAtDoorEnd_result exampleCamera turnedState exampleDoors
              (mkBody (vec3 8 0 1.5) v_zero)
              (mkObject (m_translation 8 0.8 1.5))
              (mkObject (m_translation 0 0 0))
              eq_refl eq_refl eq_refl exampleDoors_in_reach)
    as (_ & _ & Hrot).
  rewrite Hrot; cbn [rot_y].
  rewrite portalYaw_value, portalLookDir_value.
  change (position (camera turnedState)) with (vec3 8 0.8 1.5).
  rewrite distance_at_doorEnd.
  destruct (js_gt 0 0) eqn:G; js_reflect; [lra |].
  repeat split.
Qed.

(** * Part III: the properties at concrete inputs *)

(** The teleport of the specification: [keepY], target [(10, _, 5)], yaw
    [PI / 2]. *)
Lemma teleport_resets_controller_witness :
  bodyRef spawnState = Some (mkBody (vec3 8 0 1.5) v_zero)
  /\ bodyRef (teleportHandler spawnState
               (Some (mkTeleport (Some 10) None (Some 5) (Some true)
                        (Some (PI / 2)))))
     = Some (mkBody (vec3 10 0 5) (vec3 0 0 0))
  /\ rot_y (rotation (camera (teleportHandler spawnState
               (Some (mkTeleport (Some 10) None (Some 5) (Some true)
                        (Some (PI / 2)))))))
     = PI / 2.
Proof.
  destruct (@teleport_resets_controller exampleCamera spawnState
              (mkBody (vec3 8 0 1.5) v_zero)
              (Some (mkTeleport (Some 10) None (Some 5) (Some true)
                       (Some (PI / 2))))
              eq_refl)
    as (_ & _ & _ & _ & _ & Hpos & Hyaw & _).
  split; [reflexivity |]. split.
  - apply Hpos; reflexivity.
  - apply (Hyaw (PI / 2)); reflexivity.
Defined.

(** ** The example controller at rest and in mid-walk *)

Lemma exampleCamera_forward :
  @worldDirOf exampleCamera (camera spawnState) = vec3 0 0 (-1).
Proof.
  change (@worldDirOf exampleCamera (camera spawnState))
    with (v_normalize (v_flatten (exampleDirection (mkEuler 0 0 0 YXZ)))).
  unfold exampleDirection; cbn [rot_x rot_y].
  rewrite cos_0, sin_0.
  replace (v_flatten (vec3 (- (1 * 0)) 0 (- (1 * 1)))) with (vec3 0 0 (-1))
    by (unfold v_flatten; cbn [vx vz]; f_equal; ring).
  apply v_normalize_of_unit. unfold v_lengthSq; cbn [vx vy vz]. ring.
Qed.

Lemma exampleCamera_right :
  rightOf (vec3 0 0 (-1)) = vec3 1 0 0.
Proof.
  unfold rightOf.
  replace (v_crossVectors (vec3 0 0 (-1)) upVec) with (vec3 1 0 0)
    by (unfold v_crossVectors, upVec; cbn [vx vy vz]; f_equal; ring).
  apply v_normalize_of_unit. unfold v_lengthSq; cbn [vx vy vz]. ring.
Qed.

Lemma moveTowards_fixed acc dec delta target :
  0 <= delta -> 0 <= acc -> 0 <= dec ->
  moveTowards acc dec delta target target = target.
Proof.
  intros Hd Ha Hc.
  destruct (moveTowards_cases acc dec delta target target)
    as [[_ E] | [Hlt _]]; [exact E |].
  cbv zeta in Hlt. replace (target - target) with 0 in Hlt by ring.
  rewrite Rabs_R0 in Hlt.
  pose proof (blendRate_nonneg acc dec target target Ha Hc).
  assert (0 <= blendRate acc dec target target * delta)
    by (apply Rmult_le_pos; assumption).
  lra.
Qed.

Lemma normalizedSpeedOf_at_rest p : normalizedSpeedOf p 0 0 = 0.
Proof.
  unfold normalizedSpeedOf, Math_hypot.
  replace (0 * 0 + 0 * 0) with 0 by ring. rewrite sqrt_0.
  unfold Rdiv. rewrite Rmult_0_l.
  unfold Rmin. destruct (Rle_dec 1 0); lra.
Qed.

Lemma moveTowards_at_rest delta : 0 <= delta -> moveTowards 18 22 delta 0 0 = 0.
Proof.
  intros Hd.
  destruct (moveTowards_cases 18 22 delta 0 0) as [[_ E] | [Hlt _]];
    [exact E |].
  cbv zeta in Hlt. replace (0 - 0) with 0 in Hlt by ring.
  rewrite Rabs_R0 in Hlt.
  pose proof (blendRate_nonneg 18 22 0 0) as Hr.
  assert (0 <= blendRate 18 22 0 0 * delta)
    by (apply Rmult_le_pos; [apply Hr; lra | exact Hd]).
  lra.
Qed.

Lemma spawn_blend_at_rest delta :
  0 <= delta ->
  @blendedOf exampleCamera sceneProps delta spawnState
    (mkBody (vec3 8 0 1.5) v_zero) = (0, 0).
Proof.
  intros Hd. unfold blendedOf, desiredOf, desiredVelocity, isMoving, hasAxesMove.
  cbn [overrideRef spawnState input getMoveAxes axes_x axes_y fst snd
       linvel v_zero vx vz acceleration deceleration sceneProps].
  rewrite Rabs_R0.
  replace (js_gt 0 0.001) with false by (symmetry; apply js_gt_false; lra).
  cbn [orb andb fst snd]. rewrite (moveTowards_at_rest delta Hd). reflexivity.
Qed.

Lemma pi_gt_3 : 3 < PI.
Proof. pose proof PI2_3_2. lra. Qed.

Lemma forward_input_desired p s :
  overrideRef s = None -> camera s = camera spawnState ->
  input s = mkInput 0 1 0 0 false ->
  @desiredOf exampleCamera p s = (0, - speed p).
Proof.
  intros Ho Hc Hi. unfold desiredOf. rewrite Ho, Hc, Hi.
  rewrite exampleCamera_forward, exampleCamera_right.
  assert (Ha : hasAxesMove (mkInput 0 1 0 0 false) = true).
  { unfold hasAxesMove; cbn [getMoveAxes axes_x axes_y fst snd].
    rewrite Rabs_R1, Rabs_R0.
    replace (js_gt 1 0.001) with true by (symmetry; apply js_gt_true; lra).
    apply orb_true_r. }
  unfold desiredVelocity, isMoving, moveDir. rewrite Ha.
  cbn [getMoveAxes axes_x axes_y fst snd].
  replace (v_add (v_add v_zero (v_multiplyScalar (vec3 0 0 (-1)) 1))
             (v_multiplyScalar (vec3 1 0 0) 0))
    with (vec3 0 0 (-1))
    by (unfold v_add, v_multiplyScalar, v_zero; cbn [vx vy vz];
        apply vec3_ext; ring).
  assert (Hu : v_lengthSq (vec3 0 0 (-1)) = 1)
    by (unfold v_lengthSq; cbn [vx vy vz]; ring).
  rewrite Hu.
  replace (js_gt 1 0) with true by (symmetry; apply js_gt_true; lra).
  cbn [andb]. rewrite (v_normalize_of_unit _ Hu). cbn [vx vz].
  f_equal; ring.
Qed.

Lemma starting_desired :
  @desiredOf exampleCamera sceneProps startingState = (0, -1).
Proof.
  rewrite (forward_input_desired sceneProps startingState) by reflexivity.
  cbn [speed sceneProps]. f_equal; lra.
Qed.

Lemma walking_desired ph :
  @desiredOf exampleCamera sceneProps (walkingState ph) = (0, -1).
Proof.
  rewrite (forward_input_desired sceneProps (walkingState ph)) by reflexivity.
  cbn [speed sceneProps]. f_equal; lra.
Qed.

Lemma walking_blend ph delta :
  0 <= delta ->
  @blendedOf exampleCamera sceneProps delta (walkingState ph)
    (mkBody (vec3 8 0 1.5) (vec3 0 0 (-1))) = (0, -1).
Proof.
  intros Hd. unfold blendedOf. rewrite walking_desired.
  cbn [fst snd linvel vx vz acceleration deceleration sceneProps].
  rewrite !moveTowards_fixed by lra. reflexivity.
Qed.

Lemma walking_speed : normalizedSpeedOf sceneProps 0 (-1) = 1.
Proof.
  unfold normalizedSpeedOf, Math_hypot. cbn [speed sceneProps].
  replace (0 * 0 + -1 * -1) with 1 by ring. rewrite sqrt_1.
  rewrite Rmax_right_le by lra.
  replace (1 / 1.0) with 1 by lra.
  unfold Rmin. destruct (Rle_dec 1 1); lra.
Qed.

Lemma walking_intensity ph delta :
  0 <= delta ->
  @frameIntensity exampleCamera sceneProps delta (walkingState ph)
    (mkBody (vec3 8 0 1.5) (vec3 0 0 (-1))) = 1.
Proof.
  intros Hd. unfold frameIntensity; cbv zeta.
  rewrite walking_blend by exact Hd. cbn [fst snd].
  rewrite walking_speed. unfold nextIntensity.
  cbn [intensity bobRef walkingState]. ring.
Qed.

Lemma walking_cadence ph delta :
  0 <= delta ->
  @frameCadence exampleCamera sceneProps delta (walkingState ph)
    (mkBody (vec3 8 0 1.5) (vec3 0 0 (-1))) = 0.8.
Proof.
  intros Hd. unfold frameCadence; cbv zeta.
  rewrite walking_blend by exact Hd. cbn [fst snd].
  rewrite walking_speed. unfold nextHz.
  cbn [smoothedHz bobRef walkingState minStepFrequency maxStepFrequency
       stepSmoothing sceneProps].
  replace (0.1 + (0.8 - 0.1) * 1 - 0.8) with 0 by lra. lra.
Qed.

Lemma walking_tick_steps ph delta :
  0 <= delta ->
  snd (@tick exampleCamera sceneProps delta (walkingState ph))
  = footsteps ph (nextPhase delta 0.8 ph).
Proof.
  intros Hd.
  destruct (@tick_bob exampleCamera sceneProps delta (walkingState ph)
              (mkBody (vec3 8 0 1.5) (vec3 0 0 (-1))) eq_refl) as [_ ->].
  rewrite bobStep_steps; cbv zeta.
  pose proof (walking_intensity ph delta Hd) as Hi.
  pose proof (walking_cadence ph delta Hd) as Hc.
  unfold frameIntensity, frameCadence in Hi, Hc; cbv zeta in Hi, Hc.
  rewrite Hi, Hc.
  replace (phaseAdvances 1 0.8) with true
    by (symmetry; apply phaseAdvances_true; lra).
  reflexivity.
Qed.

Lemma walking_wrap_reports_right :
  In FootRight (snd (@tick exampleCamera sceneProps 0.05
                       (walkingState (2 * PI - 0.01)))).
Proof.
  pose proof pi_gt_3 as Hpi.
  rewrite walking_tick_steps by lra.
  apply footsteps_right.
  apply (crossed_zero_iff (2 * PI - 0.01) (0.8 * 2 * PI * 0.05)); try lra.
  apply (nextPhase_cases 0.05 0.8 (2 * PI - 0.01)); lra.
Qed.

Lemma walking_half_reports_left :
  In FootLeft (snd (@tick exampleCamera sceneProps 0.05
                      (walkingState (PI - 0.01)))).
Proof.
  pose proof pi_gt_3 as Hpi.
  rewrite walking_tick_steps by lra.
  apply footsteps_left.
  apply (crossed_pi_iff (PI - 0.01) (0.8 * 2 * PI * 0.05)); try lra.
  apply (nextPhase_cases 0.05 0.8 (PI - 0.01)); lra.
Qed.

Lemma turned_view :
  v_flatten (@getWorldDirection exampleCamera (rotation (camera turnedState)))
  = vec3 (- sin 1) 0 (- cos 1)
  /\ v_length (vec3 (- sin 1) 0 (- cos 1)) = 1.
Proof.
  split.
  - change (v_flatten (@getWorldDirection exampleCamera
                         (rotation (camera turnedState))))
      with (v_flatten (exampleDirection (mkEuler 0 1 0 YXZ))).
    unfold exampleDirection, v_flatten; cbn [rot_x rot_y vx vz].
    rewrite cos_0. apply vec3_ext; ring.
  - unfold v_length, v_lengthSq; cbn [vx vy vz].
    pose proof (sin2_cos2 1) as Hu. unfold Rsqr in Hu.
    replace (- sin 1 * - sin 1 + 0 * 0 + - cos 1 * - cos 1) with 1 by lra.
    apply sqrt_1.
Qed.

(** One frame of [0.016] s for the controller that starts to walk forward
    while it drifts sideways: the sideways axis slows down at the
    deceleration, the forward axis speeds up at the acceleration, and both
    steps are clamped. *)
Lemma blend_is_asymmetric_rate_limited_witness :
  @desiredOf exampleCamera sceneProps startingState = (0, -1)
  /\ blendRate 18 22 0.5 0 = 22
  /\ blendRate 18 22 0 (-1) = 18
  /\ @blendedOf exampleCamera sceneProps 0.016 startingState
       (mkBody (vec3 8 0 1.5) (vec3 0.5 0 0))
     = (0.5 - 22 * 0.016, 0 - 18 * 0.016)
  /\ bodyRef (fst (@tick exampleCamera sceneProps 0.016 startingState))
     = Some (mkBody (vec3 8 0 1.5)
               (vec3 (0.5 - 22 * 0.016) 0 (0 - 18 * 0.016))).
Proof.
  destruct (@blend_is_asymmetric_rate_limited exampleCamera sceneProps 0.016
              startingState (mkBody (vec3 8 0 1.5) (vec3 0.5 0 0)) eq_refl)
    as (Hrate & Hx & Hz & Hbody & Hfree); try (cbn; lra).
  rewrite starting_desired in Hx, Hz.
  cbn [fst snd linvel vx vy vz acceleration deceleration sceneProps] in *.
  assert (Rx : blendRate 18 22 0.5 0 = 22).
  { apply (Hrate 0.5 0). rewrite Rabs_R0, Rabs_right; lra. }
  assert (Rz : blendRate 18 22 0 (-1) = 18).
  { apply (Hrate 0 (-1)). rewrite Rabs_R0, Rabs_left; lra. }
  rewrite Rx in Hx. rewrite Rz in Hz.
  assert (Ex : fst (@blendedOf exampleCamera sceneProps 0.016 startingState
                      (mkBody (vec3 8 0 1.5) (vec3 0.5 0 0)))
               = 0.5 - 22 * 0.016).
  { destruct Hx as [Hb [E | [_ E]]].
    - rewrite E in Hb. rewrite Rabs_left in Hb; lra.
    - rewrite E. rewrite Math_sign_neg by lra. ring. }
  assert (Ez : snd (@blendedOf exampleCamera sceneProps 0.016 startingState
                      (mkBody (vec3 8 0 1.5) (vec3 0.5 0 0)))
               = 0 - 18 * 0.016).
  { destruct Hz as [Hb [E | [_ E]]].
    - rewrite E in Hb. rewrite Rabs_left in Hb; lra.
    - rewrite E. rewrite Math_sign_neg by lra. ring. }
  split; [exact starting_desired |].
  split; [exact Rx |]. split; [exact Rz |].
  split.
  - rewrite (surjective_pairing (@blendedOf exampleCamera sceneProps 0.016
               startingState (mkBody (vec3 8 0 1.5) (vec3 0.5 0 0)))).
    rewrite Ex, Ez. reflexivity.
  - rewrite Hbody, Hfree by reflexivity. rewrite Ex, Ez. reflexivity.
Defined.

(** Frames of [0.05] s in mid-walk: the phase advances without a wrap from
    [1], wraps from just below [2 PI], stays at [0] at rest, and is in
    range after a run through a teleport. *)
Lemma bob_phase_wrap_invariant_witness :
  phase (bobRef (fst (@tick exampleCamera sceneProps 0.05 (walkingState 1))))
  = 1 + 0.8 * 2 * PI * 0.05
  /\ phase (bobRef (fst (@tick exampleCamera sceneProps 0.05
                           (walkingState (2 * PI - 0.01)))))
     = 2 * PI - 0.01 + 0.8 * 2 * PI * 0.05 - 2 * PI
  /\ phase (bobRef (fst (@tick exampleCamera sceneProps 0.05 spawnState))) = 0
  /\ 0 <= phase (bobRef (@run exampleCamera sceneProps
                           (walkingState (2 * PI - 0.01))
                           [Frame 0.05; Request (TeleportEvent None);
                            Frame 0.05]))
       < 2 * PI.
Proof.
  pose proof pi_gt_3 as Hpi.
  destruct (@bob_phase_wrap_invariant exampleCamera sceneProps)
    as [Hrun Hframe].
  split; [| split; [| split]].
  - destruct (Hframe 0.05 (walkingState 1)
                (mkBody (vec3 8 0 1.5) (vec3 0 0 (-1))) eq_refl)
      as [Hadv _]; [lra | cbn; lra |].
    rewrite walking_intensity, walking_cadence in Hadv by lra.
    destruct Hadv as [-> _]; [repeat split; lra |].
    cbn [phase bobRef walkingState]. apply js_rem_small. lra.
  - destruct (Hframe 0.05 (walkingState (2 * PI - 0.01))
                (mkBody (vec3 8 0 1.5) (vec3 0 0 (-1))) eq_refl)
      as [Hadv _]; [lra | cbn; lra |].
    rewrite walking_intensity, walking_cadence in Hadv by lra.
    destruct Hadv as [-> _]; [repeat split; lra |].
    cbn [phase bobRef walkingState].
    rewrite js_rem_once by lra. ring.
  - destruct (Hframe 0.05 spawnState
                (mkBody (vec3 8 0 1.5) v_zero) eq_refl)
      as [_ Hstay]; [lra | cbn; lra |].
    rewrite Hstay; [reflexivity |].
    intros (_ & Hi & _). unfold frameIntensity in Hi; cbv zeta in Hi.
    rewrite spawn_blend_at_rest in Hi by lra. cbn [fst snd] in Hi.
    rewrite normalizedSpeedOf_at_rest in Hi. unfold nextIntensity in Hi.
    cbn [intensity bobRef spawnState] in Hi. lra.
  - apply Hrun.
    + repeat constructor; cbn; lra.
    + cbn. lra.
Defined.

(** Frames of [0.05] s in mid-walk: the left foot when the phase passes
    [PI], the right foot when it wraps, never both. *)
Lemma footsteps_one_foot_per_frame_witness :
  (In FootLeft (snd (@tick exampleCamera sceneProps 0.05
                       (walkingState (PI - 0.01))))
   /\ ~ In FootRight (snd (@tick exampleCamera sceneProps 0.05
                             (walkingState (PI - 0.01)))))
  /\ (In FootRight (snd (@tick exampleCamera sceneProps 0.05
                           (walkingState (2 * PI - 0.01))))
      /\ ~ In FootLeft (snd (@tick exampleCamera sceneProps 0.05
                               (walkingState (2 * PI - 0.01))))
      /\ phase (bobRef (fst (@tick exampleCamera sceneProps 0.05
                               (walkingState (2 * PI - 0.01)))))
         < 2 * PI - 0.01).
Proof.
  pose proof pi_gt_3 as Hpi.
  split.
  - destruct (@footsteps_one_foot_per_frame exampleCamera sceneProps 0.05
                (walkingState (PI - 0.01))
                (mkBody (vec3 8 0 1.5) (vec3 0 0 (-1))) eq_refl)
      as (Hnot & _ & Hleft & _).
    + cbn. lra.
    + lra.
    + rewrite walking_cadence by lra. lra.
    + rewrite walking_intensity, walking_cadence in Hleft by lra.
      cbn [phase bobRef walkingState] in Hleft.
      assert (HL : In FootLeft (snd (@tick exampleCamera sceneProps 0.05
                                       (walkingState (PI - 0.01)))))
        by (apply Hleft; repeat split; try reflexivity; lra).
      split; [exact HL |]. intros HR. apply Hnot. split; assumption.
  - destruct (@footsteps_one_foot_per_frame exampleCamera sceneProps 0.05
                (walkingState (2 * PI - 0.01))
                (mkBody (vec3 8 0 1.5) (vec3 0 0 (-1))) eq_refl)
      as (Hnot & Hright & _ & Hwrap).
    + cbn. lra.
    + lra.
    + rewrite walking_cadence by lra. lra.
    + rewrite walking_intensity, walking_cadence in Hright by lra.
      cbn [phase bobRef walkingState] in Hright, Hwrap.
      assert (HR : In FootRight (snd (@tick exampleCamera sceneProps 0.05
                                        (walkingState (2 * PI - 0.01)))))
        by (apply Hright; repeat split; try reflexivity; lra).
      split; [exact HR |].
      split; [intros HL; apply Hnot; split; assumption |].
      apply Hwrap. exact HR.
Defined.

(** The door-opening walk of a controller turned to a yaw of one radian:
    in the start delay after two short frames, walking along the view of
    the request after [0.4] s, free again after [2.5] s. *)
Lemma door_walk_scenario_witness :
  canMove
    (overrideRef
       (@run exampleCamera defaultProps
          (@scriptedMoveHandler exampleCamera turnedState (Some doorWalkDetail))
          [Frame 0.016; Frame 0.016]))
  = false
  /\ @desiredOf exampleCamera defaultProps
       (@run exampleCamera defaultProps
          (@scriptedMoveHandler exampleCamera turnedState (Some doorWalkDetail))
          [Frame 0.2; Frame 0.2])
     = (- sin 1 * (2.4 / 2.2), - cos 1 * (2.4 / 2.2))
  /\ modeOf
       (@run exampleCamera defaultProps
          (@scriptedMoveHandler exampleCamera turnedState (Some doorWalkDetail))
          [Frame 1; Frame 1; Frame 0.5])
     = FREE.
Proof.
  destruct turned_view as [Hview Hlen].
  split; [| split].
  - assert (Hq : Forall quietInput [Frame 0.016; Frame 0.016])
      by (repeat constructor; cbn; lra).
    apply (proj1 (@door_walk_scenario exampleCamera defaultProps turnedState
                    (mkBody (vec3 8 0 1.5) v_zero) [Frame 0.016; Frame 0.016]
                    eq_refl Hq)).
    cbn. lra.
  - assert (Hq : Forall quietInput [Frame 0.2; Frame 0.2])
      by (repeat constructor; cbn; lra).
    destruct (proj1 (proj2 (@door_walk_scenario exampleCamera defaultProps
                              turnedState (mkBody (vec3 8 0 1.5) v_zero)
                              [Frame 0.2; Frame 0.2] eq_refl Hq)))
      as (_ & _ & _ & Hdes & _); [cbn; lra |].
    rewrite Hview, Hlen in Hdes. cbn [vx vz] in Hdes.
    rewrite Hdes.
    + f_equal; lra.
    + unfold v_lengthSq; cbn [vx vy vz].
      pose proof (sin2_cos2 1) as Hu. unfold Rsqr in Hu. lra.
  - assert (Hq : Forall quietInput [Frame 1; Frame 1; Frame 0.5])
      by (repeat constructor; cbn; lra).
    apply (proj2 (proj2 (@door_walk_scenario exampleCamera defaultProps
                           turnedState (mkBody (vec3 8 0 1.5) v_zero)
                           [Frame 1; Frame 1; Frame 0.5] eq_refl Hq))).
    cbn. lra.
Defined.

(** The interact key with the player standing on [DoorEnd]. *)
Lemma portal_lands_beside_mapped_point_witness :
  snd (@interactAtDoorEnd exampleCamera spawnState exampleDoors) = true.
Proof.
  apply (@portal_lands_beside_mapped_point exampleCamera spawnState exampleDoors
           (mkBody (vec3 8 0 1.5) v_zero)
           (mkObject (m_translation 8 0.8 1.5))
           (mkObject (m_translation 0 0 0))
           eq_refl eq_refl eq_refl exampleDoors_in_reach).
Defined.

Lemma portal_yaw_faces_along_x_witness :
  rot_y (rotation (camera
    (fst (fst (@interactAtDoorEnd exampleCamera turnedState exampleDoors)))))
  = portalYaw (mkObject (m_translation 8 0.8 1.5))
      (mkObject (m_translation 0 0 0)) (vec3 8 0.8 1.5).
Proof.
  apply (@portal_yaw_faces_along_x exampleCamera turnedState exampleDoors
           (mkBody (vec3 8 0 1.5) v_zero)
           (mkObject (m_translation 8 0.8 1.5))
           (mkObject (m_translation 0 0 0))
           eq_refl eq_refl eq_refl exampleDoors_in_reach).
Defined.

(** Requests and a frame before the rigid body exists. *)
Lemma requests_without_body_witness :
  bodyRef unmountedState = None
  /\ teleportHandler unmountedState
       (Some (mkTeleport (Some 10) None (Some 5) (Some true) None))
     = unmountedState
  /\ @tick exampleCamera defaultProps 0.016 unmountedState
     = (unmountedState, []).
Proof.
  destruct (@requests_without_body exampleCamera unmountedState eq_refl)
    as (Ht & _ & Hf).
  split; [reflexivity |]. split; [apply Ht | apply Hf].
Defined.

(** * Part IV: further properties of the controller *)

(** ** The view angles the controller writes *)

Lemma pitch_limit_pos : 0 < PI / 2 - 0.01.
Proof. pose proof PI2_1. lra. Qed.

Lemma clamp_in_range lim q :
  0 <= lim ->
  - lim <= Rmax (- lim) (Rmin lim q) <= lim
  /\ (- lim <= q <= lim -> Rmax (- lim) (Rmin lim q) = q).
Proof.
  intros Hl. unfold Rmax, Rmin.
  destruct (Rle_dec lim q), (Rle_dec (- lim) lim), (Rle_dec (- lim) q);
    split; intros; lra.
Qed.

(** X1. The mount effect clamps the initial pitch to
    [[-(PI/2 - 0.01), PI/2 - 0.01]] and leaves a pitch inside that range
    as it is; it writes the initial yaw as given, keeps the position of
    the camera, and does nothing at all when neither angle is passed. *)
Theorem initial_view_is_clamped
    (initialYaw initialPitch : option R) (c : Camera) :
  let c' := applyInitialView initialYaw initialPitch c in
  let lim := PI / 2 - 0.01 in
  position c' = position c
  /\ (forall q, initialPitch = Some q ->
        - lim <= rot_x (rotation c') <= lim
        /\ (- lim <= q <= lim -> rot_x (rotation c') = q))
  /\ (forall w, initialYaw = Some w -> rot_y (rotation c') = w)
  /\ (initialPitch = None -> rot_x (rotation c') = rot_x (rotation c))
  /\ (initialYaw = None -> rot_y (rotation c') = rot_y (rotation c))
  /\ (initialYaw = None -> initialPitch = None -> c' = c).
Proof.
  cbv zeta. pose proof pitch_limit_pos as Hl.
  destruct initialYaw as [w |], initialPitch as [q |]; cbn;
    repeat split; intros; try discriminate; try reflexivity;
    try (match goal with H : Some _ = Some _ |- _ => injection H as <- end);
    try reflexivity;
    try (apply clamp_in_range; lra);
    try (apply (proj2 (clamp_in_range (PI / 2 - 0.01) _ (Rlt_le _ _ Hl)));
         assumption).
Qed.

Lemma initial_view_is_clamped_witness :
  - (PI / 2 - 0.01)
  <= rot_x (rotation (applyInitialView None (Some 4) (camera spawnState)))
  <= PI / 2 - 0.01.
Proof.
  destruct (initial_view_is_clamped None (Some 4) (camera spawnState))
    as (_ & Hq & _).
  apply (Hq 4 eq_refl).
Defined.

Lemma tick_look `{ThreeCamera} p delta s body :
  bodyRef s = Some body ->
  let override' :=
    match overrideRef s with
    | Some o => advanceOverride delta o
    | None => None
    end in
  let looked :=
    touchLook (isTouchMode (input s)) override'
      (lookAtStep (overrideRef s) (camera s) delta) (input s) in
  rotation (camera (fst (tick p delta s))) = fst looked
  /\ input (fst (tick p delta s)) = snd looked.
Proof.
  intros Hb; cbv zeta. unfold tick. rewrite Hb.
  destruct (bobStep _ _ _ _ _ _ _) as [bob' steps].
  destruct (touchLook _ _ _ _) as [rot2 input']. split; reflexivity.
Qed.

(** X2. In touch mode, a frame without override that finds a look delta
    turns the yaw by [-dx * 0.0025], turns the pitch by [-dy * 0.0025]
    clamped to [[-(PI/2 - 0.01), PI/2 - 0.01]], and clears the delta; the
    movement axes are left alone. *)
Theorem touch_look_is_clamped_and_consumed `{ThreeCamera}
    (p : Props) (delta : R) (s : State) (body : RigidBody) :
  bodyRef s = Some body -> overrideRef s = None ->
  touchMode (input s) = true ->
  look_dx (input s) <> 0 \/ look_dy (input s) <> 0 ->
  let s' := fst (tick p delta s) in
  let lim := PI / 2 - 0.01 in
  rot_y (rotation (camera s'))
  = rot_y (rotation (camera s)) - look_dx (input s) * 0.0025
  /\ rot_x (rotation (camera s'))
     = Rmax (- lim)
         (Rmin lim (rot_x (rotation (camera s)) - look_dy (input s) * 0.0025))
  /\ - lim <= rot_x (rotation (camera s')) <= lim
  /\ look_dx (input s') = 0 /\ look_dy (input s') = 0
  /\ axes_x (input s') = axes_x (input s)
  /\ axes_y (input s') = axes_y (input s).
Proof.
  intros Hb Ho Ht Hd; cbv zeta.
  destruct (tick_look p delta s body Hb) as [-> ->]; cbv zeta.
  rewrite Ho. cbn [lookAtStep]. unfold touchLook, isTouchMode, consumeLookDelta.
  rewrite Ht.
  assert (Hne : negb (js_eq (look_dx (input s)) 0)
                || negb (js_eq (look_dy (input s)) 0) = true).
  { apply orb_true_iff. destruct Hd as [Hd | Hd]; [left | right];
      apply negb_true_iff; apply js_eq_false; exact Hd. }
  rewrite Hne. cbn.
  repeat split; try reflexivity;
    apply clamp_in_range; left; apply pitch_limit_pos.
Qed.

Lemma touch_look_is_clamped_and_consumed_witness :
  look_dx (input (fst (@tick exampleCamera sceneProps 0.016
     (withInput spawnState (mkInput 0 0 40 (-2000) true))))) = 0.
Proof.
  destruct (@touch_look_is_clamped_and_consumed exampleCamera sceneProps 0.016
              (withInput spawnState (mkInput 0 0 40 (-2000) true))
              (mkBody (vec3 8 0 1.5) v_zero) eq_refl eq_refl eq_refl)
    as (_ & _ & _ & Hdx & _); [left; cbn; lra | exact Hdx].
Defined.

(** X3. While an override outlasts the frame, touch look is not applied
    and the pending look delta is kept; it is applied by the first frame
    that ends without an override. *)
Theorem touch_look_waits_for_override `{ThreeCamera}
    (p : Props) (delta : R) (s : State) (body : RigidBody) (o : Override) :
  bodyRef s = Some body -> overrideRef s = Some o ->
  0 <= delta -> 0 <= moveDelayLeft o -> delta < timeLeft o ->
  let s' := fst (tick p delta s) in
  input s' = input s
  /\ rotation (camera s') = lookAtStep (Some o) (camera s) delta
  /\ exists o', overrideRef s' = Some o'.
Proof.
  intros Hb Ho Hd Hm Ht; cbv zeta.
  destruct (tick_look p delta s body Hb) as [-> ->]; cbv zeta.
  destruct (tick_override p delta s body Hb) as [-> _]; cbv zeta.
  rewrite Ho.
  destruct (advanceOverride_cases delta o Hd Hm)
    as [[Hle _] | [_ (o' & -> & _)]]; [lra |].
  cbn [touchLook fst snd]. repeat split. exists o'; reflexivity.
Qed.

Lemma touch_look_waits_for_override_witness :
  input (fst (@tick exampleCamera sceneProps 0.016
           (withInput (@scriptedMoveHandler exampleCamera spawnState None)
                      (mkInput 0 0 40 0 true))))
  = mkInput 0 0 40 0 true.
Proof.
  destruct (@touch_look_waits_for_override exampleCamera sceneProps 0.016
              (withInput (@scriptedMoveHandler exampleCamera spawnState None)
                         (mkInput 0 0 40 0 true))
              (mkBody (vec3 8 0 1.5) v_zero)
              (mkOverride (Rmax 0.05 1.2) (Rmax 0.05 1.2)
                 (Rmax 0.05 1.5 / Rmax 0.05 1.2)
                 (@captureForward exampleCamera (camera spawnState)) true None
                 (Some 6) (Rmax 0 0.35))
              eq_refl eq_refl) as (Hin & _).
  - lra.
  - cbn. apply Rmax_lower.
  - cbn. pose proof (Rmax_lower 0.05 1.2). lra.
  - exact Hin.
Defined.

(** ** Where the camera is placed *)

Lemma v_lengthSq_nonneg v : 0 <= v_lengthSq v.
Proof. unfold v_lengthSq. nra. Qed.

Lemma v_normalize_y0 v : vy v = 0 -> vy (v_normalize v) = 0.
Proof.
  intros Hy. unfold v_normalize, v_multiplyScalar; cbn [vy]. rewrite Hy. ring.
Qed.

Lemma v_normalize_le1 v : v_lengthSq (v_normalize v) <= 1.
Proof.
  destruct (Rle_lt_dec (v_lengthSq v) 0) as [Hz | Hpos].
  - pose proof (v_lengthSq_nonneg v) as Hn.
    assert (Hsq : v_lengthSq v = 0) by lra.
    unfold v_normalize, v_length. rewrite Hsq, sqrt_0.
    destruct (js_eq 0 0) eqn:E; js_reflect; [| lra].
    unfold v_lengthSq, v_multiplyScalar in *; cbn [vx vy vz].
    replace (vx v * (1 / 1) * (vx v * (1 / 1))
             + vy v * (1 / 1) * (vy v * (1 / 1))
             + vz v * (1 / 1) * (vz v * (1 / 1)))
      with (vx v * vx v + vy v * vy v + vz v * vz v) by field.
    lra.
  - destruct (v_normalize_unit v Hpos) as [-> _]. lra.
Qed.

Lemma rightOf_flat worldDir :
  vy (rightOf worldDir) = 0 /\ v_lengthSq (rightOf worldDir) <= 1.
Proof.
  unfold rightOf. split; [| apply v_normalize_le1].
  apply v_normalize_y0. unfold v_crossVectors, upVec; cbn [vx vy vz]. ring.
Qed.

Lemma worldDirOf_flat `{ThreeCamera} c :
  vy (worldDirOf c) = 0 /\ v_lengthSq (worldDirOf c) <= 1.
Proof.
  unfold worldDirOf. split; [| apply v_normalize_le1].
  apply v_normalize_y0. reflexivity.
Qed.

Lemma tick_camera_position `{ThreeCamera} p delta s body :
  bodyRef s = Some body ->
  position (camera (fst (tick p delta s)))
  = placeCamera p (translation body) (rightOf (worldDirOf (camera s)))
      (bobRef (fst (tick p delta s))).
Proof.
  intros Hb. unfold tick. rewrite Hb.
  destruct (bobStep _ _ _ _ _ _ _) as [bob' steps].
  destruct (touchLook _ _ _ _) as [rot2 input']. reflexivity.
Qed.

(** X4. After every frame the camera sits at eye height above the feet of
    the body, plus the smoothed vertical bob: the lateral sway never
    changes its height.  Horizontally it is at most the smoothed lateral
    bob away from the body, and exactly above the body when bobbing is
    disabled. *)
Theorem camera_follows_body `{ThreeCamera}
    (p : Props) (delta : R) (s : State) (body : RigidBody) :
  bodyRef s = Some body ->
  let s' := fst (tick p delta s) in
  let t := translation body in
  let c := position (camera s') in
  let feet := vy t - (capsuleHeight p / 2 + capsuleRadius p) in
  vy c = feet + eyeHeight p
         + (if bobEnabled p then smoothedVertical (bobRef s') else 0)
  /\ (vx c - vx t) * (vx c - vx t) + (vz c - vz t) * (vz c - vz t)
     <= smoothedLateral (bobRef s') * smoothedLateral (bobRef s')
  /\ (bobEnabled p = false -> vx c = vx t /\ vz c = vz t).
Proof.
  intros Hb; cbv zeta.
  rewrite (tick_camera_position p delta s body Hb).
  destruct (rightOf_flat (worldDirOf (camera s))) as [Hy Hlen].
  set (r := rightOf (worldDirOf (camera s))) in *.
  set (b := bobRef (fst (tick p delta s))).
  unfold placeCamera; cbv zeta.
  destruct (bobEnabled p); unfold v_addScaledVector; cbn [vx vy vz].
  - rewrite Hy. split; [ring |]. split; [| discriminate].
    unfold v_lengthSq in Hlen. rewrite Hy in Hlen.
    replace ((vx (translation body) + vx r * smoothedLateral b
              - vx (translation body))
             * (vx (translation body) + vx r * smoothedLateral b
                - vx (translation body))
             + (vz (translation body) + vz r * smoothedLateral b
                - vz (translation body))
               * (vz (translation body) + vz r * smoothedLateral b
                  - vz (translation body)))
      with ((vx r * vx r + vz r * vz r)
            * (smoothedLateral b * smoothedLateral b)) by ring.
    assert (0 <= smoothedLateral b * smoothedLateral b) by nra.
    nra.
  - split; [ring |]. split; [| intros _; split; reflexivity].
    replace ((vx (translation body) - vx (translation body))
             * (vx (translation body) - vx (translation body))
             + (vz (translation body) - vz (translation body))
               * (vz (translation body) - vz (translation body)))
      with 0 by ring.
    nra.
Qed.

Lemma camera_follows_body_witness :
  vy (position (camera (fst (@tick exampleCamera sceneProps 0.016 spawnState))))
  = 0 - (capsuleHeight sceneProps / 2 + capsuleRadius sceneProps)
    + eyeHeight sceneProps
    + smoothedVertical
        (bobRef (fst (@tick exampleCamera sceneProps 0.016 spawnState))).
Proof.
  destruct (@camera_follows_body exampleCamera sceneProps 0.016 spawnState
              (mkBody (vec3 8 0 1.5) v_zero) eq_refl) as (Hy & _).
  exact Hy.
Defined.

(** ** What writes the body *)

Lemma step_leaves_body `{ThreeCamera} p s i body :
  leavesBody i -> bodyRef s = Some body ->
  exists body', bodyRef (step p s i) = Some body'
                /\ translation body' = translation body
                /\ vy (linvel body') = vy (linvel body).
Proof.
  intros Hi Hb. destruct i as [delta | b | e | x y | dx dy | rot]; cbn [step].
  - rewrite (tick_body p delta s body Hb). eexists; split; [reflexivity |].
    split; [reflexivity |].
    unfold commandedLinvel.
    destruct (overrideRef s); [destruct (canMove _) |]; reflexivity.
  - destruct Hi.
  - destruct e as [d | d]; [| destruct Hi].
    exists body. repeat split. exact Hb.
  - exists body. repeat split. exact Hb.
  - exists body. repeat split. exact Hb.
  - destruct (plcEnabled s); exists body; repeat split; exact Hb.
Qed.

(** X5. The controller never moves the body and never touches its vertical
    velocity outside a teleport: along any run without physics steps and
    teleport requests (frames, scripted-move requests, input writes), the
    translation of the body and the Y component of its velocity stay what
    they were. *)
Theorem only_teleport_moves_body `{ThreeCamera}
    (p : Props) (l : list Input) (s : State) (body : RigidBody) :
  Forall leavesBody l -> bodyRef s = Some body ->
  exists body', bodyRef (run p s l) = Some body'
                /\ translation body' = translation body
                /\ vy (linvel body') = vy (linvel body).
Proof.
  revert s body. induction l as [| i l IH]; intros s body Hall Hb.
  - exists body. repeat split. exact Hb.
  - inversion Hall as [| ? ? Hi Hl]; subst. rewrite run_cons.
    destruct (step_leaves_body p s i body Hi Hb) as (b1 & Hb1 & Ht1 & Hv1).
    destruct (IH _ b1 Hl Hb1) as (b2 & Hb2 & Ht2 & Hv2).
    exists b2. repeat split; [exact Hb2 | congruence | congruence].
Qed.

Lemma only_teleport_moves_body_witness :
  exists body',
    bodyRef (@run exampleCamera sceneProps spawnState
               [MoveAxes 1 0; Frame 0.016;
                Request (ScriptedMoveEvent None); Frame 0.016])
    = Some body'
    /\ translation body' = vec3 8 0 1.5
    /\ vy (linvel body') = 0.
Proof.
  apply (@only_teleport_moves_body exampleCamera sceneProps
           [MoveAxes 1 0; Frame 0.016;
            Request (ScriptedMoveEvent None); Frame 0.016]
           spawnState (mkBody (vec3 8 0 1.5) v_zero)).
  - repeat constructor.
  - reflexivity.
Defined.

(** X6. A teleport request wipes a scripted move without trace: handled
    with the body present right after a scripted-move request, it leaves
    the controller in the very state it would have left without that
    request. *)
Theorem teleport_cancels_scripted_move `{ThreeCamera}
    (s : State) (body : RigidBody)
    (move : option ScriptedMoveDetail) (detail : option TeleportDetail) :
  bodyRef s = Some body ->
  teleportHandler (scriptedMoveHandler s move) detail
  = teleportHandler s detail.
Proof.
  intros Hb. unfold teleportHandler, scriptedMoveHandler.
  cbn [bodyRef bobRef camera input]. rewrite Hb. reflexivity.
Qed.

Lemma teleport_cancels_scripted_move_witness :
  teleportHandler
    (@scriptedMoveHandler exampleCamera spawnState (Some doorWalkDetail))
    (Some (mkTeleport (Some 10) None (Some 5) (Some true) None))
  = teleportHandler spawnState
      (Some (mkTeleport (Some 10) None (Some 5) (Some true) None)).
Proof.
  apply (@teleport_cancels_scripted_move exampleCamera spawnState
           (mkBody (vec3 8 0 1.5) v_zero)).
  reflexivity.
Defined.

(** ** Free movement *)

Lemma moveDir_free_flat `{ThreeCamera} s :
  overrideRef s = None ->
  vy (moveDir (overrideRef s) (input s) (worldDirOf (camera s))
        (rightOf (worldDirOf (camera s)))) = 0.
Proof.
  intros Ho. rewrite Ho. unfold moveDir.
  destruct (worldDirOf_flat (camera s)) as [Hw _].
  destruct (rightOf_flat (worldDirOf (camera s))) as [Hr _].
  destruct (hasAxesMove (input s)); [| reflexivity].
  unfold v_add, v_multiplyScalar, v_zero; cbn [vx vy vz].
  rewrite Hw, Hr. ring.
Qed.

(** X7. Free movement has one speed: with input on the axes and no
    override, the desired horizontal velocity has exactly the length
    [speed], whatever the mix of forward and strafe input, as long as the
    movement direction is not the zero vector; when it is, the desired
    velocity is zero.  That is the case in particular when the view
    direction is vertical, where input has no effect. *)
Theorem free_movement_has_one_speed `{ThreeCamera} (p : Props) (s : State) :
  overrideRef s = None -> 0 <= speed p ->
  let d := moveDir None (input s) (worldDirOf (camera s))
             (rightOf (worldDirOf (camera s))) in
  (hasAxesMove (input s) = true -> 0 < v_lengthSq d ->
   Math_hypot (fst (desiredOf p s)) (snd (desiredOf p s)) = speed p)
  /\ (v_lengthSq d <= 0 -> desiredOf p s = (0, 0))
  /\ (hasAxesMove (input s) = false -> desiredOf p s = (0, 0))
  /\ (v_flatten (getWorldDirection (rotation (camera s))) = v_zero ->
      desiredOf p s = (0, 0)).
Proof.
  intros Ho Hs; cbv zeta.
  pose proof (moveDir_free_flat s Ho) as Hflat. rewrite Ho in Hflat.
  assert (Hzero : v_lengthSq
                    (moveDir None (input s) (worldDirOf (camera s))
                       (rightOf (worldDirOf (camera s)))) <= 0 ->
                  desiredOf p s = (0, 0)).
  { intros Hz. unfold desiredOf, desiredVelocity. rewrite Ho.
    replace (js_gt _ 0) with false by (symmetry; apply js_gt_false; exact Hz).
    rewrite andb_false_r. reflexivity. }
  split; [| split; [exact Hzero | split]].
  - intros Ha Hpos. unfold desiredOf, desiredVelocity, isMoving.
    rewrite Ho, Ha.
    replace (js_gt _ 0) with true by (symmetry; apply js_gt_true; exact Hpos).
    cbn [andb fst snd].
    destruct (v_normalize_unit _ Hpos) as [Hu Hy].
    specialize (Hy Hflat).
    apply hypot_scaled_unit; [| exact Hs].
    unfold v_lengthSq in Hu. rewrite Hy in Hu. lra.
  - intros Ha. unfold desiredOf, desiredVelocity, isMoving.
    rewrite Ho, Ha. reflexivity.
  - intros Hv. apply Hzero.
    unfold worldDirOf. rewrite Hv.
    assert (Hn : v_normalize v_zero = v_zero).
    { unfold v_normalize, v_length, v_lengthSq, v_zero; cbn [vx vy vz].
      unfold v_multiplyScalar; cbn [vx vy vz]. f_equal; ring. }
    rewrite Hn. unfold rightOf.
    assert (Hc : v_crossVectors v_zero upVec = v_zero)
      by (unfold v_crossVectors, v_zero, upVec; cbn [vx vy vz]; f_equal; ring).
    rewrite Hc, Hn. unfold moveDir.
    destruct (hasAxesMove (input s));
      unfold v_lengthSq, v_add, v_multiplyScalar, v_zero; cbn [vx vy vz]; nra.
Qed.

(** Strafing to the right from the spawn point. *)
Lemma free_movement_has_one_speed_witness :
  Math_hypot
    (fst (@desiredOf exampleCamera sceneProps
            (withInput spawnState (mkInput 1 0 0 0 false))))
    (snd (@desiredOf exampleCamera sceneProps
            (withInput spawnState (mkInput 1 0 0 0 false))))
  = speed sceneProps.
Proof.
  assert (Ha : hasAxesMove (mkInput 1 0 0 0 false) = true).
  { unfold hasAxesMove; cbn [getMoveAxes axes_x axes_y fst snd].
    rewrite Rabs_R1.
    replace (js_gt 1 0.001) with true by (symmetry; apply js_gt_true; lra).
    reflexivity. }
  destruct (@free_movement_has_one_speed exampleCamera sceneProps
              (withInput spawnState (mkInput 1 0 0 0 false)) eq_refl)
    as (Hspeed & _); [cbn; lra |].
  apply Hspeed; [exact Ha |].
  change (camera (withInput spawnState (mkInput 1 0 0 0 false)))
    with (camera spawnState).
  rewrite exampleCamera_forward, exampleCamera_right.
  unfold moveDir. cbn [input withInput]. rewrite Ha.
  unfold v_lengthSq, v_add, v_multiplyScalar, v_zero;
    cbn [vx vy vz getMoveAxes axes_x axes_y fst snd].
  lra.
Defined.

(** ** Bounds of the bob state *)

Lemma normalizedSpeedOf_range p newVX newVZ :
  0 <= normalizedSpeedOf p newVX newVZ <= 1.
Proof.
  unfold normalizedSpeedOf.
  assert (Hq : 0 <= Math_hypot newVX newVZ / Rmax 0.001 (speed p)).
  { apply div_nonneg; [apply Math_hypot_nonneg |].
    pose proof (Rmax_lower 0.001 (speed p)). lra. }
  split; [| apply Rmin_l].
  unfold Rmin. destruct (Rle_dec 1 _); lra.
Qed.

Lemma unit_gain c : 0 <= c -> 0 <= Rmin 1 c <= 1.
Proof. intros Hc. unfold Rmin. destruct (Rle_dec 1 c); lra. Qed.

Lemma follow_gain c : 0 <= Rmin 1 (Rmax 0 c) <= 1.
Proof. apply unit_gain. apply Rmax_lower. Qed.

Lemma lerp_between a b x t k :
  0 <= k <= 1 -> a <= x <= b -> a <= t <= b -> a <= x + (t - x) * k <= b.
Proof. intros Hk Hx Ht. split; nra. Qed.

Lemma shaped_vertical_bound h phi :
  Rabs (sin (phi * 2) + h * sin (phi * 4)) <= 1 + Rabs h.
Proof.
  pose proof (SIN_bound (phi * 2)) as H2.
  pose proof (SIN_bound (phi * 4)) as H4.
  assert (Hh : Rabs (h * sin (phi * 4)) <= Rabs h).
  { rewrite Rabs_mult.
    assert (Rabs (sin (phi * 4)) <= 1) by (apply Rabs_le; lra).
    pose proof (Rabs_pos h). nra. }
  assert (Hs : Rabs (sin (phi * 2)) <= 1) by (apply Rabs_le; lra).
  pose proof (Rabs_triang (sin (phi * 2)) (h * sin (phi * 4))). lra.
Qed.

Lemma scaled_bound x A i amp B :
  Rabs x <= B -> 0 <= i <= 1 -> 0 <= amp <= 1 ->
  Rabs (x * A * i * amp) <= B * Rabs A.
Proof.
  intros Hx Hi Ha. rewrite !Rabs_mult.
  rewrite (Rabs_right i) by lra. rewrite (Rabs_right amp) by lra.
  pose proof (Rabs_pos x). pose proof (Rabs_pos A).
  assert (0 <= i * amp <= 1) by nra.
  assert (Rabs x * Rabs A <= B * Rabs A) by nra.
  assert (0 <= Rabs x * Rabs A) by nra.
  replace (Rabs x * Rabs A * i * amp) with (Rabs x * Rabs A * (i * amp)) by ring.
  nra.
Qed.

Lemma abs_lerp_bound x t k B :
  0 <= k <= 1 -> Rabs x <= B -> Rabs t <= B -> Rabs (x + (t - x) * k) <= B.
Proof.
  intros Hk Hx Ht. apply Rabs_le.
  assert (- B <= x <= B)
    by (split; [pose proof (Rabs_pos x); unfold Rabs in Hx;
                destruct (Rcase_abs x); lra
               | pose proof (Rle_abs x); lra]).
  assert (- B <= t <= B)
    by (split; [pose proof (Rabs_pos t); unfold Rabs in Ht;
                destruct (Rcase_abs t); lra
               | pose proof (Rle_abs t); lra]).
  apply lerp_between; assumption.
Qed.

Lemma bobStep_inRange p delta moving newVX newVZ worldDir b :
  bobConfigured p -> 0 <= delta -> bobInRange p b ->
  bobInRange p (fst (bobStep p delta moving newVX newVZ worldDir b)).
Proof.
  intros (Hbs & Hss & Hf & Hinf) Hd (Hi & Hz & Hv).
  pose proof (normalizedSpeedOf_range p newVX newVZ) as Hns.
  set (ns := normalizedSpeedOf p newVX newVZ) in *.
  set (B := (1 + Rabs (verticalHarmonic p)) * Rabs (verticalBobAmplitude p)) in *.
  assert (HB : 0 <= B).
  { unfold B. pose proof (Rabs_pos (verticalHarmonic p)).
    pose proof (Rabs_pos (verticalBobAmplitude p)). nra. }
  pose proof (follow_gain
                ((if moving then bobFollowSmoothing p else idleReturnSmoothing p)
                 * delta)) as Hk.
  assert (Hzero : Rabs 0 <= B) by (rewrite Rabs_R0; exact HB).
  unfold bobStep, bobInRange. fold ns.
  destruct (bobEnabled p);
    cbn [fst phase intensity smoothedHz smoothedVertical smoothedLateral].
  - assert (Hi' : 0 <= nextIntensity p delta ns b <= 1).
    { unfold nextIntensity. apply lerp_between; try assumption.
      apply unit_gain. apply Rmult_le_pos; assumption. }
    split; [exact Hi' |]. split.
    + unfold nextHz. apply lerp_between.
      * apply unit_gain. apply Rmult_le_pos; assumption.
      * exact Hz.
      * split; nra.
    + apply abs_lerp_bound; [exact Hk | exact Hv |].
      destruct moving; [| exact Hzero].
      apply scaled_bound; [apply shaped_vertical_bound | exact Hi' |].
      split; nra.
  - split; [exact Hi |]. split; [exact Hz |].
    apply abs_lerp_bound; [exact Hk | exact Hv |].
    destruct moving; exact Hzero.
Qed.

Lemma step_bob_inRange `{ThreeCamera} p s i :
  bobConfigured p -> forwardInTime i ->
  bobInRange p (bobRef s) -> bobInRange p (bobRef (step p s i)).
Proof.
  intros Hc Hi Hb. destruct i as [delta | b | e | x y | dx dy | rot]; cbn [step].
  - destruct (bodyRef s) as [body |] eqn:Hbody.
    + destruct (tick_bob p delta s body Hbody) as [-> _].
      apply bobStep_inRange; assumption.
    + unfold tick. rewrite Hbody. exact Hb.
  - destruct (bodyRef s); exact Hb.
  - destruct e as [d | d]; cbn [handleEvent].
    + exact Hb.
    + unfold teleportHandler. destruct (bodyRef s); exact Hb.
  - exact Hb.
  - exact Hb.
  - destruct (plcEnabled s); exact Hb.
Qed.

(** X8. With non-negative smoothing rates, step frequencies
    [0 <= min <= max] and a speed influence in [[0, 1]], the bob state
    stays bounded along every run with frames of non-negative [delta]: the
    intensity in [[0, 1]], the cadence in [[0, maxStepFrequency]], and the
    smoothed vertical offset within
    [(1 + |verticalHarmonic|) * |verticalBobAmplitude|]. *)
Theorem bob_state_stays_bounded `{ThreeCamera}
    (p : Props) (l : list Input) (s : State) :
  bobConfigured p -> Forall forwardInTime l ->
  bobInRange p (bobRef s) -> bobInRange p (bobRef (run p s l)).
Proof.
  intros Hc. revert s. induction l as [| i l IH]; intros s Hall Hb.
  - exact Hb.
  - inversion Hall as [| ? ? Hi Hl]; subst. rewrite run_cons.
    apply IH; [exact Hl |]. apply step_bob_inRange; assumption.
Qed.

Lemma sceneProps_configured : bobConfigured sceneProps.
Proof. unfold bobConfigured; cbn. lra. Qed.

Lemma spawn_bob_inRange : bobInRange sceneProps (bobRef spawnState).
Proof.
  unfold bobInRange; cbn. rewrite Rabs_R0.
  pose proof (Rabs_pos 0.15). pose proof (Rabs_pos 0.015).
  repeat split; try lra. nra.
Qed.

Lemma bob_state_stays_bounded_witness :
  bobInRange sceneProps
    (bobRef (@run exampleCamera sceneProps spawnState
               [MoveAxes 0 1; Frame 0.016; Frame 0.016; Frame 0.1])).
Proof.
  apply (@bob_state_stays_bounded exampleCamera sceneProps).
  - exact sceneProps_configured.
  - repeat constructor; cbn; lra.
  - exact spawn_bob_inRange.
Defined.

(** ** Frames of blending *)

Lemma blendFrames_fixed acc dec delta n target :
  0 <= delta -> 0 <= acc -> 0 <= dec ->
  blendFrames acc dec delta n target target = target.
Proof.
  intros Hd Ha Hc. induction n as [| n IH]; [reflexivity |].
  cbn [blendFrames]. rewrite moveTowards_fixed by assumption. exact IH.
Qed.

Lemma blendRate_lower acc dec current target :
  Rmin acc dec <= blendRate acc dec current target.
Proof.
  unfold blendRate. destruct (js_gt _ _); [apply Rmin_l | apply Rmin_r].
Qed.

Lemma moveTowards_gap acc dec delta current target :
  0 <= delta -> 0 <= acc -> 0 <= dec ->
  moveTowards acc dec delta current target = target
  \/ Rabs (target - moveTowards acc dec delta current target)
     = Rabs (target - current) - blendRate acc dec current target * delta.
Proof.
  intros Hd Ha Hc.
  pose proof (blendRate_nonneg acc dec current target Ha Hc) as Hr.
  assert (Hm : 0 <= blendRate acc dec current target * delta)
    by (apply Rmult_le_pos; assumption).
  set (m := blendRate acc dec current target * delta) in *.
  destruct (moveTowards_cases acc dec delta current target)
    as [[_ E] | [Hlt E]]; [left; exact E | right].
  fold m in Hlt, E. rewrite E.
  destruct (Rtotal_order (target - current) 0) as [Hn | [Hz | Hp]].
  - rewrite (Math_sign_neg _ Hn). rewrite Rabs_left in Hlt by lra.
    rewrite !Rabs_left by lra. ring.
  - rewrite Hz, Rabs_R0 in Hlt. lra.
  - rewrite (Math_sign_pos _ Hp). rewrite Rabs_right in Hlt by lra.
    rewrite !Rabs_right by lra. ring.
Qed.

(** X9. Blending reaches its target in finitely many frames and then holds
    it: for positive rates, once [n] frames of [delta] seconds cover the
    gap at the slower of the two rates, the value is exactly the target,
    and it stays the target for every further frame. *)
Theorem blending_reaches_target_and_holds
    (acc dec delta : R) (n : nat) (current target : R) :
  0 <= delta -> 0 <= acc -> 0 <= dec ->
  Rabs (target - current) <= INR n * (Rmin acc dec * delta) ->
  blendFrames acc dec delta n current target = target
  /\ forall k : nat,
       blendFrames acc dec delta k
         (blendFrames acc dec delta n current target) target = target.
Proof.
  intros Hd Ha Hc Hgap.
  assert (Hreach : blendFrames acc dec delta n current target = target).
  { revert current Hgap. induction n as [| n IH]; intros current Hgap.
    - cbn [INR] in Hgap. rewrite Rmult_0_l in Hgap.
      pose proof (Rabs_pos (target - current)) as Hp.
      assert (Hz : Rabs (target - current) = 0) by lra.
      cbn [blendFrames].
      destruct (Req_dec (target - current) 0) as [E | E]; [lra |].
      apply Rabs_no_R0 in E. contradiction.
    - cbn [blendFrames]. rewrite S_INR in Hgap.
      destruct (moveTowards_gap acc dec delta current target Hd Ha Hc)
        as [E | E].
      + rewrite E. apply blendFrames_fixed; assumption.
      + apply IH. rewrite E.
        pose proof (blendRate_lower acc dec current target) as Hl.
        assert (Rmin acc dec * delta
                <= blendRate acc dec current target * delta)
          by (apply Rmult_le_compat_r; assumption).
        lra. }
  split; [exact Hreach |].
  intros k. rewrite Hreach. apply blendFrames_fixed; assumption.
Qed.

(** From [1.5] m/s to a stop at the default deceleration. *)
Lemma blending_reaches_target_and_holds_witness :
  blendFrames 18 22 0.05 2 1.5 0 = 0.
Proof.
  apply (blending_reaches_target_and_holds 18 22 0.05 2 1.5 0); try lra.
  replace (0 - 1.5) with (- (1.5)) by lra.
  rewrite Rabs_Ropp, Rabs_right by lra.
  unfold Rmin. destruct (Rle_dec 18 22); cbn [INR]; lra.
Defined.

Lemma ramp_from acc dec delta n : forall current target,
  0 <= delta -> 0 <= acc -> 0 <= dec ->
  0 <= current <= target ->
  blendFrames acc dec delta n current target
  = Rmin target (current + INR n * (acc * delta)).
Proof.
  induction n as [| n IH]; intros current target Hd Ha Hc Hr.
  - cbn [blendFrames INR]. rewrite Rmult_0_l, Rplus_0_r.
    unfold Rmin. destruct (Rle_dec target current); lra.
  - cbn [blendFrames]. rewrite S_INR.
    assert (Had : 0 <= acc * delta) by (apply Rmult_le_pos; assumption).
    assert (Hn : 0 <= INR n * (acc * delta))
      by (apply Rmult_le_pos; [apply pos_INR | exact Had]).
    destruct (Rle_lt_or_eq_dec current target (proj2 Hr)) as [Hlt | Heq].
    + assert (Hrate : blendRate acc dec current target = acc).
      { unfold blendRate.
        replace (js_gt (Rabs target) (Rabs current)) with true; [reflexivity |].
        symmetry; apply js_gt_true. rewrite !Rabs_right by lra. exact Hlt. }
      destruct (moveTowards_cases acc dec delta current target)
        as [[Hle E] | [Hgt E]]; cbv zeta in *; rewrite Hrate in *;
        rewrite E.
      * rewrite blendFrames_fixed by assumption.
        rewrite Rabs_right in Hle by lra.
        unfold Rmin. destruct (Rle_dec target _); lra.
      * rewrite Rabs_right in Hgt by lra.
        rewrite Math_sign_pos by lra.
        rewrite IH by (try assumption; lra).
        f_equal. ring.
    + subst current. rewrite moveTowards_fixed by assumption.
      rewrite blendFrames_fixed by assumption.
      unfold Rmin. destruct (Rle_dec target _); lra.
Qed.

(** X10. Starting from rest toward a target [target >= 0], the blended
    velocity is a linear ramp at the acceleration, capped at the target:
    after [n] frames of [delta] seconds it is
    [min(target, n * acceleration * delta)], whatever the deceleration. *)
Theorem velocity_ramps_up_from_rest
    (acc dec delta : R) (n : nat) (target : R) :
  0 <= delta -> 0 <= acc -> 0 <= dec -> 0 <= target ->
  blendFrames acc dec delta n 0 target
  = Rmin target (INR n * (acc * delta)).
Proof.
  intros Hd Ha Hc Ht.
  rewrite (ramp_from acc dec delta n 0 target) by (try assumption; lra).
  f_equal. ring.
Qed.

(** The walk of the specification: [2] m/s at [18] m/s^2 is reached by the
    seventh frame of [0.016] s. *)
Lemma velocity_ramps_up_from_rest_witness :
  blendFrames 18 22 0.016 7 0 2 = 2.
Proof.
  rewrite (velocity_ramps_up_from_rest 18 22 0.016 7 2) by lra.
  unfold Rmin. destruct (Rle_dec 2 _) as [_ | Hn]; [reflexivity |].
  exfalso; apply Hn. cbn [INR]. lra.
Defined.

(** ** The life of an override *)

Lemma scripted_move_clamps_request_parts `{ThreeCamera} s detail :
  exists o,
    overrideRef (scriptedMoveHandler s detail) = Some o
    /\ timeLeft o = Rmax 0.05 (nullish (optChain detail durationSec) 1.2)
    /\ moveDelayLeft o
       = Rmax 0 (nullish (optChain detail moveDelaySec) 0.35).
Proof.
  unfold scriptedMoveHandler; cbn [overrideRef].
  eexists; split; [reflexivity |]. split; reflexivity.
Qed.

(** X11. Whatever a scripted-move request carries, with [dur] and [delay]
    its clamped duration and start delay: along any run of frames with the
    body present and no further request, the override lives exactly while
    the elapsed frame time is below [dur], with [dur - e] seconds left; it
    lets the body move exactly once [delay <= e]; and once [dur <= e] it is
    gone, with the pointer-lock controls enabled. *)
Theorem override_lives_for_its_duration `{ThreeCamera}
    (p : Props) (s : State) (body : RigidBody)
    (detail : option ScriptedMoveDetail) (l : list Input) :
  bodyRef s = Some body -> Forall quietInput l ->
  let dur := Rmax 0.05 (nullish (optChain detail durationSec) 1.2) in
  let delay := Rmax 0 (nullish (optChain detail moveDelaySec) 0.35) in
  let s1 := run p (scriptedMoveHandler s detail) l in
  let e := elapsed l in
  (e < dur ->
   exists o1,
     overrideRef s1 = Some o1
     /\ timeLeft o1 = dur - e
     /\ moveDelayLeft o1 = Rmax 0 (delay - e)
     /\ (canMove (overrideRef s1) = true <-> delay <= e))
  /\ (dur <= e -> overrideRef s1 = None /\ plcEnabled s1 = true).
Proof.
  intros Hb Hall; cbv zeta.
  destruct (scripted_move_clamps_request_parts s detail) as (o & Ho & Ht & Hm).
  assert (Hb0 : bodyRef (scriptedMoveHandler s detail) = Some body) by exact Hb.
  pose proof (Rmax_lower 0.05 (nullish (optChain detail durationSec) 1.2)) as Hd.
  pose proof (Rmax_lower 0 (nullish (optChain detail moveDelaySec) 0.35)) as Hdl.
  destruct (run_override p l _ body o Hall Hb0 Ho) as (_ & Hin & Hout);
    [rewrite Ht; lra | rewrite Hm; exact Hdl |].
  rewrite Ht in Hin, Hout. split.
  - intros He. destruct (Hin He) as (o1 & Ho1 & (T1 & M1 & _) & _).
    exists o1. rewrite Ho1, T1, M1, Ht, Hm. repeat split.
    + intros Hc. cbn [canMove] in Hc. js_reflect. rewrite M1, Hm in Hc.
      pose proof (Rmax_r 0 (Rmax 0 (nullish (optChain detail moveDelaySec) 0.35)
                            - elapsed l)).
      lra.
    + intros Hc. cbn [canMove]. apply js_le_true. rewrite M1, Hm.
      rewrite Rmax_left_le; lra.
  - exact Hout.
Qed.

(** The approach request of the portal code, [durationSec = 1] with the
    default delay, after three frames. *)
Lemma override_lives_for_its_duration_witness :
  exists o1,
    overrideRef
      (@run exampleCamera sceneProps
         (@scriptedMoveHandler exampleCamera spawnState
            (Some (mkScripted (Some 1) (Some 0.9) None None None None)))
         [Frame 0.016; Frame 0.016; Frame 0.016])
    = Some o1
    /\ timeLeft o1 = Rmax 0.05 1 - (0.016 + (0.016 + (0.016 + 0))).
Proof.
  destruct (@override_lives_for_its_duration exampleCamera sceneProps spawnState
              (mkBody (vec3 8 0 1.5) v_zero)
              (Some (mkScripted (Some 1) (Some 0.9) None None None None))
              [Frame 0.016; Frame 0.016; Frame 0.016] eq_refl)
    as (Hin & _).
  - repeat constructor; cbn; lra.
  - destruct Hin as (o1 & Ho1 & Ht & _).
    + cbn. pose proof (Rmax_lower 0.05 1). lra.
    + exists o1. split; [exact Ho1 | exact Ht].
Defined.

(** X12. A scripted move whose start delay is not shorter than its
    duration never moves the body: as long as it lives the desired
    velocity is zero and [canMove] is false, and the controller is never
    in the moving state of an override. *)
Theorem walk_never_starts_within_long_delay `{ThreeCamera}
    (p : Props) (s : State) (body : RigidBody)
    (detail : option ScriptedMoveDetail) (l : list Input) :
  bodyRef s = Some body -> Forall quietInput l ->
  Rmax 0.05 (nullish (optChain detail durationSec) 1.2)
  <= Rmax 0 (nullish (optChain detail moveDelaySec) 0.35) ->
  let s1 := run p (scriptedMoveHandler s detail) l in
  modeOf s1 <> OVERRIDE_MOVING
  /\ (overrideRef s1 <> None ->
      canMove (overrideRef s1) = false /\ desiredOf p s1 = (0, 0)).
Proof.
  intros Hb Hall Hlong; cbv zeta.
  destruct (scripted_move_clamps_request_parts s detail) as (o & Ho & Ht & Hm).
  assert (Hb0 : bodyRef (scriptedMoveHandler s detail) = Some body) by exact Hb.
  pose proof (Rmax_lower 0.05 (nullish (optChain detail durationSec) 1.2)) as Hd.
  destruct (run_override p l _ body o Hall Hb0 Ho) as (_ & Hin & Hout);
    [rewrite Ht; lra | rewrite Hm; lra |].
  destruct (Rlt_le_dec (elapsed l) (timeLeft o)) as [He | He].
  - destruct (Hin He) as (o1 & Ho1 & (_ & M1 & _) & _).
    assert (Hpos : 0 < moveDelayLeft o1).
    { rewrite M1, Hm. rewrite Ht in He.
      pose proof (Rmax_r 0 (Rmax 0 (nullish (optChain detail moveDelaySec) 0.35)
                            - elapsed l)).
      lra. }
    destruct (delay_phase p _ o1 Ho1 Hpos) as [Hc Hdes].
    split; [| intros _; split; assumption].
    unfold modeOf. rewrite Hc, Ho1. discriminate.
  - destruct (Hout He) as [Hnone _].
    split; [unfold modeOf; rewrite Hnone; discriminate |].
    intros Hne. contradiction.
Qed.

Lemma walk_never_starts_within_long_delay_witness :
  modeOf
    (@run exampleCamera sceneProps
       (@scriptedMoveHandler exampleCamera spawnState
          (Some (mkScripted (Some 0.3) None None None None None)))
       [Frame 0.1; Frame 0.1])
  <> OVERRIDE_MOVING.
Proof.
  apply (@walk_never_starts_within_long_delay exampleCamera sceneProps
           spawnState (mkBody (vec3 8 0 1.5) v_zero)
           (Some (mkScripted (Some 0.3) None None None None None))
           [Frame 0.1; Frame 0.1] eq_refl).
  - repeat constructor; cbn; lra.
  - cbn. rewrite (Rmax_right_le 0.05 0.3) by lra.
    rewrite (Rmax_right_le 0 0.35) by lra. lra.
Defined.

(** ** The door of the basement *)

Lemma doorAnimationFrame_cases delta y d door :
  doorStartRef d = Some door -> openingRef d = true -> 0 <= delta ->
  let target := targetYRef d in
  let reach := 1.2 * delta in
  (0 < Rabs (target - y) <= reach
   /\ doorAnimationFrame delta y d
      = (target,
         mkDoors (doorStartRef d) (doorEndRef d) false (negb (openedRef d))
           (targetYRef d) (initialYRef d)))
  \/ ((Rabs (target - y) = 0 \/ reach < Rabs (target - y))
      /\ doorAnimationFrame delta y d
         = (y + Math_sign (target - y) * 1.2 * delta, d)
      /\ Rabs (target - (y + Math_sign (target - y) * 1.2 * delta))
         = Rabs (target - y) - (if js_eq (target - y) 0 then 0 else reach)).
Proof.
  intros Hs Ho Hd; cbv zeta. unfold doorAnimationFrame. rewrite Hs, Ho.
  set (target := targetYRef d).
  destruct (Rtotal_order (target - y) 0) as [Hn | [Hz | Hp]].
  - rewrite (Math_sign_neg _ Hn). rewrite (Rabs_left _ Hn).
    replace (js_gt (-1 * 1.2 * delta) 0) with false
      by (symmetry; apply js_gt_false; lra).
    cbn [andb orb].
    destruct (js_lt (-1 * 1.2 * delta) 0) eqn:E1;
      destruct (js_le (y + -1 * 1.2 * delta) target) eqn:E2;
      js_reflect; cbn [andb].
    + left. split; [lra | reflexivity].
    + right. split; [right; lra |]. split; [reflexivity |].
      replace (js_eq (target - y) 0) with false
        by (symmetry; apply js_eq_false; lra).
      rewrite Rabs_left by lra. ring.
    + right. assert (delta = 0) by lra. subst delta.
      split; [right; lra |]. lra.
    + right. assert (delta = 0) by lra. subst delta.
      split; [right; lra |]. split; [reflexivity |].
      replace (js_eq (target - y) 0) with false
        by (symmetry; apply js_eq_false; lra).
      rewrite Rabs_left by lra. ring.
  - right. rewrite Hz, Rabs_R0.
    assert (Hs0 : Math_sign 0 = 0)
      by (unfold Math_sign; repeat js_case; lra).
    rewrite Hs0.
    replace (js_gt (0 * 1.2 * delta) 0) with false
      by (symmetry; apply js_gt_false; lra).
    replace (js_lt (0 * 1.2 * delta) 0) with false
      by (symmetry; apply js_lt_false; lra).
    cbn [andb orb].
    split; [left; reflexivity |]. split; [reflexivity |].
    replace (js_eq 0 0) with true by (symmetry; apply js_eq_true; reflexivity).
    replace (target - (y + 0 * 1.2 * delta)) with 0 by lra.
    rewrite Rabs_R0. ring.
  - rewrite (Math_sign_pos _ Hp). rewrite (Rabs_right _ (Rgt_ge _ _ Hp)).
    replace (js_lt (1 * 1.2 * delta) 0) with false
      by (symmetry; apply js_lt_false; lra).
    rewrite andb_false_l, orb_false_r.
    destruct (js_gt (1 * 1.2 * delta) 0) eqn:E1;
      destruct (js_ge (y + 1 * 1.2 * delta) target) eqn:E2;
      js_reflect; cbn [andb].
    + left. split; [lra | reflexivity].
    + right. split; [right; lra |]. split; [reflexivity |].
      replace (js_eq (target - y) 0) with false
        by (symmetry; apply js_eq_false; lra).
      rewrite Rabs_right by lra. ring.
    + right. assert (delta = 0) by lra. subst delta.
      split; [right; lra |]. lra.
    + right. assert (delta = 0) by lra. subst delta.
      split; [right; lra |]. split; [reflexivity |].
      replace (js_eq (target - y) 0) with false
        by (symmetry; apply js_eq_false; lra).
      rewrite Rabs_right by lra. ring.
Qed.

(** X13. A frame of the door animation never overshoots: the new rotation
    lies between the old one and the target.  It lands exactly on the
    target, ends the animation and flips [openedRef] exactly when the
    target is away, but within [1.2 * delta]; any other frame moves the
    door by [1.2 * delta] toward the target and leaves the refs alone. *)
Theorem door_animation_never_overshoots
    (delta y : R) (d : DoorRefs) (door : Object3D) :
  doorStartRef d = Some door -> openingRef d = true -> 0 <= delta ->
  let target := targetYRef d in
  let y' := fst (doorAnimationFrame delta y d) in
  let d' := snd (doorAnimationFrame delta y d) in
  between y target y'
  /\ Rabs (target - y') <= Rabs (target - y)
  /\ (0 < Rabs (target - y) <= 1.2 * delta ->
      y' = target /\ openingRef d' = false
      /\ openedRef d' = negb (openedRef d))
  /\ (~ (0 < Rabs (target - y) <= 1.2 * delta) ->
      d' = d /\ y' = y + Math_sign (target - y) * 1.2 * delta).
Proof.
  intros Hs Ho Hd; cbv zeta.
  destruct (doorAnimationFrame_cases delta y d door Hs Ho Hd)
    as [[Hgap ->] | [Hgap [-> Hnew]]]; cbv zeta in *; cbn [fst snd].
  - split; [| split; [| split]].
    + unfold between. destruct (Rle_dec y (targetYRef d)); [left | right]; lra.
    + replace (targetYRef d - targetYRef d) with 0 by ring.
      rewrite Rabs_R0. apply Rabs_pos.
    + intros _. repeat split.
    + intros Hn. contradiction.
  - assert (Hstep : 0 <= (if js_eq (targetYRef d - y) 0 then 0 else 1.2 * delta))
      by (destruct (js_eq _ _); lra).
    split; [| split; [| split]].
    + unfold between.
      destruct (Rtotal_order (targetYRef d - y) 0) as [Hn | [Hz | Hp]].
      * rewrite (Math_sign_neg _ Hn). rewrite (Rabs_left _ Hn) in Hgap.
        right. destruct Hgap as [Hg | Hg]; lra.
      * rewrite Hz.
        assert (Hs0 : Math_sign 0 = 0)
          by (unfold Math_sign; repeat js_case; lra).
        rewrite Hs0. left. lra.
      * rewrite (Math_sign_pos _ Hp).
        rewrite (Rabs_right _ (Rgt_ge _ _ Hp)) in Hgap.
        left. destruct Hgap as [Hg | Hg]; lra.
    + rewrite Hnew. lra.
    + intros [Hpos Hle]. destruct Hgap as [Hg | Hg]; lra.
    + intros _. split; reflexivity.
Qed.

Lemma door_animation_never_overshoots_witness :
  between 0 (targetYRef (fst (openStartDoor true exampleDoors)))
    (fst (doorAnimationFrame 0.016 0
            (fst (openStartDoor true exampleDoors)))).
Proof.
  destruct (door_animation_never_overshoots 0.016 0
              (fst (openStartDoor true exampleDoors))
              (mkObject (m_translation 0 0 0)) eq_refl eq_refl)
    as (Hb & _); [lra |].
  exact Hb.
Defined.

Lemma doorAnimationFrames_idle delta n y d :
  openingRef d = false -> doorAnimationFrames delta n y d = (y, d).
Proof.
  intros Ho. induction n as [| n IH]; [reflexivity |].
  cbn [doorAnimationFrames]. unfold doorAnimationFrame.
  destruct (doorStartRef d); rewrite ?Ho; exact IH.
Qed.

Lemma doorAnimationFrames_reach delta n : forall y d door,
  doorStartRef d = Some door -> openingRef d = true -> 0 <= delta ->
  0 < Rabs (targetYRef d - y) <= INR n * (1.2 * delta) ->
  doorAnimationFrames delta n y d
  = (targetYRef d,
     mkDoors (doorStartRef d) (doorEndRef d) false (negb (openedRef d))
       (targetYRef d) (initialYRef d)).
Proof.
  induction n as [| n IH]; intros y d door Hs Ho Hd [Hpos Hle].
  - cbn [INR] in Hle. lra.
  - cbn [doorAnimationFrames]. rewrite S_INR in Hle.
    destruct (doorAnimationFrame_cases delta y d door Hs Ho Hd)
      as [[_ ->] | [Hgap [-> Hnew]]]; cbv zeta in *.
    + apply doorAnimationFrames_idle. reflexivity.
    + assert (Hne : js_eq (targetYRef d - y) 0 = false).
      { apply js_eq_false. intros E. rewrite E, Rabs_R0 in Hpos. lra. }
      rewrite Hne in Hnew.
      destruct Hgap as [Hz | Hfar]; [lra |].
      apply (IH _ d door Hs Ho Hd). rewrite Hnew. lra.
Qed.

(** X14. The door animation completes: once [n] frames of [delta] seconds
    cover the angle to the target at [1.2] rad/s, the door is exactly at
    the target, the animation has ended and [openedRef] has flipped
    once. *)
Theorem door_animation_completes
    (delta : R) (n : nat) (y : R) (d : DoorRefs) (door : Object3D) :
  doorStartRef d = Some door -> openingRef d = true -> 0 <= delta ->
  0 < Rabs (targetYRef d - y) <= INR n * (1.2 * delta) ->
  let r := doorAnimationFrames delta n y d in
  fst r = targetYRef d
  /\ openingRef (snd r) = false
  /\ openedRef (snd r) = negb (openedRef d)
  /\ targetYRef (snd r) = targetYRef d
  /\ forall k, doorAnimationFrames delta k (fst r) (snd r) = r.
Proof.
  intros Hs Ho Hd Hgap; cbv zeta.
  rewrite (doorAnimationFrames_reach delta n y d door Hs Ho Hd Hgap).
  cbn [fst snd openingRef openedRef targetYRef]. repeat split.
  intros k. apply doorAnimationFrames_idle. reflexivity.
Qed.

Lemma quarter_turn_frames : PI / 2 <= INR 105 * (1.2 * 0.016).
Proof.
  assert (E : INR 105 = 105) by (rewrite INR_IZR_INZ; reflexivity).
  rewrite E. pose proof PI_4. lra.
Qed.

Lemma door_animation_completes_witness :
  fst (doorAnimationFrames 0.016 105 0 (fst (openStartDoor true exampleDoors)))
  = 0 - PI / 2.
Proof.
  destruct (door_animation_completes 0.016 105 0
              (fst (openStartDoor true exampleDoors))
              (mkObject (m_translation 0 0 0)) eq_refl eq_refl)
    as (Hy & _).
  - lra.
  - cbn [targetYRef fst openStartDoor exampleDoors doorStartRef initialYRef].
    pose proof PI2_1 as Hq. pose proof quarter_turn_frames as Hf.
    replace (0 - PI / 2 - 0) with (- (PI / 2)) by ring.
    rewrite Rabs_Ropp, Rabs_right by lra. lra.
  - exact Hy.
Defined.

(** X15. The door animation stalls where it cannot make a step: with the
    door already at its target, or with [delta = 0], every frame leaves the
    rotation and the refs as they are, so [openingRef] stays set. *)
Theorem door_animation_stalls_at_target
    (delta : R) (n : nat) (y : R) (d : DoorRefs) (door : Object3D) :
  doorStartRef d = Some door -> openingRef d = true -> 0 <= delta ->
  targetYRef d = y \/ delta = 0 ->
  doorAnimationFrames delta n y d = (y, d)
  /\ openingRef (snd (doorAnimationFrames delta n y d)) = true.
Proof.
  intros Hs Ho Hd Hstall.
  assert (E : doorAnimationFrames delta n y d = (y, d)).
  { induction n as [| n IH]; [reflexivity |].
    cbn [doorAnimationFrames].
    destruct (doorAnimationFrame_cases delta y d door Hs Ho Hd)
      as [[[Hpos Hle] _] | [_ [-> _]]]; cbv zeta in *.
    - destruct Hstall as [Ht | Hz].
      + rewrite Ht in Hpos.
        replace (y - y) with 0 in Hpos by ring. rewrite Rabs_R0 in Hpos. lra.
      + subst delta. lra.
    - replace (y + Math_sign (targetYRef d - y) * 1.2 * delta) with y; [exact IH |].
      destruct Hstall as [Ht | Hz].
      + rewrite Ht. replace (y - y) with 0 by ring.
        assert (Hs0 : Math_sign 0 = 0)
          by (unfold Math_sign; repeat js_case; lra).
        rewrite Hs0. ring.
      + subst delta. ring. }
  rewrite E. split; [reflexivity | exact Ho].
Qed.

(** The door asked to open while it is open already. *)
Lemma door_animation_stalls_at_target_witness :
  openingRef
    (snd (doorAnimationFrames 0.016 50 (0 - PI / 2)
            (fst (openStartDoor true exampleDoors))))
  = true.
Proof.
  apply (door_animation_stalls_at_target 0.016 50 (0 - PI / 2)
           (fst (openStartDoor true exampleDoors))
           (mkObject (m_translation 0 0 0)) eq_refl eq_refl).
  - lra.
  - left. reflexivity.
Defined.

(** X16. Opening and closing is a round trip for the rotation, not for
    [openedRef]: from a closed door at its initial rotation, enough frames
    after [openStartDoor] bring it to [initialY - PI / 2], and enough
    frames after [closeDoor] bring it back to [initialY] exactly, with the
    animation ended; [openedRef], which [closeDoor] clears and the end of
    the animation flips, is then set. *)
Theorem door_open_close_round_trip
    (delta : R) (n m : nat) (w : bool) (d : DoorRefs) (door : Object3D) :
  doorStartRef d = Some door -> 0 <= delta ->
  PI / 2 <= INR n * (1.2 * delta) -> PI / 2 <= INR m * (1.2 * delta) ->
  let d1 := fst (openStartDoor w d) in
  let r1 := doorAnimationFrames delta n (initialYRef d) d1 in
  let d2 := fst (closeDoor (snd r1)) in
  let r2 := doorAnimationFrames delta m (fst r1) d2 in
  fst r1 = initialYRef d - PI / 2
  /\ openedRef (snd r1) = negb (openedRef d)
  /\ fst r2 = initialYRef d
  /\ openingRef (snd r2) = false
  /\ openedRef (snd r2) = true.
Proof.
  intros Hs Hd Hn Hm; cbv zeta.
  pose proof PI2_1 as Hq.
  assert (E1 : fst (openStartDoor w d)
               = mkDoors (doorStartRef d) (doorEndRef d) true (openedRef d)
                   (initialYRef d - PI / 2) (initialYRef d))
    by (unfold openStartDoor; rewrite Hs; reflexivity).
  rewrite E1.
  rewrite (doorAnimationFrames_reach delta n (initialYRef d) _ door);
    [| cbn [doorStartRef]; first [exact Hs | reflexivity] | reflexivity | exact Hd |].
  2:{ cbn [targetYRef].
      replace (initialYRef d - PI / 2 - initialYRef d) with (- (PI / 2)) by ring.
      rewrite Rabs_Ropp, Rabs_right by lra. lra. }
  cbn [fst snd doorStartRef doorEndRef openedRef targetYRef initialYRef].
  unfold closeDoor; cbn [doorStartRef]. rewrite Hs.
  cbn [fst doorStartRef doorEndRef initialYRef].
  rewrite (doorAnimationFrames_reach delta m _ _ door);
    [| cbn [doorStartRef]; first [exact Hs | reflexivity] | reflexivity | exact Hd |].
  2:{ cbn [targetYRef].
      replace (initialYRef d - (initialYRef d - PI / 2)) with (PI / 2) by ring.
      rewrite Rabs_right by lra. lra. }
  cbn [fst snd openingRef openedRef targetYRef negb]. repeat split.
Qed.

Lemma door_open_close_round_trip_witness :
  fst (doorAnimationFrames 0.016 105
         (fst (doorAnimationFrames 0.016 105 (initialYRef exampleDoors)
                 (fst (openStartDoor true exampleDoors))))
         (fst (closeDoor
                 (snd (doorAnimationFrames 0.016 105 (initialYRef exampleDoors)
                         (fst (openStartDoor true exampleDoors)))))))
  = initialYRef exampleDoors.
Proof.
  destruct (door_open_close_round_trip 0.016 105 105 true exampleDoors
              (mkObject (m_translation 0 0 0)) eq_refl)
    as (_ & _ & Hback & _).
  - lra.
  - exact quarter_turn_frames.
  - exact quarter_turn_frames.
  - exact Hback.
Defined.

(** ** The portal and the interact key *)

(** X17. [tryDoorEndTeleport] either does nothing and returns false, or
    returns true after exactly one teleport request followed by the
    door-opening sequence (sound, scripted walk, close timer).  The
    approach walk and its retry timer are never issued: their distance
    test repeats the one that has already returned. *)
Theorem portal_never_schedules_a_retry
    (d : DoorRefs) (cameraPosition : Vector3) :
  let r := tryDoorEndTeleport d cameraPosition in
  (snd r = false /\ fst r = (d, []))
  \/ (snd r = true
      /\ exists doorEnd doorStart,
          doorEndRef d = Some doorEnd /\ doorStartRef d = Some doorStart
          /\ v_distanceTo (getWorldPosition doorEnd) cameraPosition <= 1
          /\ fst r
             = (fst (openStartDoor true d),
                DispatchEvent
                  (TeleportEvent
                     (Some (portalTeleportDetail doorEnd doorStart
                              cameraPosition)))
                :: snd (openStartDoor true d))).
Proof.
  cbv zeta. unfold tryDoorEndTeleport.
  destruct (doorEndRef d) as [doorEnd |] eqn:He; [| left; split; reflexivity].
  destruct (doorStartRef d) as [doorStart |] eqn:Hs; [| left; split; reflexivity].
  destruct (js_gt (v_distanceTo (getWorldPosition doorEnd) cameraPosition) 1.0)
    eqn:E; js_reflect; [left; split; reflexivity |].
  right.
  replace (js_gt (v_distanceTo (getWorldPosition doorEnd) cameraPosition) 1)
    with false by (symmetry; apply js_gt_false; lra).
  destruct (openStartDoor true d) as [d' opened] eqn:Eo.
  cbn [fst snd app]. split; [reflexivity |].
  exists doorEnd, doorStart. repeat split. lra.
Qed.

Lemma doorWalk_request_override `{ThreeCamera} s lookAtPoint :
  overrideRef
    (scriptedMoveHandler s
       (Some (mkScripted (Some 2.2) (Some 2.4) (Some true) (Some lookAtPoint)
                (Some 2.5) (Some 0.35))))
  = Some (mkOverride 2.2 2.2 (2.4 / 2.2) (captureForward (camera s)) true
            (Some lookAtPoint) (Some 2.5) 0.35).
Proof.
  unfold scriptedMoveHandler; cbn.
  rewrite !Rmax_right_le by lra. reflexivity.
Qed.

(** X18. A portal teleport does not leave the controller free: the
    door-opening walk is requested right after it.  The controller ends in
    the start delay of that walk, at rest, with the pointer-lock controls
    disabled, looking toward the point [10] m before [DoorStart] along X,
    and the walk will go along the view direction of the yaw the teleport
    has just set. *)
Theorem portal_ends_in_scripted_walk `{ThreeCamera}
    (s : State) (d : DoorRefs) (body : RigidBody)
    (doorEnd doorStart : Object3D) :
  bodyRef s = Some body ->
  doorEndRef d = Some doorEnd -> doorStartRef d = Some doorStart ->
  v_distanceTo (getWorldPosition doorEnd) (position (camera s)) <= 1 ->
  let cam := position (camera s) in
  let s' := fst (fst (interactAtDoorEnd s d)) in
  let turned :=
    mkCamera cam
      (mkEuler (rot_x (rotation (camera s))) (portalYaw doorEnd doorStart cam)
         (rot_z (rotation (camera s))) YXZ) in
  let startPos := getWorldPosition doorStart in
  overrideRef s'
  = Some (mkOverride 2.2 2.2 (2.4 / 2.2) (captureForward turned) true
            (Some (vec3 (vx startPos - 10) (vy startPos) (vz startPos)))
            (Some 2.5) 0.35)
  /\ modeOf s' = OVERRIDE_DELAY
  /\ plcEnabled s' = false
  /\ (exists body', bodyRef s' = Some body' /\ linvel body' = vec3 0 0 0)
  /\ openingRef (snd (fst (interactAtDoorEnd s d))) = true.
Proof.
  intros Hb He Hs Hdist; cbv zeta.
  unfold interactAtDoorEnd, tryDoorEndTeleport. rewrite He, Hs.
  replace (js_gt (v_distanceTo (getWorldPosition doorEnd) (position (camera s))) 1.0)
    with false by (symmetry; apply js_gt_false; lra).
  replace (js_gt (v_distanceTo (getWorldPosition doorEnd) (position (camera s))) 1)
    with false by (symmetry; apply js_gt_false; lra).
  unfold openStartDoor. rewrite Hs.
  cbn [app deliver fold_left handleEvent fst snd openingRef].
  set (tele := teleportHandler s
                 (Some (portalTeleportDetail doorEnd doorStart
                          (position (camera s))))).
  assert (Etele : tele
                  = mkState
                      (Some (mkBody
                               (vec3 (vx (portalTargetWorld doorEnd doorStart
                                            (position (camera s))) + 0.8)
                                  (vy (translation body))
                                  (vz (portalTargetWorld doorEnd doorStart
                                         (position (camera s)))))
                               (vec3 0 0 0)))
                      None (bobRef s)
                      (mkCamera (position (camera s))
                         (mkEuler (rot_x (rotation (camera s)))
                            (portalYaw doorEnd doorStart (position (camera s)))
                            (rot_z (rotation (camera s))) YXZ))
                      true (setMoveAxes 0 0 (input s)))
    by (unfold tele, teleportHandler; rewrite Hb; reflexivity).
  rewrite doorWalk_request_override.
  split; [rewrite Etele; reflexivity |].
  split.
  { unfold modeOf. rewrite doorWalk_request_override.
    cbn [canMove moveDelayLeft].
    replace (js_le 0.35 0) with false by (symmetry; apply js_le_false; lra).
    reflexivity. }
  split; [reflexivity |]. split; [| reflexivity].
  unfold scriptedMoveHandler; cbn [bodyRef]. rewrite Etele; cbn [bodyRef].
  eexists; split; reflexivity.
Qed.

Lemma portal_ends_in_scripted_walk_witness :
  modeOf (fst (fst (@interactAtDoorEnd exampleCamera spawnState exampleDoors)))
  = OVERRIDE_DELAY.
Proof.
  apply (@portal_ends_in_scripted_walk exampleCamera spawnState exampleDoors
           (mkBody (vec3 8 0 1.5) v_zero)
           (mkObject (m_translation 8 0.8 1.5))
           (mkObject (m_translation 0 0 0))
           eq_refl eq_refl eq_refl exampleDoors_in_reach).
Defined.

(** X19. The interact key out of reach does nothing: when the camera is
    more than [1] m from [DoorEnd] (or a door is missing) and more than
    [1] m from [DoorStart] (or that door is missing), no effect is issued
    and the refs are unchanged. *)
Theorem interact_out_of_reach_does_nothing
    (d : DoorRefs) (cameraPosition : Vector3) :
  (forall doorEnd, doorEndRef d = Some doorEnd -> doorStartRef d <> None ->
     1 < v_distanceTo (getWorldPosition doorEnd) cameraPosition) ->
  (forall doorStart, doorStartRef d = Some doorStart ->
     1 < v_distanceTo (getWorldPosition doorStart) cameraPosition) ->
  onInteract d cameraPosition = (d, []).
Proof.
  intros Hend Hstart. unfold onInteract, tryDoorEndTeleport, tryOpenStart.
  destruct (doorStartRef d) as [doorStart |] eqn:Hs.
  - specialize (Hstart doorStart eq_refl).
    destruct (doorEndRef d) as [doorEnd |] eqn:He.
    + assert (Hfar : 1 < v_distanceTo (getWorldPosition doorEnd) cameraPosition)
        by (apply Hend; [reflexivity | discriminate]).
      replace (js_gt (v_distanceTo (getWorldPosition doorEnd) cameraPosition) 1.0)
        with true by (symmetry; apply js_gt_true; lra).
      rewrite ?Hs.
      replace (js_le (v_distanceTo (getWorldPosition doorStart) cameraPosition) 1.0)
        with false by (symmetry; apply js_le_false; lra).
      reflexivity.
    + rewrite ?Hs.
      replace (js_le (v_distanceTo (getWorldPosition doorStart) cameraPosition) 1.0)
        with false by (symmetry; apply js_le_false; lra).
      reflexivity.
  - destruct (doorEndRef d); rewrite ?Hs; reflexivity.
Qed.

Lemma far_from_example_doors :
  1 < v_distanceTo (vec3 8 0.8 1.5) (vec3 8 0.8 4.5)
  /\ 1 < v_distanceTo (vec3 0 0 0) (vec3 8 0.8 4.5).
Proof.
  unfold v_distanceTo, v_length, v_lengthSq, v_sub; cbn [vx vy vz].
  split.
  - replace ((8 - 8) * (8 - 8) + (0.8 - 0.8) * (0.8 - 0.8)
             + (1.5 - 4.5) * (1.5 - 4.5)) with (3 * 3) by lra.
    rewrite sqrt_square; lra.
  - rewrite <- sqrt_1 at 1. apply sqrt_lt_1; lra.
Qed.

Lemma interact_out_of_reach_does_nothing_witness :
  onInteract exampleDoors (vec3 8 0.8 4.5) = (exampleDoors, []).
Proof.
  apply (interact_out_of_reach_does_nothing exampleDoors (vec3 8 0.8 4.5)).
  - intros doorEnd E _. injection E as <-. apply far_from_example_doors.
  - intros doorStart E. injection E as <-. apply far_from_example_doors.
Defined.

(** ** Walls *)

Lemma sqrt_polar x y :
  x <> 0 -> x * x + y * y = 1 -> sqrt (1 + (y / x)²) = / Rabs x.
Proof.
  intros Hx Hu.
  assert (Hax : 0 < Rabs x) by (apply Rabs_pos_lt; exact Hx).
  apply sqrt_lem_1.
  - unfold Rsqr. pose proof (Rle_0_sqr (y / x)) as Hs. unfold Rsqr in Hs. lra.
  - left. apply Rinv_0_lt_compat. exact Hax.
  - unfold Rsqr.
    assert (Hsq : Rabs x * Rabs x = x * x).
    { unfold Rabs. destruct (Rcase_abs x); ring. }
    assert (Hne : Rabs x <> 0) by lra.
    replace (/ Rabs x * / Rabs x) with (/ (Rabs x * Rabs x)) by (field; exact Hne).
    rewrite Hsq.
    replace (1 + y / x * (y / x)) with ((x * x + y * y) / (x * x))
      by (field; exact Hx).
    rewrite Hu. field. exact Hx.
Qed.

Lemma Math_atan2_polar x y :
  x * x + y * y = 1 ->
  cos (Math_atan2 y x) = x /\ sin (Math_atan2 y x) = y.
Proof.
  intros Hu. unfold Math_atan2.
  destruct (js_gt x 0) eqn:Gx; js_reflect.
  - rewrite cos_atan, sin_atan, (sqrt_polar x y) by lra.
    rewrite Rabs_right by lra. split; field; lra.
  - destruct (js_lt x 0) eqn:Lx; js_reflect.
    + assert (Hc : cos (atan (y / x)) = - x).
      { rewrite cos_atan, (sqrt_polar x y) by lra.
        rewrite Rabs_left by lra. field. lra. }
      assert (Hs : sin (atan (y / x)) = - y).
      { rewrite sin_atan, (sqrt_polar x y) by lra.
        rewrite Rabs_left by lra. field. lra. }
      destruct (js_ge y 0).
      * rewrite neg_cos, neg_sin, Hc, Hs. split; ring.
      * rewrite cos_minus, sin_minus, cos_PI, sin_PI, Hc, Hs. split; ring.
    + assert (x = 0) by lra. subst x.
      assert (Hy : y * y = 1) by lra.
      destruct (js_gt y 0) eqn:Gy; js_reflect.
      * rewrite cos_PI2, sin_PI2. split; [reflexivity | nra].
      * destruct (js_lt y 0) eqn:Ly; js_reflect.
        -- rewrite cos_neg, sin_neg, cos_PI2, sin_PI2. split; [reflexivity | nra].
        -- assert (y = 0) by lra. subst y. lra.
Qed.

Lemma wall_points_distinct startPos endPos :
  startPos <> endPos -> 0 < v_lengthSq (v_sub endPos startPos).
Proof.
  intros Hne.
  pose proof (v_lengthSq_nonneg (v_sub endPos startPos)) as Hn.
  destruct (Req_dec (v_lengthSq (v_sub endPos startPos)) 0) as [E | E];
    [| lra].
  exfalso; apply Hne.
  unfold v_lengthSq, v_sub in E; cbn [vx vy vz] in E.
  destruct startPos as [a b c], endPos as [a' b' c']; cbn [vx vy vz] in E.
  pose proof (Rle_0_sqr (a' - a)) as Ha. unfold Rsqr in Ha.
  pose proof (Rle_0_sqr (b' - b)) as Hb. unfold Rsqr in Hb.
  pose proof (Rle_0_sqr (c' - c)) as Hc. unfold Rsqr in Hc.
  assert (Ea : (a' - a) * (a' - a) = 0) by lra.
  assert (Eb : (b' - b) * (b' - b) = 0) by lra.
  assert (Ec : (c' - c) * (c' - c) = 0) by lra.
  apply Rmult_integral in Ea, Eb, Ec.
  apply vec3_ext; [destruct Ea | destruct Eb | destruct Ec]; lra.
Qed.

Lemma Wall_rotation_polar startPos endPos height depth :
  startPos <> endPos -> vy startPos = vy endPos ->
  let w := Wall startPos endPos height depth in
  let direction := wallDirection startPos endPos in
  cos (colliderRotationY w) = vx direction
  /\ sin (colliderRotationY w) = vz direction
  /\ vx direction * wallLength startPos endPos = vx endPos - vx startPos
  /\ vz direction * wallLength startPos endPos = vz endPos - vz startPos.
Proof.
  intros Hne Hy; cbv zeta.
  pose proof (wall_points_distinct startPos endPos Hne) as Hpos.
  destruct (v_normalize_unit _ Hpos) as [Hu Hflat].
  assert (Hdy : vy (wallDirection startPos endPos) = 0).
  { apply Hflat. unfold v_sub; cbn [vy]. lra. }
  unfold wallDirection in *.
  set (direction := v_normalize (v_sub endPos startPos)) in *.
  assert (Hxz : vx direction * vx direction + vz direction * vz direction = 1).
  { unfold v_lengthSq in Hu. rewrite Hdy in Hu. lra. }
  unfold Wall; cbn [colliderRotationY].
  fold direction.
  destruct (Math_atan2_polar (vx direction) (vz direction) Hxz) as [Hc Hs].
  split; [exact Hc |]. split; [exact Hs |].
  pose proof (sqrt_lt_R0 _ Hpos) as Hl.
  unfold direction, wallLength, v_normalize, v_length.
  set (len := sqrt (v_lengthSq (v_sub endPos startPos))) in *.
  destruct (js_eq len 0) eqn:E; js_reflect; [lra |].
  unfold v_multiplyScalar, v_sub; cbn [vx vy vz]. clearbody len.
  split; field; exact E.
Qed.

Lemma Wall_colliderEnd startPos endPos height depth side :
  startPos <> endPos -> vy startPos = vy endPos ->
  colliderEnd (Wall startPos endPos height depth) side
  = vec3 ((vx startPos + vx endPos) / 2
          + side * ((vx endPos - vx startPos) / 2))
         (vy startPos + height / 2)
         ((vz startPos + vz endPos) / 2
          - side * ((vz endPos - vz startPos) / 2)).
Proof.
  intros Hne Hy.
  destruct (Wall_rotation_polar startPos endPos height depth Hne Hy)
    as (Hc & Hs & Hx & Hz).
  unfold colliderEnd, colliderAxis, v_applyRotationY.
  rewrite Hc, Hs, <- Hx, <- Hz.
  unfold Wall; cbn [halfExtents colliderPosition vx vy vz].
  unfold wallMidpoint, v_addScaledVector, v_multiplyScalar, v_add;
    cbn [vx vy vz].
  rewrite Hy.
  generalize (wallLength startPos endPos) (wallDirection startPos endPos).
  intros len direction. replace 0.5 with (1 / 2) by lra.
  apply vec3_ext; field.
Qed.

(** X20. The box of a wall collider is the wall mirrored in Z.  For a level
    wall with distinct end points the rotation [atan2(direction.z,
    direction.x)] about Y turns the long axis of the box to
    [(direction.x, 0, - direction.z)], so that the two ends of the box are
    [(endPos.x, startPos.z)] and [(startPos.x, endPos.z)] in the ground
    plane, at the middle of the height of the wall.  The box is centred on
    the midpoint of the wall, lifted by half its height.  A wall of length
    zero has a box of zero length and the rotation [0]. *)
Theorem wall_collider_ends_are_mirrored
    (startPos endPos : Vector3) (height depth : R) :
  let w := Wall startPos endPos height depth in
  let direction := wallDirection startPos endPos in
  (startPos <> endPos -> vy startPos = vy endPos ->
   colliderAxis w = vec3 (vx direction) 0 (- vz direction)
   /\ colliderEnd w 1
      = vec3 (vx endPos) (vy endPos + height / 2) (vz startPos)
   /\ colliderEnd w (-1)
      = vec3 (vx startPos) (vy startPos + height / 2) (vz endPos))
  /\ colliderPosition w
     = vec3 (vx (wallMidpoint startPos endPos))
            (vy (wallMidpoint startPos endPos) + vy (halfExtents w))
            (vz (wallMidpoint startPos endPos))
  /\ (startPos = endPos ->
      vx (halfExtents w) = 0 /\ colliderRotationY w = 0).
Proof.
  cbv zeta. split; [| split].
  - intros Hne Hy.
    destruct (Wall_rotation_polar startPos endPos height depth Hne Hy)
      as (Hc & Hs & _).
    split; [| split].
    + unfold colliderAxis, v_applyRotationY. rewrite Hc, Hs.
      cbn [vx vy vz]. apply vec3_ext; ring.
    + rewrite Wall_colliderEnd by assumption. rewrite Hy.
      apply vec3_ext; lra.
    + rewrite Wall_colliderEnd by assumption.
      apply vec3_ext; lra.
  - reflexivity.
  - intros ->.
    assert (Hz : v_sub endPos endPos = v_zero)
      by (unfold v_sub, v_zero; apply vec3_ext; ring).
    assert (Hl : v_length v_zero = 0).
    { unfold v_length, v_lengthSq, v_zero; cbn [vx vy vz].
      replace (0 * 0 + 0 * 0 + 0 * 0) with 0 by ring. apply sqrt_0. }
    unfold Wall, wallDirection, wallLength; cbn [halfExtents colliderRotationY vx].
    rewrite Hz, Hl. split; [lra |].
    unfold v_normalize. rewrite Hl.
    replace (js_eq 0 0) with true by (symmetry; apply js_eq_true; reflexivity).
    unfold v_multiplyScalar, v_zero; cbn [vx vy vz].
    replace (0 * (1 / 1)) with 0 by lra. apply Math_atan2_zero.
Qed.

(** The slanted wall of the basement: its box ends at [z = 1.3] where the
    wall ends at [z = 1.32], and the other way round. *)
Lemma wall_collider_ends_are_mirrored_witness :
  vec3 (-10.5) 0 1.3 <> vec3 (-12) 0 1.32
  /\ colliderEnd (Wall (vec3 (-10.5) 0 1.3) (vec3 (-12) 0 1.32) 2 0.7) 1
     = vec3 (-12) (0 + 2 / 2) 1.3
  /\ colliderEnd (Wall (vec3 (-10.5) 0 1.3) (vec3 (-12) 0 1.32) 2 0.7) (-1)
     = vec3 (-10.5) (0 + 2 / 2) 1.32.
Proof.
  assert (Hne : vec3 (-10.5) 0 1.3 <> vec3 (-12) 0 1.32)
    by (intros E; apply (f_equal vx) in E; cbn [vx] in E; lra).
  split; [exact Hne |].
  destruct (wall_collider_ends_are_mirrored
              (vec3 (-10.5) 0 1.3) (vec3 (-12) 0 1.32) 2 0.7)
    as (Hends & _).
  destruct (Hends Hne eq_refl) as (_ & Hplus & Hminus).
  split; [exact Hplus | exact Hminus].
Defined.

(** X24. The box of a wall collider lies along the wall exactly when the
    wall runs along the world X axis or along the world Z axis: for a
    level wall with distinct end points, the two ends of the box are the
    end points of the wall (at the middle of its height, in either order)
    if and only if the end points agree in X or in Z. *)
Theorem wall_collider_covers_axis_aligned_walls_only
    (startPos endPos : Vector3) (height depth : R) :
  startPos <> endPos -> vy startPos = vy endPos ->
  (coversWall startPos endPos height depth
   <-> (vx startPos = vx endPos \/ vz startPos = vz endPos)).
Proof.
  intros Hne Hy. unfold coversWall; cbv zeta.
  rewrite !Wall_colliderEnd by assumption.
  split.
  - intros [[E _] | [E _]].
    + right. apply (f_equal vz) in E. cbn [vz] in E. lra.
    + left. apply (f_equal vx) in E. cbn [vx] in E. lra.
  - intros [E | E].
    + right. split; apply vec3_ext; lra.
    + left. split; apply vec3_ext; lra.
Qed.

(** The first wall of the basement (along X) and the fourth (along Z) are
    covered by their boxes; the slanted fifth wall is not. *)
Lemma wall_collider_covers_axis_aligned_walls_only_witness :
  coversWall (vec3 (-0.1) 0 1) (vec3 (-9.68) 0 1) 3.1 0.2
  /\ coversWall (vec3 (-11.1) 0 (-1)) (vec3 (-11.1) 0 (-6.7)) 3 0.2
  /\ ~ coversWall (vec3 (-10.5) 0 1.3) (vec3 (-12) 0 1.32) 2 0.7.
Proof.
  split; [| split].
  - apply (wall_collider_covers_axis_aligned_walls_only
             (vec3 (-0.1) 0 1) (vec3 (-9.68) 0 1) 3.1 0.2).
    + intros E. apply (f_equal vx) in E. cbn [vx] in E. lra.
    + reflexivity.
    + right. reflexivity.
  - apply (wall_collider_covers_axis_aligned_walls_only
             (vec3 (-11.1) 0 (-1)) (vec3 (-11.1) 0 (-6.7)) 3 0.2).
    + intros E. apply (f_equal vz) in E. cbn [vz] in E. lra.
    + reflexivity.
    + left. reflexivity.
  - intros Hc.
    apply (wall_collider_covers_axis_aligned_walls_only
             (vec3 (-10.5) 0 1.3) (vec3 (-12) 0 1.32) 2 0.7) in Hc.
    + destruct Hc as [E | E]; cbn [vx vz] in E; lra.
    + intros E. apply (f_equal vx) in E. cbn [vx] in E. lra.
    + reflexivity.
Defined.

(** ** Proximity triggers *)

Lemma proximityFrame_cases center radius once t cam :
  let r := proximityFrame center radius once t cam in
  (snd r = [] /\ fst r = t)
  \/ (snd r = [TriggerEnter] /\ inRef t = false /\ inRef (fst r) = true
      /\ doneRef (fst r) = (if once then true else doneRef t)
      /\ (once = true -> doneRef t = false))
  \/ (snd r = [TriggerExit] /\ inRef t = true /\ inRef (fst r) = false
      /\ doneRef (fst r) = doneRef t
      /\ (once = true -> doneRef t = false)).
Proof.
  cbv zeta. unfold proximityFrame.
  destruct once, (doneRef t) eqn:Hd, (inRef t) eqn:Hi,
    (js_le (v_distanceTo center cam) radius);
    cbn [andb negb fst snd inRef doneRef];
    try (left; split; [reflexivity | try reflexivity; destruct t; cbn in *; congruence]);
    try (right; left; repeat split; congruence);
    try (right; right; repeat split; congruence).
Qed.

(** X21. A proximity trigger calls [onEnter] and [onExit] in turns: along
    any path of the camera the calls alternate, starting with an enter when
    the trigger was outside and with an exit when it was inside. *)
Theorem proximity_calls_alternate
    (center : Vector3) (radius : R) (once : bool) (path : list Vector3) :
  forall t : TriggerRefs,
    alternating (inRef t) (snd (proximityRun center radius once t path)).
Proof.
  induction path as [| cam rest IH]; intros t.
  - cbn. exact I.
  - cbn [proximityRun].
    destruct (proximityFrame_cases center radius once t cam)
      as [[Hc Ht] | [(Hc & Hi & Hi' & _) | (Hc & Hi & Hi' & _)]];
      cbv zeta in *;
      destruct (proximityFrame center radius once t cam) as [t' calls];
      cbn [fst snd] in *; subst calls;
      specialize (IH t');
      destruct (proximityRun center radius once t' rest) as [t'' calls'];
      cbn [fst snd app alternating] in *.
    + subst t'. exact IH.
    + rewrite Hi' in IH. split; [exact Hi | exact IH].
    + rewrite Hi' in IH. split; [exact Hi | exact IH].
Qed.

Lemma proximityRun_done center radius path : forall t,
  doneRef t = true ->
  proximityRun center radius true t path = (t, []).
Proof.
  induction path as [| cam rest IH]; intros t Hd; [reflexivity |].
  cbn [proximityRun]. unfold proximityFrame. rewrite Hd. cbn [andb].
  rewrite (IH t Hd). reflexivity.
Qed.

(** X22. A proximity trigger with [once] fires at most once and never
    calls [onExit]: started outside, the calls along any path are either
    none or a single enter, after which the trigger stays disabled. *)
Theorem proximity_once_fires_at_most_once
    (center : Vector3) (radius : R) (path : list Vector3) (t : TriggerRefs) :
  inRef t = false ->
  let r := proximityRun center radius true t path in
  (snd r = [] \/ (snd r = [TriggerEnter] /\ doneRef (fst r) = true))
  /\ ~ In TriggerExit (snd r).
Proof.
  intros Hi; cbv zeta.
  assert (Hmain : snd (proximityRun center radius true t path) = []
                  \/ (snd (proximityRun center radius true t path) = [TriggerEnter]
                      /\ doneRef (fst (proximityRun center radius true t path))
                         = true)).
  { revert t Hi. induction path as [| cam rest IH]; intros t Hi.
    - left; reflexivity.
    - cbn [proximityRun].
      destruct (proximityFrame_cases center radius true t cam)
        as [[Hc Ht] | [(Hc & _ & _ & Hd' & _) | (Hc & Hi2 & _)]];
        cbv zeta in *; [| | congruence];
        destruct (proximityFrame center radius true t cam) as [t' calls];
        cbn [fst snd] in *; subst calls.
      + subst t'. specialize (IH t Hi).
        destruct (proximityRun center radius true t rest) as [t'' calls'].
        cbn [fst snd app] in *. exact IH.
      + rewrite (proximityRun_done center radius rest t' Hd').
        cbn [fst snd app]. right. split; [reflexivity | exact Hd']. }
  split; [exact Hmain |].
  destruct Hmain as [-> | [-> _]]; cbn; intuition discriminate.
Qed.

Lemma proximity_once_fires_at_most_once_witness :
  ~ In TriggerExit
      (snd (proximityRun (vec3 0 0 0) 2 true (mkTrigger false false)
              [vec3 5 0 0; vec3 1 0 0; vec3 5 0 0; vec3 1 0 0])).
Proof.
  apply (proximity_once_fires_at_most_once (vec3 0 0 0) 2
           [vec3 5 0 0; vec3 1 0 0; vec3 5 0 0; vec3 1 0 0]
           (mkTrigger false false)).
  reflexivity.
Defined.

(** ** Frames of the portal *)

(** Through an invertible affine matrix and back through its inverse. *)
Lemma affine_round_trip m p :
  m_affine m -> m_determinant m <> 0 ->
  v_applyMatrix4 (v_applyMatrix4 p m) (m_invert m) = p.
Proof.
  intros (H3 & H7 & H11 & H15) Hd.
  unfold m_invert.
  destruct (js_eq (m_determinant m) 0) eqn:E; js_reflect; [contradiction |].
  destruct m as [a0 a1 a2 a3 a4 a5 a6 a7 a8 a9 a10 a11 a12 a13 a14 a15].
  cbn in H3, H7, H11, H15. subst.
  destruct p as [x y z].
  unfold v_applyMatrix4, m_determinant, det3 in *.
  cbn [e0 e1 e2 e3 e4 e5 e6 e7 e8 e9 e10 e11 e12 e13 e14 e15 vx vy vz] in *.
  apply vec3_ext; field; repeat split; try lra; try exact Hd.
Qed.

(** X23. The portal carries the planar offset over: seen from [DoorStart],
    the target of the teleport has the local X and Z that the camera had
    seen from [DoorEnd], and the local height [0], whenever the world
    matrix of [DoorStart] is affine and invertible. *)
Theorem portal_preserves_planar_offset
    (doorEnd doorStart : Object3D) (cameraPosition : Vector3) :
  m_affine (matrixWorld doorStart) ->
  m_determinant (matrixWorld doorStart) <> 0 ->
  let playerLocalToEnd :=
    v_applyMatrix4 cameraPosition (m_invert (matrixWorld doorEnd)) in
  let targetLocalToStart :=
    v_applyMatrix4 (portalTargetWorld doorEnd doorStart cameraPosition)
      (m_invert (matrixWorld doorStart)) in
  targetLocalToStart = vec3 (vx playerLocalToEnd) 0 (vz playerLocalToEnd)
  /\ Math_hypot (vx targetLocalToStart) (vz targetLocalToStart)
     = distanceOfPlayerFromDoorEnd doorEnd cameraPosition.
Proof.
  intros Ha Hd; cbv zeta.
  unfold portalTargetWorld; cbv zeta.
  rewrite (affine_round_trip _ _ Ha Hd). split; reflexivity.
Qed.

Lemma portal_preserves_planar_offset_witness :
  v_applyMatrix4
    (portalTargetWorld (mkObject (m_translation 8 0.8 1.5))
       (mkObject (m_translation 0 0 0)) (vec3 8.5 0.8 1))
    (m_invert (m_translation 0 0 0))
  = vec3 (vx (v_applyMatrix4 (vec3 8.5 0.8 1)
                (m_invert (m_translation 8 0.8 1.5))))
         0
         (vz (v_applyMatrix4 (vec3 8.5 0.8 1)
                (m_invert (m_translation 8 0.8 1.5)))).
Proof.
  apply (portal_preserves_planar_offset (mkObject (m_translation 8 0.8 1.5))
           (mkObject (m_translation 0 0 0)) (vec3 8.5 0.8 1)).
  - unfold m_affine; cbn. repeat split; reflexivity.
  - unfold m_determinant, det3; cbn. lra.
Defined.

(** ** Footsteps over successive frames *)

(** X25. At a normal cadence, with a footstep callback, the feet take
    turns: a frame reports the left foot only from the first half of the
    cycle and ends in the second half; it reports the right foot only from
    the second half and ends in the first half; and a frame that reports
    nothing ends in the half where it began.  So between two reports of one
    foot there is always a report of the other. *)
Theorem footsteps_take_turns `{ThreeCamera}
    (p : Props) (delta : R) (s : State) (body : RigidBody) :
  bodyRef s = Some body -> onFootstep p = true ->
  0 <= phase (bobRef s) < 2 * PI -> 0 <= delta ->
  frameCadence p delta s body * 2 * PI * delta < PI ->
  let from := phase (bobRef s) in
  let to := phase (bobRef (fst (tick p delta s))) in
  let steps := snd (tick p delta s) in
  (steps = [] \/ steps = [FootLeft] \/ steps = [FootRight])
  /\ (steps = [FootLeft] -> from < PI <= to)
  /\ (steps = [FootRight] -> to < PI <= from)
  /\ (steps = [] -> (from < PI <-> to < PI)).
Proof.
  intros Hb Hf Hp Hd Hadv; cbv zeta.
  destruct (tick_bob p delta s body Hb) as [-> ->].
  rewrite bobStep_steps, bobStep_phase; cbv zeta.
  unfold frameCadence in Hadv; cbv zeta in Hadv.
  set (ns := normalizedSpeedOf p (fst (blendedOf p delta s body))
               (snd (blendedOf p delta s body))) in *.
  set (stepHz := nextHz p delta ns (bobRef s)) in *.
  set (intensity' := nextIntensity p delta ns (bobRef s)) in *.
  pose proof PI_RGT_0 as Hpi. rewrite Hf, andb_true_r.
  destruct (bobEnabled p && phaseAdvances intensity' stepHz) eqn:E.
  2:{ split; [left; reflexivity |]. repeat split; intros; try discriminate; tauto. }
  apply andb_true_iff in E. destruct E as [_ E].
  apply phaseAdvances_true in E. destruct E as [_ Hz].
  assert (Ha : 0 <= stepHz * 2 * PI * delta < PI)
    by (split; [apply advance_nonneg; lra | exact Hadv]).
  pose proof (nextPhase_cases delta stepHz (phase (bobRef s)) Hp Ha) as Hto;
    cbv zeta in Hto.
  pose proof (crossed_zero_iff _ _ _ Hp Ha Hto) as Hzero.
  pose proof (crossed_pi_iff _ _ _ Hp Ha Hto) as Hhalf.
  unfold footsteps.
  destruct (crossed (phase (bobRef s)) (nextPhase delta stepHz (phase (bobRef s))) 0)
    eqn:C0;
    destruct (crossed (phase (bobRef s)) (nextPhase delta stepHz (phase (bobRef s))) PI)
      eqn:C1; cbn [app].
  - exfalso. destruct Hzero as [Hz1 _]. destruct Hhalf as [Hh1 _].
    specialize (Hz1 eq_refl). specialize (Hh1 eq_refl). lra.
  - destruct Hzero as [Hz1 _]. specialize (Hz1 eq_refl).
    split; [right; right; reflexivity |].
    repeat split; intros; try discriminate;
      destruct Hto as [[Hlt Et] | [Hge Et]]; rewrite ?Et; lra.
  - destruct Hhalf as [Hh1 _]. specialize (Hh1 eq_refl).
    split; [right; left; reflexivity |].
    repeat split; intros; try discriminate;
      destruct Hto as [[Hlt Et] | [Hge Et]]; rewrite ?Et; lra.
  - split; [left; reflexivity |].
    assert (Hn0 : ~ 2 * PI <= phase (bobRef s) + stepHz * 2 * PI * delta)
      by (intros Hc; apply Hzero in Hc; discriminate).
    assert (Hn1 : ~ phase (bobRef s) < PI
                    <= phase (bobRef s) + stepHz * 2 * PI * delta)
      by (intros Hc; apply Hhalf in Hc; discriminate).
    repeat split; intros; try discriminate;
      destruct Hto as [[Hlt Et] | [Hge Et]]; rewrite ?Et in *; lra.
Qed.

(** Frames of [0.05] s in mid-walk, just before the middle and just before
    the end of the cycle. *)
Lemma footsteps_take_turns_witness :
  (snd (@tick exampleCamera sceneProps 0.05 (walkingState (PI - 0.01)))
   = [FootLeft]
   /\ PI <= phase (bobRef (fst (@tick exampleCamera sceneProps 0.05
                                  (walkingState (PI - 0.01))))))
  /\ (snd (@tick exampleCamera sceneProps 0.05 (walkingState (2 * PI - 0.01)))
      = [FootRight]
      /\ phase (bobRef (fst (@tick exampleCamera sceneProps 0.05
                               (walkingState (2 * PI - 0.01))))) < PI).
Proof.
  pose proof pi_gt_3 as Hpi.
  split.
  - destruct (@footsteps_take_turns exampleCamera sceneProps 0.05
                (walkingState (PI - 0.01))
                (mkBody (vec3 8 0 1.5) (vec3 0 0 (-1))) eq_refl eq_refl)
      as (Hone & Hleft & _ & _).
    + cbn. lra.
    + lra.
    + rewrite walking_cadence by lra. lra.
    + pose proof walking_half_reports_left as Hin.
      destruct Hone as [E | [E | E]]; rewrite E in Hin.
      * destruct Hin.
      * split; [exact E |]. apply (Hleft E).
      * destruct Hin as [Hin | []]. discriminate Hin.
  - destruct (@footsteps_take_turns exampleCamera sceneProps 0.05
                (walkingState (2 * PI - 0.01))
                (mkBody (vec3 8 0 1.5) (vec3 0 0 (-1))) eq_refl eq_refl)
      as (Hone & _ & Hright & _).
    + cbn. lra.
    + lra.
    + rewrite walking_cadence by lra. lra.
    + pose proof walking_wrap_reports_right as Hin.
      destruct Hone as [E | [E | E]]; rewrite E in Hin.
      * destruct Hin.
      * destruct Hin as [Hin | []]. discriminate Hin.
      * split; [exact E |]. apply (Hright E).
Defined.
